(** * brain-indexer (spatial_index): identifiers, geometry kernel, voxel grid,
      rank topology and the guards of the STR loader and of deserialisation.

    A shallow embedding of the C++ sources
      - include/spatial_index/index.hpp
      - include/spatial_index/point3d.hpp
      - include/spatial_index/detail/geometries.hpp
      - include/spatial_index/detail/index_grid.hpp
      - include/spatial_index/detail/distributed_sort_tile_recursion.hpp
    followed by the properties established about them.

    Conventions.
    - Unsigned integers are [Z] with the wrap-around of their width written
      out ([identifier_t] = [unsigned long] is 64 bits wide, [unsigned] 32).
    - [CoordType] is a class of scalar operations; the functions of the
      geometry kernel and of the grid are written once over it.  Its
      instance [Rcoord] interprets every operation exactly, over the real
      numbers: rounding, infinities and NaN are abstracted away, and the
      theorems about the kernel are theorems of that exact reading.  Its
      instance [Doublecoord] is IEEE 754 binary64, the arithmetic of the
      build with BBPSPATIAL_DOUBLE_PRECISION; the functions run on it.
    - Exceptions are values: a throwing function returns [inl e].
    - A read through a reference to a destroyed temporary has no value: the
      function that makes it returns [undefined]. *)

From Stdlib Require Import ZArith Lia List String Bool.
From Stdlib Require Import Reals Lra Psatz.
From Stdlib Require Floats Uint63.
From stdpp Require Import gmap.
Import ListNotations.

(* ===================================================================== *)
(** * Part I. The embedding                                               *)
(* ===================================================================== *)

(** ** Exceptions *)

(** [std::runtime_error(what)], thrown by the modelled functions, and
    [boost::archive::archive_exception], thrown by an archive. *)
Inductive exception : Type :=
| runtime_error (what : string)
| archive_exception (what : string).

Definition result (A : Type) : Type := (exception + A)%type.

(** ** index.hpp: identifiers *)

Module Ident.
Local Open Scope Z_scope.

(** Value of an unsigned [w]-bit integer expression: reduction modulo 2^w. *)
Definition wrap (w x : Z) : Z := x mod 2 ^ w.

(** [using identifier_t = unsigned long;] and plain [unsigned]. *)
Definition identifier_bits : Z := 64.
Definition unsigned_bits : Z := 32.

Definition is_identifier_t (x : Z) : Prop := 0 <= x < 2 ^ identifier_bits.
Definition is_unsigned (x : Z) : Prop := 0 <= x < 2 ^ unsigned_bits.

Definition N_SEGMENT_BITS : Z := 14.
Definition N_SECTION_BITS : Z := 14.
Definition N_TOTAL_BITS : Z := N_SEGMENT_BITS + N_SECTION_BITS.
Definition N_GID_BITS : Z := 64 - N_TOTAL_BITS.

(** [x << n], [~x] and [x + y] on [w]-bit unsigned operands. *)
Definition shl (w x n : Z) : Z := wrap w (Z.shiftl x n).
Definition bnot (w x : Z) : Z := wrap w (Z.lnot x).
Definition uadd (w x y : Z) : Z := wrap w (x + y).

(** [mask_bits<Int>(n_bits) = (Int(1) << n_bits) - 1], [Int] being [w] bits
    wide. *)
Definition mask_bits (w n_bits : Z) : Z := wrap w (shl w 1 n_bits - 1).

Definition MASK_SEGMENT_BITS : Z := mask_bits identifier_bits N_SEGMENT_BITS.
Definition MASK_SECTION_BITS : Z :=
  shl identifier_bits (mask_bits identifier_bits N_SECTION_BITS) N_SEGMENT_BITS.

(** [struct ShapeId { identifier_t id; }] *)
Record ShapeId : Type := mkShapeId { id : Z }.

(** [ShapeId::operator==]: [id == rhs.id]. *)
Definition ShapeId_eq (this rhs : ShapeId) : bool := id this =? id rhs.

(** [struct SynapseId : ShapeId { identifier_t post_gid_, pre_gid_; }] *)
Record SynapseId : Type := mkSynapseId {
  syn_shape : ShapeId;
  post_gid_ : Z;
  pre_gid_ : Z
}.

(** [SynapseId(syn_id, post_gid = 0, pre_gid = 0) noexcept]: an omitted
    argument is [None] and takes its default. *)
Definition SynapseId_new (syn_id : Z) (post_gid pre_gid : option Z) : SynapseId :=
  mkSynapseId (mkShapeId syn_id)
              (match post_gid with Some g => g | None => 0 end)
              (match pre_gid with Some g => g | None => 0 end).

Definition post_gid (s : SynapseId) : Z := post_gid_ s.
Definition pre_gid (s : SynapseId) : Z := pre_gid_ s.

Definition is_gid_safe (gid : Z) : bool :=
  Z.land gid (bnot identifier_bits (mask_bits identifier_bits N_GID_BITS)) =? 0.

Definition is_section_id_safe (section_id : Z) : bool :=
  Z.land section_id (bnot unsigned_bits (mask_bits unsigned_bits N_SECTION_BITS)) =? 0.

Definition is_segment_id_safe (segment_id : Z) : bool :=
  Z.land segment_id (bnot unsigned_bits (mask_bits unsigned_bits N_SEGMENT_BITS)) =? 0.

(** [struct MorphPartId : ShapeId] *)
Record MorphPartId : Type := mkMorphPartId { part_shape : ShapeId }.

(** The value the member initialiser gives to [id]:
    [(gid << N_TOTAL_BITS) + (section_id << N_SEGMENT_BITS) + segment_id].
    The first shift is on [unsigned long], the second on [unsigned]; the sums
    are on [unsigned long]. *)
Definition packed_id (gid section_id segment_id : Z) : Z :=
  uadd identifier_bits
       (uadd identifier_bits (shl identifier_bits gid N_TOTAL_BITS)
                             (shl unsigned_bits section_id N_SEGMENT_BITS))
       segment_id.

Definition too_large_message : string :=
  "One of the IDs is too large to be encoded in the current data structure!".

(** [MorphPartId(gid, section_id, segment_id)].  The outcome carries the
    lines passed to [log_error] and either the exception thrown by the
    constructor body or the constructed object. *)
Definition MorphPartId_new (gid section_id segment_id : Z)
  : list string * result MorphPartId :=
  let self := mkMorphPartId (mkShapeId (packed_id gid section_id segment_id)) in
  if negb (is_gid_safe gid && is_section_id_safe section_id
           && is_segment_id_safe segment_id)
  then
    ([too_large_message],
     if negb (is_gid_safe gid) then inl (runtime_error "Invalid gid.")
     else if negb (is_section_id_safe section_id)
          then inl (runtime_error "Invalid section_id.")
          else inl (runtime_error "Invalid segment_id."))
  else ([], inr self).

(** [util::integer_cast<unsigned>]: util.hpp is not among the sources; it is
    read as the conversion to [unsigned] of an [unsigned long] value. *)
Definition integer_cast_unsigned (x : Z) : Z := wrap unsigned_bits x.

Definition gid (m : MorphPartId) : Z :=
  Z.shiftr (id (part_shape m)) N_TOTAL_BITS.

Definition segment_id (m : MorphPartId) : Z :=
  integer_cast_unsigned (Z.land (id (part_shape m)) MASK_SEGMENT_BITS).

Definition section_id (m : MorphPartId) : Z :=
  integer_cast_unsigned
    (Z.shiftr (Z.land (id (part_shape m)) MASK_SECTION_BITS) N_SEGMENT_BITS).

(** The spec's [InvalidIdentifier]: the [runtime_error]s thrown by the
    constructor when a component does not fit its field. *)
Definition InvalidIdentifier (e : exception) : Prop :=
  e = runtime_error "Invalid gid." \/
  e = runtime_error "Invalid section_id." \/
  e = runtime_error "Invalid segment_id.".

End Ident.

(** ** point3d.hpp: CoordType and points *)

(** [CoordType] is [float], or [double] under BBPSPATIAL_DOUBLE_PRECISION.
    The class lists the scalar operations the sources apply to it; the
    literals that occur in the sources are members, since their value
    depends on the format. *)
Class CoordType (C : Type) : Type := {
  of_Z : Z -> C;            (* an integer constant, or an int, as CoordType *)
  cadd : C -> C -> C;
  csub : C -> C -> C;
  cmul : C -> C -> C;
  cdiv : C -> C -> C;
  copp : C -> C;
  csqrt : C -> C;           (* std::sqrt *)
  cabs : C -> C;            (* abs, taken on a CoordType *)
  cfloor : C -> Z;          (* int(std::floor(x)) *)
  ceqb : C -> C -> bool;
  cltb : C -> C -> bool;
  cleb : C -> C -> bool;
  lit_1e_8f : C;            (* the literal 1e-8f *)
  lit_1e_6 : C;             (* the literal 1e-6 *)
  epsilon : C               (* std::numeric_limits<CoordType>::epsilon() *)
}.

Declare Scope coord_scope.
Delimit Scope coord_scope with coord.
Infix "+" := cadd : coord_scope.
Infix "-" := csub : coord_scope.
Infix "*" := cmul : coord_scope.
Infix "/" := cdiv : coord_scope.
Notation "- x" := (copp x) : coord_scope.
Infix "=?" := ceqb : coord_scope.
Infix "<?" := cltb : coord_scope.
Infix "<=?" := cleb : coord_scope.
Notation "x >? y" := (cltb y x) : coord_scope.
Notation "x >=? y" := (cleb y x) : coord_scope.
Notation "0" := (of_Z 0%Z) : coord_scope.
Notation "1" := (of_Z 1%Z) : coord_scope.
Notation "2" := (of_Z 2%Z) : coord_scope.
Notation "100" := (of_Z 100%Z) : coord_scope.

(** [bg::model::point<CoordType, 3, bg::cs::cartesian>] *)
Record Point3D (C : Type) : Type := mkPoint3D { get0 : C; get1 : C; get2 : C }.
Arguments mkPoint3D {C} _ _ _.
Arguments get0 {C} _.
Arguments get1 {C} _.
Arguments get2 {C} _.

(** [bg::model::box<Point3D>] *)
Record Box3D (C : Type) : Type := mkBox3D {
  min_corner : Point3D C;
  max_corner : Point3D C
}.
Arguments mkBox3D {C} _ _.
Arguments min_corner {C} _.
Arguments max_corner {C} _.

Module Point3Dx.
Section WithCoord.
Context {C : Type} {coord : CoordType C}.
Local Open Scope coord_scope.

(** [bg::add_point], [bg::subtract_point], [bg::multiply_point]: the first
    point combined componentwise with the second. *)
Definition add_point (p o : Point3D C) : Point3D C :=
  mkPoint3D (get0 p + get0 o) (get1 p + get1 o) (get2 p + get2 o).
Definition subtract_point (p o : Point3D C) : Point3D C :=
  mkPoint3D (get0 p - get0 o) (get1 p - get1 o) (get2 p - get2 o).
Definition multiply_point (p o : Point3D C) : Point3D C :=
  mkPoint3D (get0 p * get0 o) (get1 p * get1 o) (get2 p * get2 o).

(** [bg::add_value], [bg::subtract_value], [bg::multiply_value],
    [bg::divide_value]. *)
Definition add_value (p : Point3D C) (val : C) : Point3D C :=
  mkPoint3D (get0 p + val) (get1 p + val) (get2 p + val).
Definition subtract_value (p : Point3D C) (val : C) : Point3D C :=
  mkPoint3D (get0 p - val) (get1 p - val) (get2 p - val).
Definition multiply_value (p : Point3D C) (val : C) : Point3D C :=
  mkPoint3D (get0 p * val) (get1 p * val) (get2 p * val).
Definition divide_value (p : Point3D C) (val : C) : Point3D C :=
  mkPoint3D (get0 p / val) (get1 p / val) (get2 p / val).

(** The member operators of [Point3Dx].  The rvalue overloads update the
    temporary in place and the lvalue overloads a copy: one value either
    way.  What the rvalue overloads return is a reference to the temporary;
    where a function keeps that reference beyond the temporary, the
    reference is modelled as such (module [Lifetime] below). *)
Definition add (this other : Point3D C) : Point3D C := add_point this other.
Definition sub (this other : Point3D C) : Point3D C := subtract_point this other.
Definition mul (this other : Point3D C) : Point3D C := multiply_point this other.
Definition add_val (this : Point3D C) (val : C) : Point3D C := add_value this val.
Definition sub_val (this : Point3D C) (val : C) : Point3D C := subtract_value this val.
Definition mul_val (this : Point3D C) (val : C) : Point3D C := multiply_value this val.
Definition div_val (this : Point3D C) (val : C) : Point3D C := divide_value this val.

Definition dot (this o2 : Point3D C) : C :=
  get0 this * get0 o2 + get1 this * get1 o2 + get2 this * get2 o2.

(** [bg::cross_product] *)
Definition cross (this other : Point3D C) : Point3D C :=
  mkPoint3D (get1 this * get2 other - get2 this * get1 other)
            (get2 this * get0 other - get0 this * get2 other)
            (get0 this * get1 other - get1 this * get0 other).

Definition sqrt (this : Point3D C) : Point3D C :=
  mkPoint3D (csqrt (get0 this)) (csqrt (get1 this)) (csqrt (get2 this)).

Definition dist_sq (this b : Point3D C) : C :=
  let p := sub this b in dot p p.

Definition norm_sq (this : Point3D C) : C :=
  get0 this * get0 this + get1 this * get1 this + get2 this * get2 this.

Definition norm (this : Point3D C) : C := csqrt (norm_sq this).

(** [bool operator==(Point3D const& rhs) const] *)
Definition eq (this rhs : Point3D C) : bool :=
  let dist2 := dist_sq this rhs in
  if dist2 =? 0 then true
  else dist2 <? norm_sq this * lit_1e_8f.

(** The free helper templates [operator+], [operator-] and [operator*] for a
    left operand [v] that is not a [Point3Dx]: a scalar or a [Point3D].
    [v + point] is [point + v], [v - point] is [(point * -1.) + v] and
    [v * point] is [point * v]. *)
Definition val_add (v : C) (point : Point3D C) : Point3D C := add_val point v.
Definition val_sub (v : C) (point : Point3D C) : Point3D C :=
  add_val (mul_val point (of_Z (-1))) v.
Definition val_mul (v : C) (point : Point3D C) : Point3D C := mul_val point v.
Definition pt_add (v point : Point3D C) : Point3D C := add point v.
Definition pt_sub (v point : Point3D C) : Point3D C :=
  add (mul_val point (of_Z (-1))) v.

(** [std::max(a, b)] is [(a < b) ? b : a]; [std::min(a, b)] is
    [(b < a) ? b : a]. *)
Definition std_max (a b : C) : C := if a <? b then b else a.
Definition std_min (a b : C) : C := if b <? a then b else a.

Definition max (p1 p2 : Point3D C) : Point3D C :=
  mkPoint3D (std_max (get0 p1) (get0 p2)) (std_max (get1 p1) (get1 p2))
            (std_max (get2 p1) (get2 p2)).

Definition min (p1 p2 : Point3D C) : Point3D C :=
  mkPoint3D (std_min (get0 p1) (get0 p2)) (std_min (get1 p1) (get1 p2))
            (std_min (get2 p1) (get2 p2)).

End WithCoord.
End Point3Dx.

(** [operator==(Point3D const& p1, Point3D const& p2)] on the plain Boost
    point: [Point3Dx(p1) == p2]. *)
Definition Point3D_eq {C : Type} {coord : CoordType C} (p1 p2 : Point3D C) : bool :=
  Point3Dx.eq p1 p2.

(** ** Temporaries and the references to them *)

(** The rvalue overloads of [Point3Dx], such as
    [Point3Dx& operator-(Point3D const& other) &&], work in the temporary
    they are called on and return a reference to it; the temporary lives to
    the end of the full-expression.  A declaration [auto x = e;] copies the
    referent while it lives: the functions that declare their locals so are
    modelled on the values.  A declaration [const auto& x = e;] binds [x]
    to the referent itself; [e] being an lvalue and not a prvalue, no
    lifetime is extended, so that once the declaration is over [x] refers
    to a destroyed object.  Reading through such a reference is undefined
    behaviour. *)
Module Lifetime.

Record reference (A : Type) : Type := mkReference { referent : A; lives : bool }.
Arguments mkReference {A} _ _.
Arguments referent {A} _.
Arguments lives {A} _.

(** What an evaluation gives: a value, or nothing that the language
    defines. *)
Inductive behaviour (A : Type) : Type :=
| defined (a : A)
| undefined.
Arguments defined {A} _.
Arguments undefined {A}.

Definition read {A : Type} (r : reference A) : behaviour A :=
  if lives r then defined (referent r) else undefined.

Definition and_then {A B : Type} (m : behaviour A) (k : A -> behaviour B)
  : behaviour B :=
  match m with
  | defined a => k a
  | undefined => undefined
  end.

(** The end of the full-expression: its temporaries are destroyed. *)
Definition end_of_full_expression {A : Type} (r : reference A) : reference A :=
  mkReference (referent r) false.

(** [auto x = e;] and [const auto& x = e;] for an [e] that is a reference
    to a temporary of the declaration, each with the end of the
    declaration. *)
Definition auto_copy {A : Type} (e : reference A) : behaviour A := read e.

Definition const_auto_ref {A : Type} (e : reference A) : reference A :=
  end_of_full_expression e.

(** [Point3Dx(this) - other]: the overload
    [Point3Dx& operator-(Point3D const& other) &&] on the temporary
    [Point3Dx(this)], inside its full-expression. *)
Definition sub_rvalue {C : Type} {coord : CoordType C} (this other : Point3D C)
  : reference (Point3D C) :=
  mkReference (Point3Dx.sub this other) true.

End Lifetime.

(** ** geometries.hpp and detail/geometries.hpp: the geometry kernel *)

(** The header that declares [Sphere] and [Cylinder] is not among the
    sources; the two structs are read off their uses in
    detail/geometries.hpp ([centroid], [radius]; [p1], [p2], [radius]). *)
Module Sphere.
Record t (C : Type) : Type := mk { centroid : Point3D C; radius : C }.
Arguments mk {C} _ _.
Arguments centroid {C} _.
Arguments radius {C} _.
End Sphere.

Module Cylinder.
Record t (C : Type) : Type := mk { p1 : Point3D C; p2 : Point3D C; radius : C }.
Arguments mk {C} _ _ _.
Arguments p1 {C} _.
Arguments p2 {C} _.
Arguments radius {C} _.
End Cylinder.

Module Geometry.
Section WithCoord.
Context {C : Type} {coord : CoordType C}.
Local Open Scope coord_scope.
Import Point3Dx.

(** [detail::distance_segment_segment]: the mutable locals [sN], [sD], [tN],
    [tD] are threaded through the two cascades of tests. *)
Definition distance_segment_segment (s1_0 s1_1 s2_0 s2_1 : Point3D C) : C :=
  let u := sub s1_1 s1_0 in
  let v := sub s2_1 s2_0 in
  let w := sub s1_0 s2_0 in
  let a := dot u u in
  let b := dot u v in
  let c := dot v v in
  let d := dot u w in
  let e := dot v w in
  let D := a * c - b * b in
  let EPSILON := lit_1e_6 in
  let '(sN, sD, tN, tD) :=
    if D <? EPSILON then (0, 1, e, c)
    else
      let sN := b * e - c * d in
      let tN := a * e - b * d in
      if sN <? 0 then (0, D, e, c)
      else if sN >? D then (D, D, e + b, c)
      else (sN, D, tN, D) in
  let '(sN, sD, tN) :=
    if tN <? 0 then
      if - d <? 0 then (0, sD, 0)
      else if - d >? a then (sD, sD, 0)
      else (- d, a, 0)
    else if tN >? tD then
      if (- d + b) <? 0 then (0, sD, tD)
      else if (- d + b) >? a then (sD, sD, tD)
      else (- d + b, a, tD)
    else (sN, sD, tN) in
  let sc := if cabs sN <? EPSILON then 0 else sN / sD in
  let tc := if cabs tN <? EPSILON then 0 else tN / tD in
  let dP := sub (add w (val_mul sc u)) (val_mul tc v) in
  norm dP.

(** The two parameters [sc] and [tc] that [distance_segment_segment]
    arrives at, as a function of the five dot products: the same locals and
    the same cascades, up to the two divisions. *)
Definition closest_parameters (a b c d e : C) : C * C :=
  let D := a * c - b * b in
  let EPSILON := lit_1e_6 in
  let '(sN, sD, tN, tD) :=
    if D <? EPSILON then (0, 1, e, c)
    else
      let sN := b * e - c * d in
      let tN := a * e - b * d in
      if sN <? 0 then (0, D, e, c)
      else if sN >? D then (D, D, e + b, c)
      else (sN, D, tN, D) in
  let '(sN, sD, tN) :=
    if tN <? 0 then
      if - d <? 0 then (0, sD, 0)
      else if - d >? a then (sD, sD, 0)
      else (- d, a, 0)
    else if tN >? tD then
      if (- d + b) <? 0 then (0, sD, tD)
      else if (- d + b) >? a then (sD, sD, tD)
      else (- d + b, a, tD)
    else (sN, sD, tN) in
  let sc := if cabs sN <? EPSILON then 0 else sN / sD in
  let tc := if cabs tN <? EPSILON then 0 else tN / tD in
  (sc, tc).

Definition project_point_onto_line (base dir x : Point3D C) : Point3D C :=
  let dir_dot_dir := dot dir dir in
  let x_dot_dir := dot (sub x base) dir in
  add base (div_val (val_mul x_dot_dir dir) dir_dot_dir).

Definition clamp (x low high : C) : C := std_min (std_max x low) high.

Definition project_point_onto_segment (base dir x : Point3D C) : Point3D C :=
  let dir_dot_dir := norm_sq dir in
  let x_dot_dir := dot (sub x base) dir in
  let x_rel := clamp (x_dot_dir / dir_dot_dir) 0 1 in
  add base (val_mul x_rel dir).

(** [Sphere::intersects(Cylinder const&)].  [centroid], [c.p1] and the
    closer cap are plain [Point3D]s, so the differences taken from them go
    through the free [operator-]. *)
Definition Sphere_intersects_Cylinder (s : Sphere.t C) (c : Cylinder.t C) : bool :=
  let u := sub (Sphere.centroid s) (Cylinder.p1 c) in
  let v := sub (Cylinder.p2 c) (Cylinder.p1 c) in
  let v_dot_u := dot v u in
  let v_dot_v := norm_sq v in
  let max_distance := Sphere.radius s + Cylinder.radius c in
  let max_distance_sq := max_distance * max_distance in
  if (0 <=? v_dot_u) && (v_dot_u <=? v_dot_v) then
    let dist_sq := norm_sq u - v_dot_u * v_dot_u / v_dot_v in
    dist_sq <=? max_distance_sq
  else
    let closer_cap := if v_dot_u <? 0 then Cylinder.p1 c else Cylinder.p2 c in
    if norm_sq (pt_sub (Sphere.centroid s) closer_cap) >? max_distance_sq then false
    else
      let p := pt_add (Cylinder.p1 c) (val_mul (v_dot_u / v_dot_v) v) in
      let d := pt_sub (Sphere.centroid s) p in
      let d_norm := norm d in
      let centroid_to_cap :=
        if d_norm <? 100 * epsilon then closer_cap
        else project_point_onto_segment
               (pt_sub closer_cap (mul_val d (Cylinder.radius c / d_norm)))
               (mul_val d (2 * Cylinder.radius c / d_norm))
               (Sphere.centroid s) in
      norm_sq (pt_sub (Sphere.centroid s) centroid_to_cap)
        <=? Sphere.radius s * Sphere.radius s.

(** Locals of [Sphere::intersects(Cylinder const&)], by name: [v_dot_u],
    [v_dot_v], [closer_cap], the foot [p] on the axis line and the offset
    [d] of the centre from it. *)
Definition v_dot_u (s : Sphere.t C) (c : Cylinder.t C) : C :=
  dot (sub (Cylinder.p2 c) (Cylinder.p1 c)) (sub (Sphere.centroid s) (Cylinder.p1 c)).

Definition v_dot_v (c : Cylinder.t C) : C :=
  norm_sq (sub (Cylinder.p2 c) (Cylinder.p1 c)).

Definition closer_cap (s : Sphere.t C) (c : Cylinder.t C) : Point3D C :=
  if v_dot_u s c <? 0 then Cylinder.p1 c else Cylinder.p2 c.

Definition axis_foot (s : Sphere.t C) (c : Cylinder.t C) : Point3D C :=
  pt_add (Cylinder.p1 c)
         (val_mul (v_dot_u s c / v_dot_v c) (sub (Cylinder.p2 c) (Cylinder.p1 c))).

Definition axis_offset (s : Sphere.t C) (c : Cylinder.t C) : Point3D C :=
  pt_sub (Sphere.centroid s) (axis_foot s c).

Definition Sphere_contains (s : Sphere.t C) (p : Point3D C) : bool :=
  let dist_sq := norm_sq (sub p (Sphere.centroid s)) in
  dist_sq <=? Sphere.radius s * Sphere.radius s.

Definition Cylinder_intersects_Cylinder (this c : Cylinder.t C) : bool :=
  let min_dist :=
    distance_segment_segment (Cylinder.p1 this) (Cylinder.p2 this)
                             (Cylinder.p1 c) (Cylinder.p2 c) in
  min_dist <=? Cylinder.radius this + Cylinder.radius c.

(** The statements of [Cylinder::contains] below its two declarations, on
    the values that the reads of [cyl_axis] and of [p1_ptest] give. *)
Definition Cylinder_contains_test (radius : C) (cyl_axis p1_ptest : Point3D C)
  : bool :=
  let dot_prod := dot p1_ptest cyl_axis in
  let axis_len_sq := norm_sq cyl_axis in
  if (dot_prod <? 0) || (dot_prod >? axis_len_sq) then false
  else
    let dist_sq := norm_sq p1_ptest - dot_prod * dot_prod / axis_len_sq in
    dist_sq <=? radius * radius.

(** [Cylinder::contains].  Its two locals are declared
    [const auto& cyl_axis = Point3Dx(p2) - p1;] and
    [const auto& p1_ptest = Point3Dx(p) - p1;]: each is bound to the
    reference that the rvalue [operator-] returns for a temporary of the
    declaration, and is read in the statements that follow. *)
Definition Cylinder_contains (this : Cylinder.t C) (p : Point3D C)
  : Lifetime.behaviour bool :=
  let cyl_axis :=
    Lifetime.const_auto_ref
      (Lifetime.sub_rvalue (Cylinder.p2 this) (Cylinder.p1 this)) in
  let p1_ptest :=
    Lifetime.const_auto_ref (Lifetime.sub_rvalue p (Cylinder.p1 this)) in
  Lifetime.and_then (Lifetime.read p1_ptest) (fun p1_ptest =>
  Lifetime.and_then (Lifetime.read cyl_axis) (fun cyl_axis =>
  Lifetime.defined
    (Cylinder_contains_test (Cylinder.radius this) cyl_axis p1_ptest))).

(** The regime of [distance_segment_segment] in which no guard fires: the
    axes are not taken for parallel ([D >= EPSILON]) and the closest points
    of the two lines lie inside both segments, away from their first
    endpoints ([EPSILON <= sN <= D] and [EPSILON <= tN <= D]). *)
Definition closest_points_interior (c1 c2 : Cylinder.t C) : bool :=
  let u := sub (Cylinder.p2 c1) (Cylinder.p1 c1) in
  let v := sub (Cylinder.p2 c2) (Cylinder.p1 c2) in
  let w := sub (Cylinder.p1 c1) (Cylinder.p1 c2) in
  let a := dot u u in
  let b := dot u v in
  let c := dot v v in
  let d := dot u w in
  let e := dot v w in
  let D := a * c - b * b in
  let sN := b * e - c * d in
  let tN := a * e - b * d in
  (lit_1e_6 <=? D) && (lit_1e_6 <=? sN) && (sN <=? D)
  && (lit_1e_6 <=? tN) && (tN <=? D).

(** Modelled from the spec: [bounding_box()] of the two shapes is defined in
    geometries.hpp, which is not among the sources.  The box of a sphere is
    its centre moved by the radius along every axis; the box of a cylinder
    is the tight box of the flat-capped solid, whose half-extent along an
    axis is [radius * sqrt(1 - x)], [x] being the squared cosine of the
    angle between the cylinder axis and that axis. *)
Definition Sphere_bounding_box (s : Sphere.t C) : Box3D C :=
  mkBox3D (sub_val (Sphere.centroid s) (Sphere.radius s))
          (add_val (Sphere.centroid s) (Sphere.radius s)).

Definition Cylinder_bounding_box (c : Cylinder.t C) : Box3D C :=
  let vec := sub (Cylinder.p2 c) (Cylinder.p1 c) in
  let x := div_val (mul vec vec) (dot vec vec) in
  let e := val_mul (Cylinder.radius c) (sqrt (val_sub 1 x)) in
  mkBox3D (min (pt_sub (Cylinder.p1 c) e) (pt_sub (Cylinder.p2 c) e))
          (max (pt_add (Cylinder.p1 c) e) (pt_add (Cylinder.p2 c) e)).

End WithCoord.
End Geometry.

(** ** index.hpp: indexed shapes *)

(** [IndexedShape<ShapeT, IndexT>] derives from both of its parameters:
    [Soma] is [IndexedShape<Sphere, MorphPartId>] and [Segment] is
    [IndexedShape<Cylinder, MorphPartId>]. *)
Module Soma.
Record t (C : Type) : Type := mk { ids : Ident.MorphPartId; shape : Sphere.t C }.
Arguments mk {C} _ _.
Arguments ids {C} _.
Arguments shape {C} _.
End Soma.

Module Segment.
Record t (C : Type) : Type := mk { ids : Ident.MorphPartId; shape : Cylinder.t C }.
Arguments mk {C} _ _.
Arguments ids {C} _.
Arguments shape {C} _.
End Segment.

(** [typedef boost::variant<Soma, Segment> MorphoEntry;] *)
Inductive MorphoEntry (C : Type) : Type :=
| MSoma (s : Soma.t C)
| MSegment (s : Segment.t C).
Arguments MSoma {C} _.
Arguments MSegment {C} _.

(** [class Synapse : public IndexedShape<Sphere, SynapseId>] *)
Module Synapse.
Record t (C : Type) : Type := mk { ids : Ident.SynapseId; shape : Sphere.t C }.
Arguments mk {C} _ _.
Arguments ids {C} _.
Arguments shape {C} _.
End Synapse.

(** How a call ends: it returns, it throws, or, when the exception leaves a
    function declared [noexcept], the program is terminated. *)
Inductive outcome (A : Type) : Type :=
| Returned (a : A)
| Thrown (e : exception)
| Terminated.
Arguments Returned {A} _.
Arguments Thrown {A} _.
Arguments Terminated {A}.

Definition may_throw {A : Type} (r : result A) : outcome A :=
  match r with inl e => Thrown e | inr a => Returned a end.

Definition noexcept {A : Type} (r : result A) : outcome A :=
  match r with inl _ => Terminated | inr a => Returned a end.

Module Constructors.
Section WithCoord.
Context {C : Type} {coord : CoordType C}.

(** [IndexedShape(IdTup ids, const Point3D& p1, T&&... shape_data)], the
    constructor [Soma] inherits, at [IdTup = identifier_t]:
    [MorphPartId{ids}] is [MorphPartId(ids, 0, 0)] and the shape is
    [Sphere{p1, radius}], as in [Soma(0ul, Point3D{2, 2, 2}, 1.f)]. *)
Definition Soma_new (gid : Z) (centroid : Point3D C) (radius : C)
  : list string * outcome (Soma.t C) :=
  let '(log, ids) := Ident.MorphPartId_new gid 0 0 in
  (log, may_throw (match ids with
                   | inl e => inl e
                   | inr ids => inr (Soma.mk ids (Sphere.mk centroid radius))
                   end)).

(** [Segment(gid, section_id, segment_id, center1, center2, r) noexcept]:
    the ids go, tied in a tuple, to the constructor of [MorphPartId], which
    may throw. *)
Definition Segment_new (gid section_id segment_id : Z)
    (center1 center2 : Point3D C) (r : C)
  : list string * outcome (Segment.t C) :=
  let '(log, ids) := Ident.MorphPartId_new gid section_id segment_id in
  (log, noexcept (match ids with
                  | inl e => inl e
                  | inr ids => inr (Segment.mk ids (Cylinder.mk center1 center2 r))
                  end)).

(** [Synapse(id, post_gid, pre_gid, point) noexcept]: a sphere of radius
    [.0f] at [point]. *)
Definition Synapse_new (id post_gid pre_gid : Z) (point : Point3D C)
  : outcome (Synapse.t C) :=
  Returned (Synapse.mk (Ident.SynapseId_new id (Some post_gid) (Some pre_gid))
                       (Sphere.mk point (of_Z 0))).

End WithCoord.
End Constructors.

(** ** detail/index_grid.hpp: the voxel grid *)

Module Grid.
Section WithCoord.
Context {C : Type} {coord : CoordType C}.
Local Open Scope coord_scope.

(** The template parameter [VoxelLen]. *)
Variable VoxelLen : Z.

(** The packed id of [Segment{gid, segment_i, p1, p2, radius}].  No
    constructor of [Segment] in index.hpp takes these five arguments, so the
    way the two ids are packed is left open; the shape of the segment is the
    cylinder [{p1, p2, radius}]. *)
Variable segment_ids : Z -> Z -> Ident.MorphPartId.

Definition point2voxel (value : Point3D C) : Z * Z * Z :=
  (cfloor (get0 value / of_Z VoxelLen),
   cfloor (get1 value / of_Z VoxelLen),
   cfloor (get2 value / of_Z VoxelLen)).

(** The visitor [[](const auto& elem) { return elem.bounding_box(); }]. *)
Definition bounding_box (value : MorphoEntry C) : Box3D C :=
  match value with
  | MSoma s => Geometry.Sphere_bounding_box (Soma.shape s)
  | MSegment s => Geometry.Cylinder_bounding_box (Segment.shape s)
  end.

(** [grid_[key]]: the vector stored under [key], an empty one being created
    when the key is new; and [grid_[key].push_back(value)]. *)
Definition at_key (grid_ : gmap (Z * Z * Z) (list (MorphoEntry C)))
    (key : Z * Z * Z) : list (MorphoEntry C) :=
  default [] (grid_ !! key).

Definition push_back (key : Z * Z * Z) (value : MorphoEntry C)
    (grid_ : gmap (Z * Z * Z) (list (MorphoEntry C)))
  : gmap (Z * Z * Z) (list (MorphoEntry C)) :=
  <[key := at_key grid_ key ++ [value]]> grid_.

(** [GridPlacementHelper<MorphoEntry>::insert(const MorphoEntry& value)] *)
Definition insert (value : MorphoEntry C)
    (grid_ : gmap (Z * Z * Z) (list (MorphoEntry C)))
  : gmap (Z * Z * Z) (list (MorphoEntry C)) :=
  let bbox := bounding_box value in
  let vx1_i := point2voxel (min_corner bbox) in
  let vx2_i := point2voxel (max_corner bbox) in
  let grid_ := push_back vx1_i value grid_ in
  if bool_decide (vx1_i <> vx2_i) then push_back vx2_i value grid_
  else grid_.

(** [GridPlacementHelper<MorphoEntry>::insert(gid, segment_i, p1, p2,
    radius)].  [vec] refers to the vector under [vx1_i]; [vec.back()] is its
    last element, the segment just pushed. *)
Definition insert_segment (gid segment_i : Z) (p1 p2 : Point3D C) (radius : C)
    (grid_ : gmap (Z * Z * Z) (list (MorphoEntry C)))
  : gmap (Z * Z * Z) (list (MorphoEntry C)) :=
  let vx1_i := point2voxel p1 in
  let vx2_i := point2voxel p2 in
  let grid_ :=
    push_back vx1_i
      (MSegment (Segment.mk (segment_ids gid segment_i) (Cylinder.mk p1 p2 radius)))
      grid_ in
  if bool_decide (vx1_i <> vx2_i) then
    match last (at_key grid_ vx1_i) with
    | Some back => push_back vx2_i back grid_
    | None => grid_
    end
  else grid_.

(** [SpatialGrid::size()]: the lengths of all the vectors, added up. *)
Definition size (grid_ : gmap (Z * Z * Z) (list (MorphoEntry C))) : Z :=
  map_fold (fun _ v previous_size => (previous_size + Z.of_nat (length v))%Z) 0%Z grid_.

(** [SpatialGrid::voxels()]: the keys of the map, in the order of its
    iteration. *)
Definition voxels (grid_ : gmap (Z * Z * Z) (list (MorphoEntry C)))
  : list (Z * Z * Z) :=
  (map_to_list grid_).*1.

(** [SpatialGrid::operator+=]: for every item of [rhs], the vector under
    its key in this grid, an empty one being created when the key is new,
    gets the elements of the item appended.  [rhs] is another grid than this
    one. *)
Definition add_assign (grid_ rhs : gmap (Z * Z * Z) (list (MorphoEntry C)))
  : gmap (Z * Z * Z) (list (MorphoEntry C)) :=
  map_fold (fun key vec grid_ => <[key := at_key grid_ key ++ vec]> grid_) grid_ rhs.

End WithCoord.

(** One reading of the ids of [Segment{gid, segment_i, ...}], for the places
    where a concrete grid is evaluated: [segment_i] is the segment id, in
    section 0, packed without the range check.  Where a segment is stored
    does not depend on it. *)
Definition segment_ids_section_0 (gid segment_i : Z) : Ident.MorphPartId :=
  Ident.mkMorphPartId (Ident.mkShapeId (Ident.packed_id gid 0 segment_i)).

End Grid.

(** ** Effects: a state-and-exception monad *)

(** A computation runs in a world [W] (the storage, the communicators, the
    archive ...) and ends in a value or in an exception; the world it leaves
    behind is returned in both cases. *)
Definition M (W A : Type) : Type := W -> W * result A.

Definition ret {W A : Type} (a : A) : M W A := fun w => (w, inr a).

Definition throw {W A : Type} (e : exception) : M W A := fun w => (w, inl e).

Definition bind {W A B : Type} (m : M W A) (k : A -> M W B) : M W B :=
  fun w =>
    match m w with
    | (w', inl e) => (w', inl e)
    | (w', inr a) => k a w'
    end.

Declare Scope eff_scope.
Delimit Scope eff_scope with eff.
Notation "x <- m ;; k" := (bind m (fun x => k))
  (at level 90, m at level 80, right associativity) : eff_scope.
Notation "m ;;; k" := (bind m (fun _ => k))
  (at level 90, right associativity) : eff_scope.

(** [m] can end in the exception [e]. *)
Definition raises {W A : Type} (m : M W A) (e : exception) : Prop :=
  exists w w', m w = (w', inl e).

(** ** detail/distributed_sort_tile_recursion.hpp: the two-level STR loader *)

Module STR.
Local Open Scope Z_scope.

(** Modelled from the spec: [is_power_of_two], [int_log2] and [int_pow2]
    come from util.hpp, which is not among the sources.  The spec takes
    q = log2(R) of a power of two R and allocates factors of two: the
    helpers are the power-of-two test, the binary logarithm and the power of
    two. *)
Definition is_power_of_two (n : Z) : bool :=
  (0 <? n) && (Z.land n (n - 1) =? 0).
Definition int_log2 (n : Z) : Z := Z.log2 n.
Definition int_pow2 (k : Z) : Z := 2 ^ k.

(** [rank_distribution(comm_size)].  A failing [assert] aborts the process:
    the result is [None].  The array [dist] is a list of three ints, updated
    in place. *)
Definition rank_distribution (comm_size : Z) : option (list Z) :=
  if negb (is_power_of_two comm_size) then None
  else
    let dist := [0; 0; 0] in
    let log2_n := int_log2 comm_size in
    let dist :=
      fold_left (fun dist k => alter (fun dk => dk + 1) (Z.to_nat (k mod 3)) dist)
                (seqZ 0 log2_n) dist in
    let dist := map int_pow2 dist in
    if negb ((dist !!! 0%nat) * (dist !!! 1%nat) * (dist !!! 2%nat) =? comm_size)
    then None
    else Some dist.

(** The spec's rounded-up quotient of [a] by a positive [b]. *)
Definition ceil_div (a b : Z) : Z := - ((- a) / b).

(** [IndexedSubtreeBox(id, n_elements, box)] *)
Record IndexedSubtreeBox (Box : Type) : Type := mkIndexedSubtreeBox {
  subtree_id : Z;
  n_elements : Z;
  box : Box
}.
Arguments mkIndexedSubtreeBox {Box} _ _ _.

(** What the loader calls and does not define: the collective substrate
    ([mpi::], [MPI_Gatherv], the distributed sorter), the storage adapter,
    the serial STR and the signal check.  Every call that touches the
    communicator, the storage or the process state is a computation in the
    world of the substrate. *)
Record Substrate : Type := mkSubstrate {
  World : Type;
  Comm : Type;
  Value : Type;
  Box : Type;
  Subtree : Type;
  TopTree : Type;
  mpi_size : Comm -> Z;
  mpi_rank : Comm -> Z;
  check_signals : M World unit;
  sort_and_balance : list Value -> Comm -> M World (list Value);
  comm_split : Comm -> Z -> Z -> M World Comm;
  (* DistributedSTRParams::n_ranks_in_subslice<dim>() *)
  n_ranks_in_subslice : list Z -> Z -> Z;
  (* serial_sort_tile_recursion, SerialSTRParams::n_parts() and
     SerialSTRParams::partition_boundaries() *)
  serial_sort_tile_recursion : list Value -> Z -> list Z -> M World (list Value);
  n_parts : Z -> list Z -> Z;
  partition_boundaries : Z -> list Z -> list Z;
  (* Storage::subtree_type(first, last), size(), bounds(), save_subtree *)
  subtree_new : list Value -> M World Subtree;
  subtree_size : Subtree -> Z;
  subtree_bounds : Subtree -> Box;
  save_subtree : Subtree -> Z -> M World unit;
  (* mpi::gather_counts, mpi::offsets_from_counts, util::safe_integer_cast<int>
     and MPI_Gatherv; the receive side is given at the root only *)
  gather_counts : Z -> Comm -> M World (list Z);
  offsets_from_counts : list Z -> list Z;
  safe_integer_cast_int : Z -> result Z;
  MPI_Gatherv : list (IndexedSubtreeBox Box) -> Z ->
                option (Z * list Z * list Z) -> Comm ->
                M World (list (IndexedSubtreeBox Box));
  (* Storage::toptree_type(first, last) and save_top_tree *)
  toptree_new : list (IndexedSubtreeBox Box) -> M World TopTree;
  save_top_tree : TopTree -> M World unit
}.

(** [DistributedSTRParams], [LocalSTRParams] and [TwoLevelSTRParams]. *)
Record DistributedSTRParams : Type := mkDistributedSTRParams {
  n_points : Z;
  n_ranks_per_dim : list Z
}.
Record LocalSTRParams : Type := mkLocalSTRParams { n_parts_per_dim : list Z }.
Record TwoLevelSTRParams : Type := mkTwoLevelSTRParams {
  distributed : DistributedSTRParams;
  local : LocalSTRParams
}.

Section Loader.
Variable S : Substrate.
Local Open Scope eff_scope.

(** [size_t] arithmetic: 64 bits, unsigned. *)
Definition size_t_mul (x y : Z) : Z := Ident.wrap 64 (x * y).
Definition size_t_add (x y : Z) : Z := Ident.wrap 64 (x + y).

(** [gather_bounding_boxes(local_bounding_boxes, comm)] *)
Definition gather_bounding_boxes
    (local_bounding_boxes : list (IndexedSubtreeBox (Box S))) (comm : Comm S)
  : M (World S) (list (IndexedSubtreeBox (Box S))) :=
  recv_counts <- gather_counts S (Z.of_nat (length local_bounding_boxes)) comm ;;
  if mpi_rank S comm =? 0 then
    let recv_offsets := offsets_from_counts S recv_counts in
    let n_tl_boxes := fold_left size_t_add recv_counts 0 in
    match safe_integer_cast_int S (Z.of_nat (length local_bounding_boxes)) with
    | inl e => throw e
    | inr n_send =>
        MPI_Gatherv S local_bounding_boxes n_send
                    (Some (n_tl_boxes, recv_counts, recv_offsets)) comm
    end
  else
    match safe_integer_cast_int S (Z.of_nat (length local_bounding_boxes)) with
    | inl e => throw e
    | inr n_send =>
        MPI_Gatherv S local_bounding_boxes n_send None comm ;;;
        ret []
    end.

(** [DistributedSortTileRecursion<Value, GetCoordinate, dim>::apply]: the
    template recursion over [dim] = 0, 1, 2; [levels] is [2 - dim]. *)
Fixpoint DistributedSortTileRecursion_apply (levels : nat)
    (values : list (Value S)) (str_params : DistributedSTRParams)
    (mpi_comm : Comm S) : M (World S) (list (Value S)) :=
  check_signals S ;;;
  values <- sort_and_balance S values mpi_comm ;;
  match levels with
  | O => ret values
  | Datatypes.S levels' =>
      let dim := 2 - Z.of_nat levels in
      let k_rank_in_slice := mpi_rank S mpi_comm in
      let color :=
        Z.quot k_rank_in_slice
               (n_ranks_in_subslice S (n_ranks_per_dim str_params) dim) in
      sub_comm <- comm_split S mpi_comm color k_rank_in_slice ;;
      DistributedSortTileRecursion_apply levels' values str_params sub_comm
  end.

Definition distributed_sort_tile_recursion (values : list (Value S))
    (str_params : DistributedSTRParams) (mpi_comm : Comm S)
  : M (World S) (list (Value S)) :=
  DistributedSortTileRecursion_apply 2 values str_params mpi_comm.

(** The range [values.data() + first, values.data() + last). *)
Definition range (values : list (Value S)) (first last : Z) : list (Value S) :=
  take (Z.to_nat (last - first)) (drop (Z.to_nat first) values).

(** The body of the loop over the serial parts, for the parts [ks]. *)
Fixpoint save_parts (ks : list Z) (values : list (Value S)) (mpi_rank_ : Z)
    (n_serial_parts : Z) (local_boundaries : list Z)
    (local_bounding_boxes : list (IndexedSubtreeBox (Box S)))
  : M (World S) (list (IndexedSubtreeBox (Box S))) :=
  match ks with
  | [] => ret local_bounding_boxes
  | k :: ks' =>
      check_signals S ;;;
      subtree <- subtree_new S
                   (range values (local_boundaries !!! Z.to_nat k)
                                 (local_boundaries !!! Z.to_nat (k + 1))) ;;
      let k_part := size_t_add (size_t_mul mpi_rank_ n_serial_parts) k in
      save_subtree S subtree k_part ;;;
      save_parts ks' values mpi_rank_ n_serial_parts local_boundaries
        (local_bounding_boxes
           ++ [mkIndexedSubtreeBox k_part (subtree_size S subtree)
                                   (subtree_bounds S subtree)])
  end.

(** [IndexedSubtreeBox(k_part, subtree.size(), subtree.bounds())], for a
    subtree and the key it is saved under. *)
Definition box_of (entry : Subtree S * Z) : IndexedSubtreeBox (Box S) :=
  mkIndexedSubtreeBox (snd entry) (subtree_size S (fst entry))
                      (subtree_bounds S (fst entry)).

Definition too_few_elements : exception := runtime_error "Too few elements.".

(** What [distributed_partition] does once its guard has let the input
    through. *)
Definition distributed_partition_load (values : list (Value S))
    (str_params : TwoLevelSTRParams) (comm : Comm S)
  : M (World S) (list (Value S)) :=
  values <- distributed_sort_tile_recursion values (distributed str_params) comm ;;
  let n_points := Z.of_nat (length values) in
  let parts := n_parts_per_dim (local str_params) in
  values <- serial_sort_tile_recursion S values n_points parts ;;
  let mpi_rank_ := mpi_rank S comm in
  let n_serial_parts := n_parts S n_points parts in
  let local_boundaries := partition_boundaries S n_points parts in
  local_bounding_boxes <-
    save_parts (seqZ 0 n_serial_parts) values mpi_rank_ n_serial_parts
               local_boundaries [] ;;
  check_signals S ;;;
  bounding_boxes <- gather_bounding_boxes local_bounding_boxes comm ;;
  if mpi_rank_ =? 0 then
    top_level_tree <- toptree_new S bounding_boxes ;;
    save_top_tree S top_level_tree ;;;
    ret values
  else ret values.

(** [distributed_partition(storage, values, str_params, comm)]; the result is
    the final content of [values]. *)
Definition distributed_partition (values : list (Value S))
    (str_params : TwoLevelSTRParams) (comm : Comm S)
  : M (World S) (list (Value S)) :=
  if Z.of_nat (length values) <? size_t_mul 10 (mpi_size S comm)
  then throw too_few_elements
  else distributed_partition_load values str_params comm.

(** No call into the substrate ends in the exception [e]. *)
Definition substrate_never_raises (e : exception) : Prop :=
  ~ raises (check_signals S) e /\
  (forall vs c, ~ raises (sort_and_balance S vs c) e) /\
  (forall c x y, ~ raises (comm_split S c x y) e) /\
  (forall vs n ps, ~ raises (serial_sort_tile_recursion S vs n ps) e) /\
  (forall vs, ~ raises (subtree_new S vs) e) /\
  (forall t k, ~ raises (save_subtree S t k) e) /\
  (forall n c, ~ raises (gather_counts S n c) e) /\
  (forall n, safe_integer_cast_int S n <> inl e) /\
  (forall bs n r c, ~ raises (MPI_Gatherv S bs n r c) e) /\
  (forall bs, ~ raises (toptree_new S bs) e) /\
  (forall t, ~ raises (save_top_tree S t) e).

End Loader.

(** A substrate of a single rank that records the calls made into it: its
    world is the list of the names of the calls so far, the sorters leave
    their input as it is and there is one serial part. *)
Definition logged {A : Type} (call : string) (a : A) : M (list string) A :=
  fun w => (w ++ [call], inr a).

Definition single_rank_substrate : Substrate := {|
  World := list string;
  Comm := unit;
  Value := Z;
  Box := unit;
  Subtree := list Z;
  TopTree := list (IndexedSubtreeBox unit);
  mpi_size := fun _ => 1;
  mpi_rank := fun _ => 0;
  check_signals := logged "check_signals" tt;
  sort_and_balance := fun values _ => logged "sort_and_balance" values;
  comm_split := fun comm _ _ => logged "comm_split" comm;
  n_ranks_in_subslice := fun _ _ => 1;
  serial_sort_tile_recursion :=
    fun values _ _ => logged "serial_sort_tile_recursion" values;
  n_parts := fun _ _ => 1;
  partition_boundaries := fun n_points _ => [0; n_points];
  subtree_new := fun values => logged "subtree_type" values;
  subtree_size := fun subtree => Z.of_nat (length subtree);
  subtree_bounds := fun _ => tt;
  save_subtree := fun _ _ => logged "save_subtree" tt;
  gather_counts := fun n _ => logged "gather_counts" [n];
  offsets_from_counts := fun _ => [0];
  safe_integer_cast_int := fun n => inr n;
  MPI_Gatherv := fun boxes _ _ _ => logged "MPI_Gatherv" boxes;
  toptree_new := fun boxes => logged "toptree_type" boxes;
  save_top_tree := fun _ => logged "save_top_tree" tt
|}.

(** A substrate that keeps what is saved: its world is the list of the
    subtrees saved so far, each with the key it was saved under; a subtree
    is the list of its values, no call fails, and the rank and the size of
    the communicator are given. *)
Definition storing_substrate (rank size : Z) : Substrate := {|
  World := list (list Z * Z);
  Comm := unit;
  Value := Z;
  Box := unit;
  Subtree := list Z;
  TopTree := list (IndexedSubtreeBox unit);
  mpi_size := fun _ => size;
  mpi_rank := fun _ => rank;
  check_signals := ret tt;
  sort_and_balance := fun values _ => ret values;
  comm_split := fun comm _ _ => ret comm;
  n_ranks_in_subslice := fun _ _ => 1;
  serial_sort_tile_recursion := fun values _ _ => ret values;
  n_parts := fun _ _ => 1;
  partition_boundaries := fun n_points _ => [0; n_points];
  subtree_new := fun values => ret values;
  subtree_size := fun subtree => Z.of_nat (length subtree);
  subtree_bounds := fun _ => tt;
  save_subtree := fun subtree k_part => fun w => (w ++ [(subtree, k_part)], inr tt);
  gather_counts := fun n _ => ret [n];
  offsets_from_counts := fun _ => [0];
  safe_integer_cast_int := fun n => inr n;
  MPI_Gatherv := fun boxes _ _ _ => ret boxes;
  toptree_new := fun boxes => ret boxes;
  save_top_tree := fun _ => ret tt
|}.

End STR.

(** ** index.hpp: serialisation of ids and indexed shapes *)

Module Serialization.
Local Open Scope Z_scope.
Local Open Scope eff_scope.

(** [#define SPATIAL_INDEX_STRUCT_VERSION 2] *)
Definition SPATIAL_INDEX_STRUCT_VERSION : Z := 2.

Definition future_format : exception :=
  runtime_error "File format is in a future format. Please update Spatial Index.".

Section WithArchive.
(** The archive is the world.  [ar & x] on an integer member is [ar_int x]:
    a saving archive writes [x] and leaves it, a loading archive returns the
    value it reads in its place. *)
Variable Archive : Type.
Variable ar_int : Z -> M Archive Z.

(** [ShapeId::serialize]: [ar & this->id;] *)
Definition ShapeId_serialize (this : Ident.ShapeId) : M Archive Ident.ShapeId :=
  id <- ar_int (Ident.id this) ;;
  ret (Ident.mkShapeId id).

(** [SynapseId::serialize]: [ar & this->id; ar & post_gid_; ar & pre_gid_;] *)
Definition SynapseId_serialize (this : Ident.SynapseId) : M Archive Ident.SynapseId :=
  id <- ar_int (Ident.id (Ident.syn_shape this)) ;;
  post_gid_ <- ar_int (Ident.post_gid_ this) ;;
  pre_gid_ <- ar_int (Ident.pre_gid_ this) ;;
  ret (Ident.mkSynapseId (Ident.mkShapeId id) post_gid_ pre_gid_).

(** [SubtreeId::serialize]: [ar & id; ar & n_elements;] *)
Definition SubtreeId_serialize (this : Z * Z) : M Archive (Z * Z) :=
  id <- ar_int (fst this) ;;
  n_elements <- ar_int (snd this) ;;
  ret (id, n_elements).

(** [IndexedShape<ShapeT, IndexT>::serialize(ar, version)].  The object is
    its two bases; [ar & base_object<B>] on the object itself runs the serialisation of
    the base [B]. *)
Variables IndexT ShapeT : Type.
Variable serialize_IndexT : IndexT -> M Archive IndexT.
Variable serialize_ShapeT : ShapeT -> M Archive ShapeT.

Definition IndexedShape_serialize (this : IndexT * ShapeT) (version : Z)
  : M Archive (IndexT * ShapeT) :=
  if version >? SPATIAL_INDEX_STRUCT_VERSION then throw future_format
  else
    index <- serialize_IndexT (fst this) ;;
    shape <- serialize_ShapeT (snd this) ;;
    ret (index, shape).

End WithArchive.

(** A loading archive over a list of integers: [ar & x] takes the next one,
    and fails with an [archive_exception] at the end of the input. *)
Definition load_int (x : Z) : M (list Z) Z :=
  fun ar =>
    match ar with
    | [] => (ar, inl (archive_exception "input stream error"))
    | y :: ar' => (ar', inr y)
    end.

End Serialization.

(** ** The exact reading of CoordType: real numbers *)

Definition Reqb (x y : R) : bool := if Req_dec_T x y then true else false.
Definition Rltb (x y : R) : bool := if Rlt_dec x y then true else false.
Definition Rleb (x y : R) : bool := if Rle_dec x y then true else false.

(** Every operation is the exact one.  The two literals are the decimal
    numbers they are written as, and [epsilon] is that of [float], the
    default [CoordType].  A quotient by zero, an infinity or a NaN on the
    machine, is some real number here; no statement below depends on its
    value. *)
#[export] Instance Rcoord : CoordType R := {|
  of_Z := IZR;
  cadd := Rplus;
  csub := Rminus;
  cmul := Rmult;
  cdiv := Rdiv;
  copp := Ropp;
  csqrt := R_sqrt.sqrt;
  cabs := Rabs;
  cfloor := Int_part;
  ceqb := Reqb;
  cltb := Rltb;
  cleb := Rleb;
  lit_1e_8f := (/ 100000000)%R;
  lit_1e_6 := (/ 1000000)%R;
  epsilon := (/ 8388608)%R
|}.

(** Notions over the real numbers that the statements use: the order of
    points coordinate by coordinate, the point of a segment at a parameter,
    and the ceiling of a real number. *)
Definition coordinatewise_le (a b : Point3D R) : Prop :=
  (get0 a <= get0 b /\ get1 a <= get1 b /\ get2 a <= get2 b)%R.

Definition point_at (base dir : Point3D R) (t : R) : Point3D R :=
  mkPoint3D (get0 base + t * get0 dir)%R (get1 base + t * get1 dir)%R
            (get2 base + t * get2 dir)%R.

(** A point [y] seen from the line through [a] with direction [v]: its
    parameter along the line and its offset from the line. *)
Definition axial (a v y : Point3D R) : R :=
  (Point3Dx.dot (Point3Dx.sub y a) v / Point3Dx.dot v v)%R.

Definition radial (a v y : Point3D R) : Point3D R :=
  Point3Dx.sub y (point_at a v (axial a v y)).

(** The solid cylinder with flat caps about the axis and with the radius of
    [c], as a set of points: [y] belongs to it when some point of the axis
    segment lies straight below it ([y] minus that point is orthogonal to
    the axis), no further away than the radius. *)
Definition solid_cylinder (c : Cylinder.t R) (y : Point3D R) : Prop :=
  exists t : R,
    (0 <= t <= 1)%R /\
    Point3Dx.dot
      (Point3Dx.sub y (point_at (Cylinder.p1 c)
                                (Point3Dx.sub (Cylinder.p2 c) (Cylinder.p1 c)) t))
      (Point3Dx.sub (Cylinder.p2 c) (Cylinder.p1 c)) = 0%R /\
    (Point3Dx.dist_sq
       y (point_at (Cylinder.p1 c) (Point3Dx.sub (Cylinder.p2 c) (Cylinder.p1 c)) t)
     <= Cylinder.radius c * Cylinder.radius c)%R.

(** ** CoordType as IEEE 754 binary64: the double-precision build *)

Module Double.
Import Floats.

(** [int(std::floor(x))] of a finite [x]; the conversion of an infinity or
    of a NaN is undefined, and is given the value 0 here. *)
Definition floor_Z (x : float) : Z :=
  match Prim2SF x with
  | S754_finite s m e =>
      let n := if s then Zneg m else Zpos m in
      if (0 <=? e)%Z then (n * 2 ^ e)%Z else (n / 2 ^ (- e))%Z
  | _ => 0%Z
  end.

(** An integer constant as a double. *)
Definition double_of_Z (z : Z) : float :=
  match z with
  | Z0 => 0%float
  | Zpos _ => PrimFloat.of_uint63 (Uint63.of_Z z)
  | Zneg p => PrimFloat.opp (PrimFloat.of_uint63 (Uint63.of_Z (Zpos p)))
  end.

(** The operations are those of the machine.  [1e-8f] is the float nearest
    to 1e-8, widened; [1e-6] is the double nearest to 1e-6. *)
#[global] Instance Doublecoord : CoordType float := {|
  of_Z := double_of_Z;
  cadd := PrimFloat.add;
  csub := PrimFloat.sub;
  cmul := PrimFloat.mul;
  cdiv := PrimFloat.div;
  copp := PrimFloat.opp;
  csqrt := PrimFloat.sqrt;
  cabs := PrimFloat.abs;
  cfloor := floor_Z;
  ceqb := PrimFloat.eqb;
  cltb := PrimFloat.ltb;
  cleb := PrimFloat.leb;
  lit_1e_8f := 0x1.5798eep-27%float;
  lit_1e_6 := 0x1.0c6f7a0b5ed8dp-20%float;
  epsilon := 0x1p-52%float
|}.

End Double.

(* ===================================================================== *)
(** * Part II. Properties                                                 *)
(* ===================================================================== *)

Module IdentFacts.
Import Ident.
Local Open Scope Z_scope.

Lemma mask_bits_64_ones n : 0 <= n < 64 -> mask_bits identifier_bits n = Z.ones n.
Proof.
  intros Hn. unfold mask_bits, shl, wrap, identifier_bits.
  rewrite Z.shiftl_1_l, Z.ones_equiv.
  assert (0 < 2 ^ n < 2 ^ 64) by (split; [lia | apply Z.pow_lt_mono_r; lia]).
  rewrite (Z.mod_small (2 ^ n)) by lia.
  rewrite Z.mod_small by lia. lia.
Qed.

Lemma land_shl_ones x n k :
  0 <= n -> 0 <= k ->
  Z.land x (Z.shiftl (Z.ones n) k) = ((x / 2 ^ k) mod 2 ^ n) * 2 ^ k.
Proof.
  intros Hn Hk.
  rewrite <- Z.shiftr_div_pow2, <- Z.land_ones, <- Z.shiftl_mul_pow2 by lia.
  apply Z.bits_inj'. intros i Hi.
  rewrite Z.land_spec.
  destruct (Z.lt_ge_cases i k) as [Hlt | Hge].
  - rewrite !Z.shiftl_spec_low by lia. apply andb_false_r.
  - rewrite !Z.shiftl_spec by lia.
    rewrite Z.land_spec, Z.shiftr_spec by lia.
    replace (i - k + k) with i by lia. reflexivity.
Qed.

(** The three complemented masks, as shifted runs of ones. *)
Lemma gid_guard_mask :
  bnot identifier_bits (mask_bits identifier_bits N_GID_BITS)
  = Z.shiftl (Z.ones 28) 36.
Proof. reflexivity. Qed.

Lemma section_guard_mask :
  bnot unsigned_bits (mask_bits unsigned_bits N_SECTION_BITS)
  = Z.shiftl (Z.ones 18) 14.
Proof. reflexivity. Qed.

Lemma segment_guard_mask :
  bnot unsigned_bits (mask_bits unsigned_bits N_SEGMENT_BITS)
  = Z.shiftl (Z.ones 18) 14.
Proof. reflexivity. Qed.

Lemma is_gid_safe_iff g :
  is_identifier_t g -> (is_gid_safe g = true <-> g < 2 ^ N_GID_BITS).
Proof.
  unfold is_identifier_t, is_gid_safe. intros Hg.
  rewrite gid_guard_mask, land_shl_ones by lia.
  change identifier_bits with 64 in Hg. change N_GID_BITS with 36.
  rewrite Z.eqb_eq.
  change (2 ^ 64) with 18446744073709551616 in Hg.
  change (2 ^ 36) with 68719476736. change (2 ^ 28) with 268435456.
  split; intros H; Z.div_mod_to_equations; lia.
Qed.

Lemma unsigned_guard_iff x :
  is_unsigned x ->
  (Z.land x (Z.shiftl (Z.ones 18) 14) =? 0) = true <-> x < 2 ^ 14.
Proof.
  unfold is_unsigned. intros Hx. rewrite land_shl_ones by lia.
  change unsigned_bits with 32 in Hx. rewrite Z.eqb_eq.
  change (2 ^ 32) with 4294967296 in Hx.
  change (2 ^ 14) with 16384. change (2 ^ 18) with 262144.
  split; intros H; Z.div_mod_to_equations; lia.
Qed.

Lemma is_section_id_safe_iff s :
  is_unsigned s -> (is_section_id_safe s = true <-> s < 2 ^ N_SECTION_BITS).
Proof.
  intros Hs. unfold is_section_id_safe. rewrite section_guard_mask.
  now apply unsigned_guard_iff.
Qed.

Lemma is_segment_id_safe_iff t :
  is_unsigned t -> (is_segment_id_safe t = true <-> t < 2 ^ N_SEGMENT_BITS).
Proof.
  intros Ht. unfold is_segment_id_safe. rewrite segment_guard_mask.
  now apply unsigned_guard_iff.
Qed.

(** Within the field widths nothing wraps: the packed id is the plain sum. *)
Lemma packed_id_in_range g s t :
  0 <= g < 2 ^ N_GID_BITS -> 0 <= s < 2 ^ N_SECTION_BITS ->
  0 <= t < 2 ^ N_SEGMENT_BITS ->
  packed_id g s t = g * 2 ^ 28 + s * 2 ^ 14 + t.
Proof.
  change N_GID_BITS with 36. change N_SECTION_BITS with 14.
  change N_SEGMENT_BITS with 14.
  change (2 ^ 36) with 68719476736. change (2 ^ 14) with 16384.
  change (2 ^ 28) with 268435456.
  intros Hg Hs Ht.
  unfold packed_id, uadd, shl, wrap.
  change N_TOTAL_BITS with 28. change N_SEGMENT_BITS with 14.
  change identifier_bits with 64. change unsigned_bits with 32.
  rewrite !Z.shiftl_mul_pow2 by lia.
  change (2 ^ 64) with 18446744073709551616.
  change (2 ^ 32) with 4294967296. change (2 ^ 14) with 16384.
  change (2 ^ 28) with 268435456.
  rewrite (Z.mod_small (g * _)) by lia.
  rewrite (Z.mod_small (s * _)) by lia.
  rewrite (Z.mod_small (_ + s * _)) by lia.
  rewrite Z.mod_small by lia. reflexivity.
Qed.

Lemma gid_packed g s t :
  0 <= g < 2 ^ N_GID_BITS -> 0 <= s < 2 ^ N_SECTION_BITS ->
  0 <= t < 2 ^ N_SEGMENT_BITS ->
  gid (mkMorphPartId (mkShapeId (packed_id g s t))) = g.
Proof.
  intros Hg Hs Ht. unfold gid. cbn [part_shape id].
  rewrite packed_id_in_range by assumption.
  change N_GID_BITS with 36 in Hg. change N_SECTION_BITS with 14 in Hs.
  change N_SEGMENT_BITS with 14 in Ht. change N_TOTAL_BITS with 28.
  rewrite Z.shiftr_div_pow2 by lia.
  change (2 ^ 36) with 68719476736 in Hg. change (2 ^ 14) with 16384 in *.
  change (2 ^ 28) with 268435456.
  Z.div_mod_to_equations; lia.
Qed.

Lemma segment_id_packed g s t :
  0 <= g < 2 ^ N_GID_BITS -> 0 <= s < 2 ^ N_SECTION_BITS ->
  0 <= t < 2 ^ N_SEGMENT_BITS ->
  segment_id (mkMorphPartId (mkShapeId (packed_id g s t))) = t.
Proof.
  intros Hg Hs Ht. unfold segment_id, integer_cast_unsigned, wrap.
  cbn [part_shape id].
  rewrite packed_id_in_range by assumption.
  unfold MASK_SEGMENT_BITS. rewrite mask_bits_64_ones by (cbv; intuition congruence).
  change N_GID_BITS with 36 in Hg. change N_SECTION_BITS with 14 in Hs.
  change N_SEGMENT_BITS with 14 in *.
  rewrite Z.land_ones by lia. change unsigned_bits with 32.
  change (2 ^ 36) with 68719476736 in Hg. change (2 ^ 14) with 16384 in *.
  change (2 ^ 28) with 268435456. change (2 ^ 32) with 4294967296.
  Z.div_mod_to_equations; lia.
Qed.

Lemma section_id_packed g s t :
  0 <= g < 2 ^ N_GID_BITS -> 0 <= s < 2 ^ N_SECTION_BITS ->
  0 <= t < 2 ^ N_SEGMENT_BITS ->
  section_id (mkMorphPartId (mkShapeId (packed_id g s t))) = s.
Proof.
  intros Hg Hs Ht. unfold section_id, integer_cast_unsigned, wrap.
  cbn [part_shape id].
  rewrite packed_id_in_range by assumption.
  replace MASK_SECTION_BITS with (Z.shiftl (Z.ones 14) 14) by reflexivity.
  rewrite land_shl_ones by lia.
  change N_GID_BITS with 36 in Hg. change N_SECTION_BITS with 14 in Hs.
  change N_SEGMENT_BITS with 14 in *.
  rewrite Z.shiftr_div_pow2 by lia. change unsigned_bits with 32.
  change (2 ^ 36) with 68719476736 in Hg. change (2 ^ 14) with 16384 in *.
  change (2 ^ 28) with 268435456. change (2 ^ 32) with 4294967296.
  Z.div_mod_to_equations; lia.
Qed.

(** C1. A triple within the field widths (gid < 2^36, section_id < 2^14,
    segment_id < 2^14) constructs a [MorphPartId] whose accessors give the
    triple back; a triple with a component at or above its bound makes the
    constructor throw one of the invalid-identifier errors, and no object
    results. *)
Theorem MorphPartId_new_round_trip_or_error (g s t : Z) :
  is_identifier_t g -> is_unsigned s -> is_unsigned t ->
  (g < 2 ^ N_GID_BITS /\ s < 2 ^ N_SECTION_BITS /\ t < 2 ^ N_SEGMENT_BITS ->
   exists m, snd (MorphPartId_new g s t) = inr m /\
             gid m = g /\ section_id m = s /\ segment_id m = t)
  /\
  (2 ^ N_GID_BITS <= g \/ 2 ^ N_SECTION_BITS <= s \/ 2 ^ N_SEGMENT_BITS <= t ->
   exists e, snd (MorphPartId_new g s t) = inl e /\ InvalidIdentifier e).
Proof.
  intros Hg Hs Ht.
  pose proof (is_gid_safe_iff g Hg) as Eg.
  pose proof (is_section_id_safe_iff s Hs) as Es.
  pose proof (is_segment_id_safe_iff t Ht) as Et.
  unfold MorphPartId_new. split.
  - intros (Bg & Bs & Bt).
    rewrite (proj2 Eg Bg), (proj2 Es Bs), (proj2 Et Bt). cbn.
    eexists. split; [reflexivity|].
    unfold is_identifier_t, is_unsigned in *.
    repeat split;
      [apply gid_packed | apply section_id_packed | apply segment_id_packed];
      lia.
  - intros Hbad. unfold InvalidIdentifier.
    destruct (is_gid_safe g) eqn:Sg; cbn.
    + destruct (is_section_id_safe s) eqn:Ss; cbn.
      * destruct (is_segment_id_safe t) eqn:St; cbn.
        -- exfalso. pose proof (proj1 Eg eq_refl). pose proof (proj1 Es eq_refl).
           pose proof (proj1 Et eq_refl). lia.
        -- eexists; split; [reflexivity | auto].
      * eexists; split; [reflexivity | auto].
    + eexists; split; [reflexivity | auto].
Qed.

(** The triple (5, 3, 7) round-trips; the gid 2^36 is refused. *)
Lemma MorphPartId_new_round_trip_witness :
  (exists m, snd (MorphPartId_new 5 3 7) = inr m /\
             gid m = 5 /\ section_id m = 3 /\ segment_id m = 7)
  /\
  (exists e, snd (MorphPartId_new (2 ^ 36) 3 7) = inl e /\ InvalidIdentifier e).
Proof.
  split.
  - apply (MorphPartId_new_round_trip_or_error 5 3 7);
      unfold is_identifier_t, is_unsigned; vm_compute; intuition congruence.
  - apply (MorphPartId_new_round_trip_or_error (2 ^ 36) 3 7);
      unfold is_identifier_t, is_unsigned; vm_compute; intuition congruence.
Defined.

Example MorphPartId_new_too_large_gid :
  MorphPartId_new (2 ^ 36) 3 7
  = ([too_large_message], inl (runtime_error "Invalid gid.")).
Proof. reflexivity. Qed.

Example MorphPartId_new_too_large_segment_id :
  MorphPartId_new 5 3 (2 ^ 14)
  = ([too_large_message], inl (runtime_error "Invalid segment_id.")).
Proof. reflexivity. Qed.

Example packed_id_5_3_7 : packed_id 5 3 7 = 5 * 2 ^ 28 + 3 * 2 ^ 14 + 7.
Proof. reflexivity. Qed.

(** C10. A [SynapseId] built from the id alone has both gids zero, whatever
    the id; the constructor is total. *)
Theorem SynapseId_new_default_gids (syn_id : Z) :
  post_gid (SynapseId_new syn_id None None) = 0 /\
  pre_gid (SynapseId_new syn_id None None) = 0 /\
  id (syn_shape (SynapseId_new syn_id None None)) = syn_id.
Proof. repeat split. Qed.

End IdentFacts.

(** ** The geometry kernel in exact arithmetic *)

Module RFacts.
Local Open Scope R_scope.

Lemma Rltb_iff x y : Rltb x y = true <-> x < y.
Proof. unfold Rltb. destruct (Rlt_dec x y); split; intros; try lra; try discriminate; reflexivity. Qed.

Lemma Rleb_iff x y : Rleb x y = true <-> x <= y.
Proof. unfold Rleb. destruct (Rle_dec x y); split; intros; try lra; try discriminate; reflexivity. Qed.

Lemma Reqb_iff x y : Reqb x y = true <-> x = y.
Proof. unfold Reqb. destruct (Req_dec_T x y); split; intros; try lra; try discriminate; reflexivity. Qed.

Lemma Rltb_true x y : x < y -> Rltb x y = true.
Proof. apply Rltb_iff. Qed.

Lemma Rltb_false x y : y <= x -> Rltb x y = false.
Proof.
  intros H. destruct (Rltb x y) eqn:E; [|reflexivity].
  apply Rltb_iff in E. lra.
Qed.

Lemma Rleb_true x y : x <= y -> Rleb x y = true.
Proof. apply Rleb_iff. Qed.

Lemma Rleb_false x y : y < x -> Rleb x y = false.
Proof.
  intros H. destruct (Rleb x y) eqn:E; [|reflexivity].
  apply Rleb_iff in E. lra.
Qed.

Lemma Reqb_true x y : x = y -> Reqb x y = true.
Proof. apply Reqb_iff. Qed.

Lemma Reqb_false x y : x <> y -> Reqb x y = false.
Proof.
  intros H. destruct (Reqb x y) eqn:E; [|reflexivity].
  apply Reqb_iff in E. contradiction.
Qed.

(** The floor of a real number lying in [z, z + 1). *)
Lemma Int_part_between r z : IZR z <= r < IZR z + 1 -> Int_part r = z.
Proof.
  intros [Hlo Hhi]. unfold Int_part.
  assert (Hup : (z + 1)%Z = up r).
  { apply tech_up; rewrite plus_IZR; simpl; lra. }
  lia.
Qed.

(** A square root is below a non-negative bound exactly when its argument is
    below the square of the bound. *)
Lemma sqrt_le_iff a r : 0 <= a -> 0 <= r -> (R_sqrt.sqrt a <= r <-> a <= r * r).
Proof.
  intros Ha Hr. split; intros H.
  - rewrite <- (sqrt_sqrt a Ha).
    pose proof (sqrt_pos a). nra.
  - rewrite <- (sqrt_square r Hr). now apply sqrt_le_1_alt.
Qed.

Lemma sqrt_eq_0 e : e = 0 -> R_sqrt.sqrt e = 0.
Proof. intros ->. apply sqrt_0. Qed.

Lemma sqrt_eq_1 e : e = 1 -> R_sqrt.sqrt e = 1.
Proof. intros ->. apply sqrt_1. Qed.

End RFacts.

(** Reduces the record projections and the operations of [Rcoord], and
    nothing else: the real numbers themselves are left alone. *)
Ltac Rcoord_simpl :=
  cbn [get0 get1 get2 min_corner max_corner
       Sphere.centroid Sphere.radius Cylinder.p1 Cylinder.p2 Cylinder.radius
       of_Z cadd csub cmul cdiv copp csqrt cabs cfloor ceqb cltb cleb
       lit_1e_8f lit_1e_6 epsilon Rcoord fst snd].

(** Runs the kernel on given points: unfolds the functions of the embedding
    and the operations of [Rcoord], call by value, down to expressions over
    the real numbers. *)
Ltac kernel_eval :=
  cbv beta iota zeta delta
    [Point3Dx.add_point Point3Dx.subtract_point Point3Dx.multiply_point
     Point3Dx.add_value Point3Dx.subtract_value Point3Dx.multiply_value
     Point3Dx.divide_value Point3Dx.add Point3Dx.sub Point3Dx.mul
     Point3Dx.add_val Point3Dx.sub_val Point3Dx.mul_val Point3Dx.div_val
     Point3Dx.dot Point3Dx.sqrt Point3Dx.dist_sq Point3Dx.norm_sq
     Point3Dx.norm Point3Dx.eq Point3Dx.val_add Point3Dx.val_sub
     Point3Dx.val_mul Point3Dx.pt_add Point3Dx.pt_sub Point3Dx.std_max
     Point3Dx.std_min Point3Dx.max Point3Dx.min Point3D_eq
     Geometry.distance_segment_segment Geometry.clamp
     Geometry.project_point_onto_segment Geometry.Sphere_intersects_Cylinder
     Geometry.Sphere_contains Geometry.Cylinder_intersects_Cylinder
     Geometry.Cylinder_contains_test Geometry.Sphere_bounding_box
     Geometry.Cylinder_bounding_box
     Geometry.v_dot_u Geometry.v_dot_v Geometry.closer_cap Geometry.axis_foot
     Geometry.axis_offset Geometry.closest_points_interior
     Grid.point2voxel Grid.bounding_box Segment.shape Soma.shape
     get0 get1 get2 min_corner max_corner
     Sphere.centroid Sphere.radius Cylinder.p1 Cylinder.p2 Cylinder.radius
     of_Z cadd csub cmul cdiv copp csqrt cabs cfloor ceqb cltb cleb
     lit_1e_8f lit_1e_6 epsilon Rcoord fst snd andb orb negb].

(** Decides, in the goal, the comparisons between real numbers that linear
    arithmetic settles. *)
Ltac Rdecide :=
  repeat match goal with
  | |- context [Rltb ?x ?y] =>
      first [ rewrite (RFacts.Rltb_true x y) by lra
            | rewrite (RFacts.Rltb_false x y) by lra ]
  | |- context [Rleb ?x ?y] =>
      first [ rewrite (RFacts.Rleb_true x y) by lra
            | rewrite (RFacts.Rleb_false x y) by lra ]
  | |- context [Reqb ?x ?y] =>
      first [ rewrite (RFacts.Reqb_true x y) by lra
            | rewrite (RFacts.Reqb_false x y) by lra ]
  end.

Module PointFacts.
Import Point3Dx.
Local Open Scope R_scope.

Lemma norm_sq_nonneg (p : Point3D R) : 0 <= norm_sq p.
Proof. unfold norm_sq. cbn. nra. Qed.

Lemma dist_sq_norm_sq (p q : Point3D R) : dist_sq p q = norm_sq (sub p q).
Proof. reflexivity. Qed.

(** The free [operator-] and the member one give the same point. *)
Lemma pt_sub_sub (v point : Point3D R) : pt_sub v point = sub v point.
Proof.
  unfold pt_sub, sub, add, mul_val, add_point, subtract_point, multiply_value.
  cbn. f_equal; ring.
Qed.

Lemma dist_sq_sym (p q : Point3D R) : dist_sq p q = dist_sq q p.
Proof. unfold dist_sq, dot, sub, subtract_point. cbn. ring. Qed.

(** C8, as amended.  [p == q] holds exactly when the squared distance of the
    two points is zero or below 1e-8 times the squared norm of the left
    operand [p]; the test is reflexive. *)
Theorem Point3D_eq_relative_to_left_operand (p q : Point3D R) :
  (Point3D_eq p q = true <->
     dist_sq p q = 0 \/ dist_sq p q < norm_sq p * lit_1e_8f)
  /\ Point3D_eq p p = true.
Proof.
  split.
  - unfold Point3D_eq, eq. cbn [ceqb cltb cmul of_Z Rcoord lit_1e_8f].
    destruct (Reqb (dist_sq p q) 0) eqn:E.
    + apply RFacts.Reqb_iff in E. tauto.
    + rewrite RFacts.Rltb_iff. split; [tauto|]. intros [H|H]; [|exact H].
      apply RFacts.Reqb_iff in H. congruence.
  - unfold Point3D_eq, eq. cbn [ceqb cltb cmul of_Z Rcoord lit_1e_8f].
    rewrite RFacts.Reqb_true; [reflexivity|].
    unfold dist_sq, dot, sub, subtract_point. cbn. ring.
Qed.

(** C8, as stated, fails: with p = (9999.5, 0, 0) and q = (10000.5, 0, 0) the
    squared distance is 1, which is not below |p|^2 * 1e-8 = 0.99990000...
    but is below |q|^2 * 1e-8 = 1.00010000...; so [q == p] and not
    [p == q]. *)
Lemma Point3D_eq_not_symmetric :
  Point3D_eq (mkPoint3D (19999 / 2) 0 0) (mkPoint3D (20001 / 2) 0 0) = false /\
  Point3D_eq (mkPoint3D (20001 / 2) 0 0) (mkPoint3D (19999 / 2) 0 0) = true.
Proof.
  unfold Point3D_eq, eq, dist_sq, norm_sq, dot, sub, subtract_point.
  cbn. split; Rdecide; reflexivity.
Qed.

End PointFacts.

Module GeometryFacts.
Import Point3Dx Geometry.
Local Open Scope R_scope.

Lemma dot_comm (p q : Point3D R) : dot p q = dot q p.
Proof. unfold dot. cbn. ring. Qed.

(** A local declared [auto] holds the difference itself: the copy is taken
    while the temporary lives. *)
Lemma auto_copy_sub_rvalue (a b : Point3D R) :
  Lifetime.auto_copy (Lifetime.sub_rvalue a b) = Lifetime.defined (sub a b).
Proof. reflexivity. Qed.

(** The test that [Cylinder::contains] is written to make, on the two
    differences themselves, accepts only points at which the sphere of
    radius 0 intersects the cylinder: it accepts when the projection lies
    in [0, |axis|^2], the first branch of [Sphere::intersects(Cylinder)],
    and both then compare the same squared distance with the square of the
    radius. *)
Lemma Cylinder_contains_test_intersects (c : Cylinder.t R) (p : Point3D R) :
  Cylinder_contains_test (Cylinder.radius c)
                         (sub (Cylinder.p2 c) (Cylinder.p1 c))
                         (sub p (Cylinder.p1 c)) = true ->
  Sphere_intersects_Cylinder (Sphere.mk p 0%coord) c = true.
Proof.
  unfold Cylinder_contains_test, Sphere_intersects_Cylinder.
  cbn [Sphere.centroid Sphere.radius].
  set (v := sub (Cylinder.p2 c) (Cylinder.p1 c)).
  set (u := sub p (Cylinder.p1 c)).
  rewrite (dot_comm u v).
  cbn [cltb cleb csub cmul cdiv cadd of_Z Rcoord].
  destruct (Rltb (dot v u) 0) eqn:Elo; [discriminate|].
  destruct (Rltb (norm_sq v) (dot v u)) eqn:Ehi; [discriminate|].
  cbn [orb]. intros H.
  rewrite (RFacts.Rleb_true 0 (dot v u)).
  2:{ destruct (Rle_dec 0 (dot v u)) as [|N]; [assumption|].
      rewrite RFacts.Rltb_true in Elo by lra. discriminate. }
  rewrite (RFacts.Rleb_true (dot v u) (norm_sq v)).
  2:{ destruct (Rle_dec (dot v u) (norm_sq v)) as [|N]; [assumption|].
      rewrite RFacts.Rltb_true in Ehi by lra. discriminate. }
  cbn [andb]. apply RFacts.Rleb_iff in H. apply RFacts.Rleb_iff. lra.
Qed.


(** The point (1, 1, 0) lies in the cylinder of radius 2 about the segment
    from the origin to (4, 0, 0): the test on the two differences accepts
    it, and the call itself has no defined answer. *)
Example Cylinder_contains_point_inside :
  let c := Cylinder.mk (mkPoint3D 0 0 0) (mkPoint3D 4 0 0) 2 in
  let p := mkPoint3D 1 1 0 in
  Cylinder_contains c p = Lifetime.undefined /\
  Cylinder_contains_test (Cylinder.radius c)
                         (sub (Cylinder.p2 c) (Cylinder.p1 c))
                         (sub p (Cylinder.p1 c)) = true /\
  Sphere_intersects_Cylinder (Sphere.mk p 0%coord) c = true.
Proof.
  intros c p.
  assert (T : Cylinder_contains_test (Cylinder.radius c)
                (sub (Cylinder.p2 c) (Cylinder.p1 c))
                (sub p (Cylinder.p1 c)) = true).
  { unfold c, p. kernel_eval. Rdecide. cbn [orb]. Rdecide. reflexivity. }
  split; [reflexivity|]. split; [exact T|].
  now apply Cylinder_contains_test_intersects.
Qed.

(** C4. In [Sphere::intersects(Cylinder)], when the axial projection
    [v_dot_u] lies outside [0, v_dot_v], the quick rejection does not fire
    and the offset [d] of the centre from the axis has norm below
    100 * epsilon, the answer is the comparison of the centre with the centre
    of the closer cap: the projection onto the cap diameter, and with it the
    division by the norm of [d], plays no part.  For a radius that is not
    negative the sphere is accepted exactly when the distance of its centre
    to the cap centre is at most its radius. *)
Theorem Sphere_intersects_Cylinder_centre_on_axis (s : Sphere.t R) (c : Cylinder.t R) :
  v_dot_u s c < 0 \/ v_dot_v c < v_dot_u s c ->
  norm_sq (pt_sub (Sphere.centroid s) (closer_cap s c))
    <= (Sphere.radius s + Cylinder.radius c) * (Sphere.radius s + Cylinder.radius c) ->
  norm (axis_offset s c) < 100 * epsilon ->
  Sphere_intersects_Cylinder s c
    = Rleb (norm_sq (pt_sub (Sphere.centroid s) (closer_cap s c)))
           (Sphere.radius s * Sphere.radius s)
  /\ (0 <= Sphere.radius s ->
      (Sphere_intersects_Cylinder s c = true <->
       norm (pt_sub (Sphere.centroid s) (closer_cap s c)) <= Sphere.radius s)).
Proof.
  intros Hout Hquick Haxis.
  assert (E : Sphere_intersects_Cylinder s c
              = Rleb (norm_sq (pt_sub (Sphere.centroid s) (closer_cap s c)))
                     (Sphere.radius s * Sphere.radius s)).
  { unfold Sphere_intersects_Cylinder.
    unfold axis_offset, axis_foot, closer_cap, v_dot_u, v_dot_v in *.
    set (v := sub (Cylinder.p2 c) (Cylinder.p1 c)) in *.
    set (u := sub (Sphere.centroid s) (Cylinder.p1 c)) in *.
    cbn [cltb cleb csub cmul cdiv cadd of_Z epsilon Rcoord] in *.
    set (cap := if Rltb (dot v u) 0 then Cylinder.p1 c else Cylinder.p2 c) in *.
    replace (Rleb 0 (dot v u) && Rleb (dot v u) (norm_sq v)) with false.
    2:{ symmetry. apply andb_false_iff. destruct Hout as [H|H].
        - left. now apply RFacts.Rleb_false.
        - right. now apply RFacts.Rleb_false. }
    rewrite RFacts.Rltb_false by exact Hquick.
    rewrite RFacts.Rltb_true by exact Haxis.
    reflexivity. }
  split; [exact E|].
  intros Hr. rewrite E, RFacts.Rleb_iff. unfold norm. cbn [csqrt Rcoord].
  symmetry. apply RFacts.sqrt_le_iff; [apply PointFacts.norm_sq_nonneg | exact Hr].
Qed.

(** A sphere of radius 1 centred at (2, 0, 0), on the axis of the cylinder
    from (0, 0, 0) to (1, 0, 0) of radius 1 and beyond its second cap. *)
Lemma Sphere_intersects_Cylinder_centre_on_axis_witness :
  Sphere_intersects_Cylinder
    (Sphere.mk (mkPoint3D 2 0 0) 1)
    (Cylinder.mk (mkPoint3D 0 0 0) (mkPoint3D 1 0 0) 1) = true.
Proof.
  pose (s := Sphere.mk (mkPoint3D 2 0 0) 1).
  pose (c := Cylinder.mk (mkPoint3D 0 0 0) (mkPoint3D 1 0 0) 1).
  assert (Hcap : closer_cap s c = mkPoint3D 1 0 0).
  { unfold closer_cap, v_dot_u, dot, sub, subtract_point, s, c. cbn.
    Rdecide. reflexivity. }
  assert (Hd : norm (axis_offset s c) = 0).
  { unfold norm, axis_offset, axis_foot, v_dot_u, v_dot_v, norm_sq, dot,
      pt_sub, pt_add, val_mul, add, mul_val, sub, add_point, subtract_point,
      multiply_value, s, c.
    cbn.
    match goal with
    | |- R_sqrt.sqrt ?e = _ => replace e with 0 by (field; lra)
    end.
    apply sqrt_0. }
  assert (Hn : norm_sq (pt_sub (Sphere.centroid s) (closer_cap s c)) = 1).
  { rewrite Hcap.
    unfold norm_sq, pt_sub, add, mul_val, add_point, multiply_value, s.
    cbn. ring. }
  destruct (Sphere_intersects_Cylinder_centre_on_axis s c) as [E _].
  - right. unfold v_dot_u, v_dot_v, norm_sq, dot, sub, subtract_point, s, c.
    cbn. lra.
  - rewrite Hn. unfold s, c. cbn. lra.
  - rewrite Hd. cbn. lra.
  - fold s c. rewrite E, Hn. unfold s. cbn. apply RFacts.Rleb_true. lra.
Defined.

(** *** Cylinder against cylinder *)

(** When no guard fires, [distance_segment_segment] is the distance of the
    closest points of the two lines, at the parameters [sN / D] and
    [tN / D]. *)
Lemma distance_segment_segment_interior
    (s1_0 s1_1 s2_0 s2_1 : Point3D R) (D sN tN : R) :
  let u := sub s1_1 s1_0 in
  let v := sub s2_1 s2_0 in
  let w := sub s1_0 s2_0 in
  D = dot u u * dot v v - dot u v * dot u v ->
  sN = dot u v * dot v w - dot v v * dot u w ->
  tN = dot u u * dot v w - dot u v * dot u w ->
  lit_1e_6 <= D -> lit_1e_6 <= sN <= D -> lit_1e_6 <= tN <= D ->
  distance_segment_segment s1_0 s1_1 s2_0 s2_1
  = norm (sub (add w (val_mul (sN / D) u)) (val_mul (tN / D) v)).
Proof.
  intros u v w HD HsN HtN. cbn [lit_1e_6 Rcoord]. intros LD LsN LtN.
  unfold distance_segment_segment. fold u v w.
  cbn [cltb cleb csub cmul cdiv cadd copp cabs of_Z lit_1e_6 Rcoord].
  rewrite <- HD, <- HsN, <- HtN.
  rewrite (RFacts.Rltb_false D) by lra.
  rewrite (RFacts.Rltb_false sN 0) by lra.
  rewrite (RFacts.Rltb_false D sN) by lra.
  rewrite (RFacts.Rltb_false tN 0) by lra.
  rewrite (RFacts.Rltb_false D tN) by lra.
  rewrite (Rabs_right sN) by lra.
  rewrite (Rabs_right tN) by lra.
  rewrite (RFacts.Rltb_false sN) by lra.
  rewrite (RFacts.Rltb_false tN) by lra.
  reflexivity.
Qed.

Lemma closest_points_interior_iff (c1 c2 : Cylinder.t R) :
  let u := sub (Cylinder.p2 c1) (Cylinder.p1 c1) in
  let v := sub (Cylinder.p2 c2) (Cylinder.p1 c2) in
  let w := sub (Cylinder.p1 c1) (Cylinder.p1 c2) in
  let D := dot u u * dot v v - dot u v * dot u v in
  let sN := dot u v * dot v w - dot v v * dot u w in
  let tN := dot u u * dot v w - dot u v * dot u w in
  closest_points_interior c1 c2 = true <->
  lit_1e_6 <= D /\ (lit_1e_6 <= sN <= D) /\ (lit_1e_6 <= tN <= D).
Proof.
  intros u v w D sN tN. unfold closest_points_interior.
  fold u v w. cbn [cleb csub cmul lit_1e_6 Rcoord]. fold D sN tN.
  rewrite !andb_true_iff, !RFacts.Rleb_iff. tauto.
Qed.

(** Exchanging the two segments exchanges [sN] and [tN], keeps [D] and turns
    the difference of the closest points into its opposite. *)
Lemma Cylinder_intersects_Cylinder_interior_sym (c1 c2 : Cylinder.t R) :
  closest_points_interior c1 c2 = true ->
  Cylinder_intersects_Cylinder c1 c2 = Cylinder_intersects_Cylinder c2 c1.
Proof.
  intros H. apply closest_points_interior_iff in H. cbv zeta in H.
  destruct H as (LD & LsN & LtN).
  set (u := sub (Cylinder.p2 c1) (Cylinder.p1 c1)) in *.
  set (v := sub (Cylinder.p2 c2) (Cylinder.p1 c2)) in *.
  set (w := sub (Cylinder.p1 c1) (Cylinder.p1 c2)) in *.
  set (D := dot u u * dot v v - dot u v * dot u v) in *.
  set (sN := dot u v * dot v w - dot v v * dot u w) in *.
  set (tN := dot u u * dot v w - dot u v * dot u w) in *.
  unfold Cylinder_intersects_Cylinder.
  rewrite (distance_segment_segment_interior
             (Cylinder.p1 c1) (Cylinder.p2 c1) (Cylinder.p1 c2) (Cylinder.p2 c2)
             D sN tN); try reflexivity; try assumption.
  rewrite (distance_segment_segment_interior
             (Cylinder.p1 c2) (Cylinder.p2 c2) (Cylinder.p1 c1) (Cylinder.p2 c1)
             D tN sN); try assumption.
  - fold u v w. cbn [cleb cadd Rcoord].
    rewrite (Rplus_comm (Cylinder.radius c2)).
    f_equal. unfold norm. f_equal.
    generalize (sN / D) (tN / D). intros sc tc.
    unfold w, u, v, norm_sq, sub, add, val_mul, mul_val, add_point,
      subtract_point, multiply_value.
    cbn. ring.
  - unfold D, u, v, dot, sub, subtract_point. cbn. ring.
  - unfold tN, u, v, w, dot, sub, subtract_point. cbn. ring.
  - unfold sN, u, v, w, dot, sub, subtract_point. cbn. ring.
Qed.

(** Evaluates [Rabs] at a number whose sign linear arithmetic settles. *)
Ltac Rabs_decide :=
  repeat match goal with
  | |- context [Rabs ?x] =>
      first [ rewrite (Rabs_right x) by lra | rewrite (Rabs_left x) by lra ]
  end.

(** C2.  Two cylinders of radius 1/4 whose axes touch: the axis of [c1]
    runs from (0, 0, 0) to (1, 0, 0) and that of [c2] from (1, 0, 0) to
    (1, 1/1024, 0), at a right angle to it.  With either order
    D = a * c - b * b = 2^-20 < 1e-6, because the second axis is short and
    not because the axes are parallel, and the fallback pins the point of
    the receiver's axis to its first end point.  From [c1] the distance
    found is that of (0, 0, 0) to (1, 0, 0), which is 1 and not the least
    distance 0 of the two segments; from [c2] it is that of (1, 0, 0) to
    itself, which is 0.  So [c1.intersects(c2)] is false and
    [c2.intersects(c1)] is true. *)
Theorem Cylinder_intersects_Cylinder_not_symmetric :
  let c1 := Cylinder.mk (mkPoint3D 0 0 0) (mkPoint3D 1 0 0) (1 / 4) in
  let c2 := Cylinder.mk (mkPoint3D 1 0 0) (mkPoint3D 1 (1 / 1024) 0) (1 / 4) in
  Cylinder.p2 c1 = Cylinder.p1 c2 /\
  dot (sub (Cylinder.p2 c1) (Cylinder.p1 c1))
      (sub (Cylinder.p2 c2) (Cylinder.p1 c2)) = 0 /\
  distance_segment_segment (Cylinder.p1 c1) (Cylinder.p2 c1)
                           (Cylinder.p1 c2) (Cylinder.p2 c2) = 1 /\
  distance_segment_segment (Cylinder.p1 c2) (Cylinder.p2 c2)
                           (Cylinder.p1 c1) (Cylinder.p2 c1) = 0 /\
  Cylinder_intersects_Cylinder c1 c2 = false /\
  Cylinder_intersects_Cylinder c2 c1 = true.
Proof.
  intros c1 c2.
  assert (D12 : distance_segment_segment (Cylinder.p1 c1) (Cylinder.p2 c1)
                  (Cylinder.p1 c2) (Cylinder.p2 c2) = 1).
  { unfold c1, c2, distance_segment_segment.
    unfold norm, norm_sq, dot, sub, add, val_mul, mul_val, add_point,
      subtract_point, multiply_value.
    cbn. Rdecide. cbn. Rdecide. cbn. Rabs_decide. Rdecide. cbn.
    apply RFacts.sqrt_eq_1. lra. }
  assert (D21 : distance_segment_segment (Cylinder.p1 c2) (Cylinder.p2 c2)
                  (Cylinder.p1 c1) (Cylinder.p2 c1) = 0).
  { unfold c1, c2, distance_segment_segment.
    unfold norm, norm_sq, dot, sub, add, val_mul, mul_val, add_point,
      subtract_point, multiply_value.
    cbn. Rdecide. cbn. Rdecide. cbn. Rabs_decide. Rdecide. cbn.
    apply RFacts.sqrt_eq_0. lra. }
  split; [reflexivity|].
  split; [unfold c1, c2, dot, sub, subtract_point; cbn; lra|].
  split; [exact D12|]. split; [exact D21|].
  unfold Cylinder_intersects_Cylinder. rewrite D12, D21.
  unfold c1, c2. cbn [Cylinder.radius cleb cadd Rcoord].
  split; Rdecide; reflexivity.
Qed.

End GeometryFacts.

(** ** The voxel grid *)

Module GridFacts.
Import Grid.

Section WithCoord.
Context {C : Type} {coord : CoordType C}.
Variable VoxelLen : Z.
Variable segment_ids : Z -> Z -> Ident.MorphPartId.

Lemma push_back_lookup (key : Z * Z * Z) (value : MorphoEntry C)
    (grid_ : gmap (Z * Z * Z) (list (MorphoEntry C))) (k : Z * Z * Z) :
  push_back key value grid_ !! k
  = if decide (k = key) then Some (at_key grid_ key ++ [value]) else grid_ !! k.
Proof.
  unfold push_back. destruct (decide (k = key)) as [->|Hne].
  - apply lookup_insert_eq.
  - apply lookup_insert_ne. congruence.
Qed.

Lemma at_key_push_back_ne (key k : Z * Z * Z) (value : MorphoEntry C)
    (grid_ : gmap (Z * Z * Z) (list (MorphoEntry C))) :
  k <> key -> at_key (push_back key value grid_) k = at_key grid_ k.
Proof.
  intros Hne. unfold at_key. rewrite push_back_lookup.
  destruct (decide (k = key)); [contradiction | reflexivity].
Qed.

Lemma at_key_push_back_eq (key : Z * Z * Z) (value : MorphoEntry C)
    (grid_ : gmap (Z * Z * Z) (list (MorphoEntry C))) :
  at_key (push_back key value grid_) key = at_key grid_ key ++ [value].
Proof.
  unfold at_key at 1. rewrite push_back_lookup.
  destruct (decide (key = key)); [reflexivity | contradiction].
Qed.

(** Pushing [value] under [k1] and, when [k2] is another key, under [k2] as
    well: every vector that is touched gets [value] appended once. *)
Lemma push_back_twice_lookup (k1 k2 : Z * Z * Z) (value : MorphoEntry C)
    (grid_ : gmap (Z * Z * Z) (list (MorphoEntry C))) (k : Z * Z * Z) :
  (if bool_decide (k1 <> k2)
   then push_back k2 value (push_back k1 value grid_)
   else push_back k1 value grid_) !! k
  = if decide (k = k1 \/ k = k2) then Some (at_key grid_ k ++ [value])
    else grid_ !! k.
Proof.
  destruct (decide (k1 = k2)) as [<-|Hne].
  - rewrite bool_decide_eq_false_2 by (intros H; now apply H).
    rewrite push_back_lookup.
    destruct (decide (k = k1)) as [->|Hk].
    + rewrite decide_True by (now left). reflexivity.
    + rewrite decide_False by (intros [?|?]; contradiction). reflexivity.
  - rewrite bool_decide_eq_true_2 by exact Hne.
    rewrite !push_back_lookup.
    destruct (decide (k = k2)) as [->|Hk2].
    + rewrite decide_True by (now right).
      rewrite at_key_push_back_ne by congruence. reflexivity.
    + destruct (decide (k = k1)) as [->|Hk1].
      * rewrite decide_True by (now left). reflexivity.
      * rewrite decide_False by (intros [?|?]; contradiction). reflexivity.
Qed.

Lemma insert_lookup (value : MorphoEntry C)
    (grid_ : gmap (Z * Z * Z) (list (MorphoEntry C))) (k : Z * Z * Z) :
  let bbox := bounding_box value in
  let vx1_i := point2voxel VoxelLen (min_corner bbox) in
  let vx2_i := point2voxel VoxelLen (max_corner bbox) in
  insert VoxelLen value grid_ !! k
  = if decide (k = vx1_i \/ k = vx2_i) then Some (at_key grid_ k ++ [value])
    else grid_ !! k.
Proof. intros bbox vx1_i vx2_i. unfold insert. apply push_back_twice_lookup. Qed.

Lemma insert_segment_lookup (gid segment_i : Z) (p1 p2 : Point3D C) (radius : C)
    (grid_ : gmap (Z * Z * Z) (list (MorphoEntry C))) (k : Z * Z * Z) :
  let value :=
    MSegment (Segment.mk (segment_ids gid segment_i) (Cylinder.mk p1 p2 radius)) in
  let vx1_i := point2voxel VoxelLen p1 in
  let vx2_i := point2voxel VoxelLen p2 in
  insert_segment VoxelLen segment_ids gid segment_i p1 p2 radius grid_ !! k
  = if decide (k = vx1_i \/ k = vx2_i) then Some (at_key grid_ k ++ [value])
    else grid_ !! k.
Proof.
  intros value vx1_i vx2_i. unfold insert_segment. fold value vx1_i vx2_i.
  rewrite at_key_push_back_eq, last_snoc.
  apply push_back_twice_lookup.
Qed.

(** What the two overloads store, key by key.  [insert(value)] takes the
    bounding box of the entry, maps its min and max corners to voxel keys and
    appends the entry once under the min-corner key and, when the keys
    differ, once more under the max-corner key; all other voxels are left
    alone.  The segment overload
    [insert(gid, segment_i, p1, p2, radius)] does the same with the keys of
    the two end points [p1] and [p2] in the place of those of the corners of
    the bounding box. *)
Theorem insert_appends_under_corner_or_endpoint_keys
    (grid_ : gmap (Z * Z * Z) (list (MorphoEntry C))) (k : Z * Z * Z) :
  (forall value : MorphoEntry C,
      insert VoxelLen value grid_ !! k
      = if decide (k = point2voxel VoxelLen (min_corner (bounding_box value)) \/
                   k = point2voxel VoxelLen (max_corner (bounding_box value)))
        then Some (at_key grid_ k ++ [value])
        else grid_ !! k)
  /\
  (forall (gid segment_i : Z) (p1 p2 : Point3D C) (radius : C),
      insert_segment VoxelLen segment_ids gid segment_i p1 p2 radius grid_ !! k
      = if decide (k = point2voxel VoxelLen p1 \/ k = point2voxel VoxelLen p2)
        then Some (at_key grid_ k
                     ++ [MSegment (Segment.mk (segment_ids gid segment_i)
                                              (Cylinder.mk p1 p2 radius))])
        else grid_ !! k).
Proof.
  split.
  - intros value. apply insert_lookup.
  - intros gid segment_i p1 p2 radius. apply insert_segment_lookup.
Qed.

End WithCoord.

(** Evaluates square roots and floors of real numbers that linear arithmetic
    identifies. *)
Ltac Rsqrt_decide :=
  repeat match goal with
  | |- context [R_sqrt.sqrt ?e] =>
      first [ rewrite (RFacts.sqrt_eq_0 e) by lra
            | rewrite (RFacts.sqrt_eq_1 e) by lra ]
  end.

Ltac Rfloor_decide :=
  repeat match goal with
  | |- context [Int_part ?e] =>
      first [ rewrite (RFacts.Int_part_between e 0) by (simpl; lra)
            | rewrite (RFacts.Int_part_between e (-1)) by (simpl; lra)
            | rewrite (RFacts.Int_part_between e 1) by (simpl; lra) ]
  end.

(** C7.  The segment overload does not store what [insert] stores for the
    same segment.  With voxels of length 5, the segment from (1, 1, 1) to
    (3, 1, 1) of radius 2 has the bounding box [(1, -1, -1), (3, 3, 3)],
    whose min corner lies in voxel (0, -1, -1) and whose max corner lies in
    voxel (0, 0, 0): [insert] stores the segment in both.  Both end points
    lie in voxel (0, 0, 0): the segment overload, which looks at the end
    points and leaves the radius out, stores the segment there only, and
    nothing under the key of the min corner. *)
Theorem insert_segment_skips_min_corner_voxel :
  let p1 := mkPoint3D 1%R 1%R 1%R in
  let p2 := mkPoint3D 3%R 1%R 1%R in
  let value :=
    MSegment (Segment.mk (segment_ids_section_0 7 0) (Cylinder.mk p1 p2 2%R)) in
  point2voxel 5 (min_corner (bounding_box value)) = (0, -1, -1)%Z /\
  point2voxel 5 (max_corner (bounding_box value)) = (0, 0, 0)%Z /\
  insert 5 value ∅ !! (0, -1, -1)%Z = Some [value] /\
  insert_segment 5 segment_ids_section_0 7 0 p1 p2 2%R ∅ !! (0, -1, -1)%Z = None /\
  insert_segment 5 segment_ids_section_0 7 0 p1 p2 2%R ∅ !! (0, 0, 0)%Z = Some [value].
Proof.
  intros p1 p2 value.
  assert (Kmin : point2voxel 5 (min_corner (bounding_box value)) = (0, -1, -1)%Z).
  { unfold value, p1, p2. kernel_eval. Rsqrt_decide. Rdecide.
    Rfloor_decide. reflexivity. }
  assert (Kmax : point2voxel 5 (max_corner (bounding_box value)) = (0, 0, 0)%Z).
  { unfold value, p1, p2. kernel_eval. Rsqrt_decide. Rdecide.
    Rfloor_decide. reflexivity. }
  assert (K1 : point2voxel 5 p1 = (0, 0, 0)%Z).
  { unfold p1. kernel_eval. Rfloor_decide. reflexivity. }
  assert (K2 : point2voxel 5 p2 = (0, 0, 0)%Z).
  { unfold p2. kernel_eval. Rfloor_decide. reflexivity. }
  split; [exact Kmin|]. split; [exact Kmax|].
  split; [|split].
  - rewrite (insert_lookup 5 value ∅ (0, -1, -1)%Z). cbv zeta.
    rewrite Kmin, Kmax. rewrite decide_True by (now left). reflexivity.
  - rewrite (insert_segment_lookup 5 segment_ids_section_0 7 0 p1 p2 2%R ∅).
    cbv zeta. rewrite K1, K2.
    rewrite decide_False by (intros [?|?]; discriminate). reflexivity.
  - rewrite (insert_segment_lookup 5 segment_ids_section_0 7 0 p1 p2 2%R ∅).
    cbv zeta. rewrite K1, K2.
    rewrite decide_True by (now left). reflexivity.
Qed.

End GridFacts.

(** ** The rank topology and the guard of the STR loader *)

Module STRFacts.
Import STR.
Local Open Scope Z_scope.

(** The number of [k] in [0, q) that are congruent to [i] modulo 3. *)
Lemma ceil_div_step (q i : Z) :
  0 <= q -> 0 <= i < 3 ->
  ceil_div (q + 1 - i) 3
  = ceil_div (q - i) 3 + (if decide (q mod 3 = i) then 1 else 0).
Proof.
  intros Hq Hi. unfold ceil_div.
  destruct (decide (q mod 3 = i)); Z.div_mod_to_equations; lia.
Qed.

Lemma ceil_div_thirds_sum (q : Z) :
  0 <= q -> ceil_div q 3 + ceil_div (q - 1) 3 + ceil_div (q - 2) 3 = q.
Proof. intros Hq. unfold ceil_div. Z.div_mod_to_equations; lia. Qed.

Lemma ceil_div_thirds_nonneg (q i : Z) :
  0 <= q -> 0 <= i < 3 -> 0 <= ceil_div (q - i) 3.
Proof. intros Hq Hi. unfold ceil_div. Z.div_mod_to_equations; lia. Qed.

(** The counting loop of [rank_distribution]: after [q] rounds the three
    counters hold the three rounded-up thirds. *)
Lemma rank_counters (q : nat) :
  fold_left (fun dist k => alter (fun dk => dk + 1) (Z.to_nat (k mod 3)) dist)
            (seqZ 0 (Z.of_nat q)) [0; 0; 0]
  = [ceil_div (Z.of_nat q) 3; ceil_div (Z.of_nat q - 1) 3;
     ceil_div (Z.of_nat q - 2) 3].
Proof.
  induction q as [|q IH].
  - reflexivity.
  - rewrite seqZ_S, fold_left_app, IH. cbn [fold_left].
    rewrite Z.add_0_l.
    assert (Hq : 0 <= Z.of_nat q) by lia.
    pose proof (ceil_div_step (Z.of_nat q) 0 Hq ltac:(lia)) as E0.
    pose proof (ceil_div_step (Z.of_nat q) 1 Hq ltac:(lia)) as E1.
    pose proof (ceil_div_step (Z.of_nat q) 2 Hq ltac:(lia)) as E2.
    replace (Z.of_nat (S q)) with (Z.of_nat q + 1) by lia.
    replace (Z.of_nat q + 1 - 0) with (Z.of_nat q + 1) in E0 by lia.
    replace (Z.of_nat q - 0) with (Z.of_nat q) in E0 by lia.
    rewrite E0, E1, E2.
    assert (Hm : Z.of_nat q mod 3 = 0 \/ Z.of_nat q mod 3 = 1 \/ Z.of_nat q mod 3 = 2)
      by (Z.div_mod_to_equations; lia).
    destruct Hm as [-> | [-> | ->]];
      repeat first [ rewrite decide_True by lia | rewrite decide_False by lia ];
      [ change (Z.to_nat 0) with 0%nat
      | change (Z.to_nat 1) with 1%nat
      | change (Z.to_nat 2) with 2%nat ];
      simpl; repeat (f_equal; try lia).
Qed.

Lemma is_power_of_two_pow2 (q : nat) : is_power_of_two (2 ^ Z.of_nat q) = true.
Proof.
  unfold is_power_of_two. apply andb_true_iff. split.
  - apply Z.ltb_lt. apply Z.pow_pos_nonneg; lia.
  - apply Z.eqb_eq.
    replace (2 ^ Z.of_nat q - 1) with (Z.ones (Z.of_nat q))
      by (rewrite Z.ones_equiv; lia).
    rewrite Z.land_ones by lia. apply Z.mod_same.
    apply Z.pow_nonzero; lia.
Qed.

Lemma rank_distribution_counts (q : nat) :
  rank_distribution (2 ^ Z.of_nat q)
  = Some [2 ^ ceil_div (Z.of_nat q) 3; 2 ^ ceil_div (Z.of_nat q - 1) 3;
          2 ^ ceil_div (Z.of_nat q - 2) 3]
  /\ 2 ^ ceil_div (Z.of_nat q) 3 * 2 ^ ceil_div (Z.of_nat q - 1) 3
     * 2 ^ ceil_div (Z.of_nat q - 2) 3 = 2 ^ Z.of_nat q.
Proof.
  assert (Hq : 0 <= Z.of_nat q) by lia.
  assert (Hprod : 2 ^ ceil_div (Z.of_nat q) 3 * 2 ^ ceil_div (Z.of_nat q - 1) 3
                  * 2 ^ ceil_div (Z.of_nat q - 2) 3 = 2 ^ Z.of_nat q).
  { pose proof (ceil_div_thirds_nonneg (Z.of_nat q) 0 Hq ltac:(lia)) as N0.
    pose proof (ceil_div_thirds_nonneg (Z.of_nat q) 1 Hq ltac:(lia)) as N1.
    pose proof (ceil_div_thirds_nonneg (Z.of_nat q) 2 Hq ltac:(lia)) as N2.
    replace (Z.of_nat q - 0) with (Z.of_nat q) in N0 by lia.
    rewrite <- !Z.pow_add_r by lia.
    f_equal. now apply ceil_div_thirds_sum. }
  split; [|exact Hprod].
  unfold rank_distribution.
  rewrite is_power_of_two_pow2. cbn [negb].
  unfold int_log2. rewrite Z.log2_pow2 by lia.
  rewrite rank_counters. cbn [map]. unfold int_pow2.
  cbn [lookup_total list_lookup_total].
  rewrite Hprod, Z.eqb_refl. reflexivity.
Qed.

(** C5. For a communicator of size R = 2^q, [rank_distribution] passes both
    of its assertions and returns the grid
    (2^ceil(q/3), 2^ceil((q-1)/3), 2^ceil((q-2)/3)): each of the q rounds of
    its loop gives one factor of two to the axis k mod 3, starting from x.
    The product of the three is R. *)
Theorem rank_distribution_power_of_two (q : nat) :
  fold_left (fun dist k => alter (fun dk => dk + 1) (Z.to_nat (k mod 3)) dist)
            (seqZ 0 (Z.of_nat q)) [0; 0; 0]
  = [ceil_div (Z.of_nat q) 3; ceil_div (Z.of_nat q - 1) 3;
     ceil_div (Z.of_nat q - 2) 3]
  /\ rank_distribution (2 ^ Z.of_nat q)
     = Some [2 ^ ceil_div (Z.of_nat q) 3; 2 ^ ceil_div (Z.of_nat q - 1) 3;
             2 ^ ceil_div (Z.of_nat q - 2) 3]
  /\ 2 ^ ceil_div (Z.of_nat q) 3 * 2 ^ ceil_div (Z.of_nat q - 1) 3
     * 2 ^ ceil_div (Z.of_nat q - 2) 3 = 2 ^ Z.of_nat q.
Proof.
  split.
  - apply rank_counters.
  - apply rank_distribution_counts.
Qed.

(** For a size that fits an int (q <= 30) so does everything the function
    computes: the counters are at most q and the three factors divide R. *)
Lemma rank_distribution_int_range (q : nat) (dist : list Z) :
  (q <= 30)%nat ->
  rank_distribution (2 ^ Z.of_nat q) = Some dist ->
  Forall (fun dk => 1 <= dk <= 2 ^ Z.of_nat q /\ 2 ^ Z.of_nat q < 2 ^ 31) dist.
Proof.
  intros Hq H.
  destruct (rank_distribution_counts q) as [E _].
  rewrite E in H. injection H as <-.
  assert (H0 : 0 <= Z.of_nat q) by lia.
  pose proof (ceil_div_thirds_nonneg (Z.of_nat q) 0 H0 ltac:(lia)) as N0.
  pose proof (ceil_div_thirds_nonneg (Z.of_nat q) 1 H0 ltac:(lia)) as N1.
  pose proof (ceil_div_thirds_nonneg (Z.of_nat q) 2 H0 ltac:(lia)) as N2.
  pose proof (ceil_div_thirds_sum (Z.of_nat q) H0) as Hsum.
  replace (Z.of_nat q - 0) with (Z.of_nat q) in N0 by lia.
  assert (Htop : 2 ^ Z.of_nat q < 2 ^ 31) by (apply Z.pow_lt_mono_r; lia).
  assert (Hpow : forall c, 0 <= c <= Z.of_nat q -> 1 <= 2 ^ c <= 2 ^ Z.of_nat q).
  { intros c Hc. split.
    - pose proof (Z.pow_pos_nonneg 2 c ltac:(lia) ltac:(lia)). lia.
    - apply Z.pow_le_mono_r; lia. }
  repeat constructor; try apply Hpow; try exact Htop; lia.
Qed.

Example rank_distribution_8 : rank_distribution 8 = Some [2; 2; 2].
Proof. reflexivity. Qed.

Example rank_distribution_16 : rank_distribution 16 = Some [4; 2; 2].
Proof. reflexivity. Qed.

(** A size that is not a power of two trips the first assertion. *)
Example rank_distribution_6 : rank_distribution 6 = None.
Proof. reflexivity. Qed.

(** *** Exceptions of composite computations *)

Lemma bind_raises {W A B : Type} (m : M W A) (k : A -> M W B) (e : exception) :
  raises (bind m k) e -> raises m e \/ exists a, raises (k a) e.
Proof.
  intros (w & w' & H). unfold bind in H.
  destruct (m w) as [w1 [e1|a]] eqn:Em.
  - left. exists w, w1. injection H as -> ->. exact Em.
  - right. exists a, w1, w'. exact H.
Qed.

Lemma ret_raises {W A : Type} (a : A) (e : exception) : ~ raises (@ret W A a) e.
Proof. intros (w & w' & H). discriminate. Qed.

Lemma throw_raises {W A : Type} (e' e : exception) :
  raises (@throw W A e') e -> e' = e.
Proof. intros (w & w' & H). unfold throw in H. congruence. Qed.

Lemma logged_raises {A : Type} (call : string) (a : A) (e : exception) :
  ~ raises (logged call a) e.
Proof. intros (w & w' & H). discriminate. Qed.

Section Loader.
Variable S : Substrate.
Variable e : exception.
Hypothesis quiet : substrate_never_raises S e.

Lemma gather_bounding_boxes_quiet boxes comm :
  ~ raises (gather_bounding_boxes S boxes comm) e.
Proof.
  destruct quiet as (_ & _ & _ & _ & _ & _ & Hcounts & Hcast & Hgather & _).
  intros H. unfold gather_bounding_boxes in H.
  apply bind_raises in H. destruct H as [H | [counts H]].
  - exact (Hcounts _ _ H).
  - destruct (mpi_rank S comm =? 0);
      destruct (safe_integer_cast_int S (Z.of_nat (length boxes))) as [e'|n] eqn:Ec.
    + apply throw_raises in H. subst e'. exact (Hcast _ Ec).
    + exact (Hgather _ _ _ _ H).
    + apply throw_raises in H. subst e'. exact (Hcast _ Ec).
    + apply bind_raises in H. destruct H as [H | [? H]].
      * exact (Hgather _ _ _ _ H).
      * exact (ret_raises _ _ H).
Qed.

Lemma DistributedSortTileRecursion_apply_quiet levels values str_params comm :
  ~ raises (DistributedSortTileRecursion_apply S levels values str_params comm) e.
Proof.
  destruct quiet as (Hsig & Hsort & Hsplit & _).
  revert values comm. induction levels as [|levels IH]; intros values comm H;
    cbn [DistributedSortTileRecursion_apply] in H.
  - apply bind_raises in H. destruct H as [H | [? H]]; [exact (Hsig H)|].
    apply bind_raises in H. destruct H as [H | [? H]]; [exact (Hsort _ _ H)|].
    exact (ret_raises _ _ H).
  - apply bind_raises in H. destruct H as [H | [? H]]; [exact (Hsig H)|].
    apply bind_raises in H. destruct H as [H | [? H]]; [exact (Hsort _ _ H)|].
    apply bind_raises in H. destruct H as [H | [? H]]; [exact (Hsplit _ _ _ H)|].
    exact (IH _ _ H).
Qed.

Lemma save_parts_quiet ks values rank n_serial_parts boundaries boxes :
  ~ raises (save_parts S ks values rank n_serial_parts boundaries boxes) e.
Proof.
  destruct quiet as (Hsig & _ & _ & _ & Hnew & Hsave & _).
  revert boxes. induction ks as [|k ks IH]; intros boxes H; cbn [save_parts] in H.
  - exact (ret_raises _ _ H).
  - apply bind_raises in H. destruct H as [H | [? H]]; [exact (Hsig H)|].
    apply bind_raises in H. destruct H as [H | [? H]]; [exact (Hnew _ H)|].
    apply bind_raises in H. destruct H as [H | [? H]]; [exact (Hsave _ _ H)|].
    exact (IH _ H).
Qed.

Lemma distributed_partition_load_quiet values str_params comm :
  ~ raises (distributed_partition_load S values str_params comm) e.
Proof.
  pose proof quiet as (Hsig & _ & _ & Hserial & _ & _ & _ & _ & _ & Htop & Hsavetop).
  intros H. unfold distributed_partition_load in H.
  apply bind_raises in H. destruct H as [H | [? H]].
  { exact (DistributedSortTileRecursion_apply_quiet _ _ _ _ H). }
  apply bind_raises in H. destruct H as [H | [? H]]; [exact (Hserial _ _ _ H)|].
  apply bind_raises in H. destruct H as [H | [? H]].
  { exact (save_parts_quiet _ _ _ _ _ _ H). }
  apply bind_raises in H. destruct H as [H | [? H]]; [exact (Hsig H)|].
  apply bind_raises in H. destruct H as [H | [? H]].
  { exact (gather_bounding_boxes_quiet _ _ H). }
  destruct (mpi_rank S comm =? 0).
  - apply bind_raises in H. destruct H as [H | [? H]]; [exact (Htop _ H)|].
    apply bind_raises in H. destruct H as [H | [? H]]; [exact (Hsavetop _ H)|].
    exact (ret_raises _ _ H).
  - exact (ret_raises _ _ H).
Qed.

End Loader.

Lemma single_rank_substrate_quiet (e : exception) :
  substrate_never_raises single_rank_substrate e.
Proof.
  unfold substrate_never_raises. cbn.
  repeat split; intros; try apply logged_raises; discriminate.
Qed.

(** C6. For a communicator of [R] ranks ([R] a positive int):
    with fewer than 10 * R local entities [distributed_partition] throws
    "Too few elements." and leaves the world as it found it, no call into
    the substrate or the storage having been made; with 10 * R entities or
    more it is the load proper; and, no call into the substrate raising that
    error, it ends in that error exactly when there are fewer than 10 * R
    entities. *)
Theorem distributed_partition_too_few_elements (S : Substrate)
    (values : list (Value S)) (str_params : TwoLevelSTRParams)
    (comm : Comm S) (w : World S) :
  0 < mpi_size S comm < 2 ^ 31 ->
  (Z.of_nat (length values) < 10 * mpi_size S comm ->
   distributed_partition S values str_params comm w = (w, inl too_few_elements))
  /\
  (10 * mpi_size S comm <= Z.of_nat (length values) ->
   distributed_partition S values str_params comm
   = distributed_partition_load S values str_params comm)
  /\
  (substrate_never_raises S too_few_elements ->
   ((exists w', distributed_partition S values str_params comm w
                = (w', inl too_few_elements))
    <-> Z.of_nat (length values) < 10 * mpi_size S comm)).
Proof.
  intros HR.
  assert (Hmul : size_t_mul 10 (mpi_size S comm) = 10 * mpi_size S comm).
  { unfold size_t_mul, Ident.wrap. apply Z.mod_small.
    change (2 ^ 31) with 2147483648 in HR.
    change (2 ^ 64) with 18446744073709551616. lia. }
  assert (Hfew : Z.of_nat (length values) < 10 * mpi_size S comm ->
                 distributed_partition S values str_params comm w
                 = (w, inl too_few_elements)).
  { intros H. unfold distributed_partition. rewrite Hmul.
    rewrite (proj2 (Z.ltb_lt _ _) H). reflexivity. }
  assert (Henough : 10 * mpi_size S comm <= Z.of_nat (length values) ->
                    distributed_partition S values str_params comm
                    = distributed_partition_load S values str_params comm).
  { intros H. unfold distributed_partition. rewrite Hmul.
    rewrite (proj2 (Z.ltb_ge _ _) H). reflexivity. }
  split; [exact Hfew|]. split; [exact Henough|].
  intros Hquiet. split.
  - intros [w' H].
    destruct (Z.lt_ge_cases (Z.of_nat (length values)) (10 * mpi_size S comm))
      as [Hlt|Hge]; [exact Hlt|].
    exfalso. rewrite (Henough Hge) in H.
    apply (distributed_partition_load_quiet S too_few_elements Hquiet
             values str_params comm).
    now exists w, w'.
  - intros H. exists w. now apply Hfew.
Qed.

(** Nine values on a single rank: the load is refused and nothing is
    logged. *)
Lemma distributed_partition_too_few_elements_witness :
  distributed_partition single_rank_substrate [1; 2; 3; 4; 5; 6; 7; 8; 9]
    (mkTwoLevelSTRParams (mkDistributedSTRParams 9 [1; 1; 1])
                         (mkLocalSTRParams [1; 1; 1]))
    tt []
  = ([], inl too_few_elements).
Proof.
  apply (distributed_partition_too_few_elements single_rank_substrate);
    cbn; lia.
Defined.

(** With ten values the guard lets the input through: the load runs on the
    recording substrate, three rounds of sorting with two splits between
    them, one subtree and the top tree. *)
Example distributed_partition_ten_values :
  distributed_partition single_rank_substrate [1; 2; 3; 4; 5; 6; 7; 8; 9; 10]
    (mkTwoLevelSTRParams (mkDistributedSTRParams 10 [1; 1; 1])
                         (mkLocalSTRParams [1; 1; 1]))
    tt []
  = (["check_signals"; "sort_and_balance"; "comm_split";
      "check_signals"; "sort_and_balance"; "comm_split";
      "check_signals"; "sort_and_balance";
      "serial_sort_tile_recursion";
      "check_signals"; "subtree_type"; "save_subtree";
      "check_signals"; "gather_counts"; "MPI_Gatherv";
      "toptree_type"; "save_top_tree"]%string,
     inr [1; 2; 3; 4; 5; 6; 7; 8; 9; 10]).
Proof. vm_compute. reflexivity. Qed.

End STRFacts.

(** ** The version guard of the serialisation *)

Module SerializationFacts.
Import Serialization.
Local Open Scope Z_scope.

Lemma load_int_raises (x : Z) (e : exception) :
  raises (load_int x) e -> e = archive_exception "input stream error".
Proof.
  intros (ar & ar' & H). unfold load_int in H.
  destruct ar; congruence.
Qed.

Lemma ShapeId_serialize_load_no_future_format (this : Ident.ShapeId) :
  ~ raises (ShapeId_serialize (list Z) load_int this) future_format.
Proof.
  intros H. unfold ShapeId_serialize in H.
  apply STRFacts.bind_raises in H. destruct H as [H | [? H]].
  - apply load_int_raises in H. discriminate.
  - exact (STRFacts.ret_raises _ _ H).
Qed.

Lemma SubtreeId_serialize_load_no_future_format (this : Z * Z) :
  ~ raises (SubtreeId_serialize (list Z) load_int this) future_format.
Proof.
  intros H. unfold SubtreeId_serialize in H.
  apply STRFacts.bind_raises in H. destruct H as [H | [? H]].
  { apply load_int_raises in H. discriminate. }
  apply STRFacts.bind_raises in H. destruct H as [H | [? H]].
  { apply load_int_raises in H. discriminate. }
  exact (STRFacts.ret_raises _ _ H).
Qed.

(** C9. [IndexedShape::serialize] called with a version above
    SPATIAL_INDEX_STRUCT_VERSION = 2 throws the future-format error and
    leaves the archive untouched; with a version of at most 2 it is the
    serialisation of the two bases, and it does not end in that error unless
    the serialisation of a base does. *)
Theorem IndexedShape_serialize_future_format
    (Archive IndexT ShapeT : Type)
    (serialize_IndexT : IndexT -> M Archive IndexT)
    (serialize_ShapeT : ShapeT -> M Archive ShapeT)
    (this : IndexT * ShapeT) (version : Z) :
  (SPATIAL_INDEX_STRUCT_VERSION < version ->
   forall ar : Archive,
     IndexedShape_serialize Archive IndexT ShapeT serialize_IndexT serialize_ShapeT
                            this version ar
     = (ar, inl future_format))
  /\
  (version <= SPATIAL_INDEX_STRUCT_VERSION ->
   (forall index, ~ raises (serialize_IndexT index) future_format) ->
   (forall shape, ~ raises (serialize_ShapeT shape) future_format) ->
   ~ raises (IndexedShape_serialize Archive IndexT ShapeT serialize_IndexT
                                    serialize_ShapeT this version)
            future_format).
Proof.
  split.
  - intros Hv ar. unfold IndexedShape_serialize.
    rewrite (proj2 (Z.gtb_lt _ _) Hv). reflexivity.
  - intros Hv HI HS H. unfold IndexedShape_serialize in H.
    rewrite Z.gtb_ltb in H.
    rewrite (proj2 (Z.ltb_ge _ _) Hv) in H.
    apply STRFacts.bind_raises in H. destruct H as [H | [? H]]; [exact (HI _ H)|].
    apply STRFacts.bind_raises in H. destruct H as [H | [? H]]; [exact (HS _ H)|].
    exact (STRFacts.ret_raises _ _ H).
Qed.

(** A record of version 3 read from an archive of three integers: refused,
    nothing consumed.  The same record at version 2 cannot end in the
    future-format error. *)
Lemma IndexedShape_serialize_future_format_witness :
  IndexedShape_serialize (list Z) Ident.ShapeId (Z * Z)
    (ShapeId_serialize (list Z) load_int) (SubtreeId_serialize (list Z) load_int)
    (Ident.mkShapeId 0, (0, 0)) 3 [7; 8; 9]
  = ([7; 8; 9], inl future_format)
  /\
  ~ raises (IndexedShape_serialize (list Z) Ident.ShapeId (Z * Z)
              (ShapeId_serialize (list Z) load_int)
              (SubtreeId_serialize (list Z) load_int)
              (Ident.mkShapeId 0, (0, 0)) 2)
           future_format.
Proof.
  split.
  - apply (IndexedShape_serialize_future_format (list Z) Ident.ShapeId (Z * Z)).
    unfold SPATIAL_INDEX_STRUCT_VERSION. lia.
  - apply (IndexedShape_serialize_future_format (list Z) Ident.ShapeId (Z * Z)).
    + unfold SPATIAL_INDEX_STRUCT_VERSION. lia.
    + apply ShapeId_serialize_load_no_future_format.
    + apply SubtreeId_serialize_load_no_future_format.
Defined.

(** At version 2 the record is read: the id first, then the shape. *)
Example IndexedShape_serialize_version_2 :
  IndexedShape_serialize (list Z) Ident.ShapeId (Z * Z)
    (ShapeId_serialize (list Z) load_int) (SubtreeId_serialize (list Z) load_int)
    (Ident.mkShapeId 0, (0, 0)) 2 [7; 8; 9]
  = ([], inr (Ident.mkShapeId 7, (8, 9))).
Proof. reflexivity. Qed.

End SerializationFacts.

(** ** The counterexamples in double precision

    The three inputs on which the kernel and the grid depart from the
    specification are run again with the arithmetic of the double-precision build: the outcomes
    are the same. *)

Module DoubleChecks.
Import Floats.
Local Open Scope float_scope.

Example Point3D_eq_not_symmetric_double :
  Point3D_eq (mkPoint3D 9999.5 0 0) (mkPoint3D 10000.5 0 0) = false /\
  Point3D_eq (mkPoint3D 10000.5 0 0) (mkPoint3D 9999.5 0 0) = true.
Proof. vm_compute. split; reflexivity. Qed.

Example Cylinder_intersects_Cylinder_not_symmetric_double :
  Geometry.Cylinder_intersects_Cylinder
    (Cylinder.mk (mkPoint3D 0 0 0) (mkPoint3D 1 0 0) 0.25)
    (Cylinder.mk (mkPoint3D 1 0 0) (mkPoint3D 1 0x1p-10 0) 0.25) = false /\
  Geometry.Cylinder_intersects_Cylinder
    (Cylinder.mk (mkPoint3D 1 0 0) (mkPoint3D 1 0x1p-10 0) 0.25)
    (Cylinder.mk (mkPoint3D 0 0 0) (mkPoint3D 1 0 0) 0.25) = true.
Proof. vm_compute. split; reflexivity. Qed.

Example insert_segment_skips_min_corner_voxel_double :
  let p1 := mkPoint3D 1 1 1 in
  let p2 := mkPoint3D 3 1 1 in
  let value :=
    MSegment (Segment.mk (Grid.segment_ids_section_0 7 0) (Cylinder.mk p1 p2 2)) in
  Grid.point2voxel 5 (min_corner (Grid.bounding_box value)) = (0, -1, -1)%Z /\
  Grid.insert 5 value ∅ !! (0, -1, -1)%Z = Some [value] /\
  Grid.insert_segment 5 Grid.segment_ids_section_0 7 0 p1 p2 2 ∅ !! (0, -1, -1)%Z
  = None.
Proof. vm_compute. repeat split; reflexivity. Qed.

End DoubleChecks.

(* ===================================================================== *)
(** * Part III. Further properties of the code                            *)
(* ===================================================================== *)

(** ** Identifiers *)

Module IdentMore.
Import Ident.
Local Open Scope Z_scope.

(** X1. The three guards test a mask; on values of their types they are the
    bounds 2^36, 2^14 and 2^14. *)
Theorem id_guards_are_field_bounds (g s t : Z) :
  is_identifier_t g -> is_unsigned s -> is_unsigned t ->
  (is_gid_safe g = true <-> g < 2 ^ 36) /\
  (is_section_id_safe s = true <-> s < 2 ^ 14) /\
  (is_segment_id_safe t = true <-> t < 2 ^ 14).
Proof.
  intros Hg Hs Ht. split; [|split].
  - exact (IdentFacts.is_gid_safe_iff g Hg).
  - exact (IdentFacts.is_section_id_safe_iff s Hs).
  - exact (IdentFacts.is_segment_id_safe_iff t Ht).
Qed.

Lemma id_guards_are_field_bounds_witness :
  (is_gid_safe (2 ^ 36 - 1) = true <-> 2 ^ 36 - 1 < 2 ^ 36) /\
  (is_section_id_safe (2 ^ 14) = true <-> 2 ^ 14 < 2 ^ 14) /\
  (is_segment_id_safe 7 = true <-> 7 < 2 ^ 14).
Proof.
  apply (id_guards_are_field_bounds (2 ^ 36 - 1) (2 ^ 14) 7);
    unfold is_identifier_t, is_unsigned; vm_compute; intuition congruence.
Defined.

(** X2. The accessors split any 64-bit id into its three fields: each lies
    within its width, the id is gid * 2^28 + section_id * 2^14 + segment_id,
    and packing the three fields again gives the id back. *)
Theorem accessors_decompose_id (i : Z) :
  is_identifier_t i ->
  let m := mkMorphPartId (mkShapeId i) in
  0 <= gid m < 2 ^ 36 /\ 0 <= section_id m < 2 ^ 14 /\
  0 <= segment_id m < 2 ^ 14 /\
  i = gid m * 2 ^ 28 + section_id m * 2 ^ 14 + segment_id m /\
  packed_id (gid m) (section_id m) (segment_id m) = i.
Proof.
  intros Hi m. unfold is_identifier_t in Hi. change identifier_bits with 64 in Hi.
  assert (Eg : gid m = i / 2 ^ 28).
  { unfold gid, m. cbn [part_shape id]. change N_TOTAL_BITS with 28.
    apply Z.shiftr_div_pow2. lia. }
  assert (Et : segment_id m = i mod 2 ^ 14).
  { unfold segment_id, m, integer_cast_unsigned, wrap. cbn [part_shape id].
    unfold MASK_SEGMENT_BITS.
    rewrite IdentFacts.mask_bits_64_ones by (cbv; intuition congruence).
    change N_SEGMENT_BITS with 14. rewrite Z.land_ones by lia.
    change unsigned_bits with 32. apply Z.mod_small.
    change (2 ^ 14) with 16384. change (2 ^ 32) with 4294967296.
    Z.div_mod_to_equations; lia. }
  assert (Es : section_id m = (i / 2 ^ 14) mod 2 ^ 14).
  { unfold section_id, m, integer_cast_unsigned, wrap. cbn [part_shape id].
    replace MASK_SECTION_BITS with (Z.shiftl (Z.ones 14) 14) by reflexivity.
    rewrite IdentFacts.land_shl_ones by lia.
    change N_SEGMENT_BITS with 14. rewrite Z.shiftr_div_pow2 by lia.
    change unsigned_bits with 32.
    change (2 ^ 14) with 16384. change (2 ^ 32) with 4294967296.
    Z.div_mod_to_equations; lia. }
  change (2 ^ 64) with 18446744073709551616 in Hi.
  assert (Hsum : i = gid m * 2 ^ 28 + section_id m * 2 ^ 14 + segment_id m).
  { rewrite Eg, Es, Et. change (2 ^ 28) with 268435456.
    change (2 ^ 14) with 16384. Z.div_mod_to_equations; lia. }
  assert (Bg : 0 <= gid m < 2 ^ 36).
  { rewrite Eg. change (2 ^ 28) with 268435456. change (2 ^ 36) with 68719476736.
    Z.div_mod_to_equations; lia. }
  assert (Bs : 0 <= section_id m < 2 ^ 14).
  { rewrite Es. change (2 ^ 14) with 16384. Z.div_mod_to_equations; lia. }
  assert (Bt : 0 <= segment_id m < 2 ^ 14).
  { rewrite Et. change (2 ^ 14) with 16384. Z.div_mod_to_equations; lia. }
  repeat split; try lia.
  rewrite IdentFacts.packed_id_in_range by assumption. lia.
Qed.

Lemma accessors_decompose_id_witness :
  let m := mkMorphPartId (mkShapeId (2 ^ 64 - 1)) in
  0 <= gid m < 2 ^ 36 /\ 0 <= section_id m < 2 ^ 14 /\
  0 <= segment_id m < 2 ^ 14 /\
  2 ^ 64 - 1 = gid m * 2 ^ 28 + section_id m * 2 ^ 14 + segment_id m /\
  packed_id (gid m) (section_id m) (segment_id m) = 2 ^ 64 - 1.
Proof.
  apply (accessors_decompose_id (2 ^ 64 - 1)).
  unfold is_identifier_t. vm_compute. intuition congruence.
Defined.

(** X3. Packing is injective on triples within the field widths: two such
    triples give ids that [operator==] finds equal only when the triples are
    the same. *)
Theorem packed_ids_equal_iff_same_triple (g s t g' s' t' : Z) :
  0 <= g < 2 ^ N_GID_BITS -> 0 <= s < 2 ^ N_SECTION_BITS ->
  0 <= t < 2 ^ N_SEGMENT_BITS ->
  0 <= g' < 2 ^ N_GID_BITS -> 0 <= s' < 2 ^ N_SECTION_BITS ->
  0 <= t' < 2 ^ N_SEGMENT_BITS ->
  (ShapeId_eq (mkShapeId (packed_id g s t)) (mkShapeId (packed_id g' s' t')) = true
   <-> g = g' /\ s = s' /\ t = t').
Proof.
  intros Hg Hs Ht Hg' Hs' Ht'. unfold ShapeId_eq. cbn [id].
  rewrite Z.eqb_eq. split.
  - intros E.
    pose proof (IdentFacts.gid_packed g s t Hg Hs Ht) as G.
    pose proof (IdentFacts.section_id_packed g s t Hg Hs Ht) as S.
    pose proof (IdentFacts.segment_id_packed g s t Hg Hs Ht) as T.
    rewrite E in G, S, T.
    rewrite (IdentFacts.gid_packed g' s' t') in G by assumption.
    rewrite (IdentFacts.section_id_packed g' s' t') in S by assumption.
    rewrite (IdentFacts.segment_id_packed g' s' t') in T by assumption.
    auto.
  - intros (-> & -> & ->). reflexivity.
Qed.

Lemma packed_ids_equal_iff_same_triple_witness :
  ShapeId_eq (mkShapeId (packed_id 5 3 7)) (mkShapeId (packed_id 5 7 3)) = true
  <-> 5 = 5 /\ 3 = 7 /\ 7 = 3.
Proof.
  apply (packed_ids_equal_iff_same_triple 5 3 7 5 7 3); vm_compute;
    intuition congruence.
Defined.

Lemma MorphPartId_new_cases (g s t : Z) :
  is_identifier_t g -> is_unsigned s -> is_unsigned t ->
  (2 ^ 36 <= g ->
   MorphPartId_new g s t
   = ([too_large_message], inl (runtime_error "Invalid gid."))) /\
  (g < 2 ^ 36 -> 2 ^ 14 <= s ->
   MorphPartId_new g s t
   = ([too_large_message], inl (runtime_error "Invalid section_id."))) /\
  (g < 2 ^ 36 -> s < 2 ^ 14 -> 2 ^ 14 <= t ->
   MorphPartId_new g s t
   = ([too_large_message], inl (runtime_error "Invalid segment_id."))) /\
  (g < 2 ^ 36 -> s < 2 ^ 14 -> t < 2 ^ 14 ->
   MorphPartId_new g s t
   = ([], inr (mkMorphPartId (mkShapeId (g * 2 ^ 28 + s * 2 ^ 14 + t))))).
Proof.
  intros Hg Hs Ht.
  pose proof (IdentFacts.is_gid_safe_iff g Hg) as Eg.
  pose proof (IdentFacts.is_section_id_safe_iff s Hs) as Es.
  pose proof (IdentFacts.is_segment_id_safe_iff t Ht) as Et.
  change N_GID_BITS with 36 in Eg. change N_SECTION_BITS with 14 in Es.
  change N_SEGMENT_BITS with 14 in Et.
  unfold MorphPartId_new.
  destruct (is_gid_safe g) eqn:Sg; destruct (is_section_id_safe s) eqn:Ss;
    destruct (is_segment_id_safe t) eqn:St; cbn [andb negb];
    repeat split; intros;
    try (pose proof (proj1 Eg eq_refl)); try (pose proof (proj1 Es eq_refl));
    try (pose proof (proj1 Et eq_refl));
    try (assert (g < 2 ^ 36 -> false = true) by (apply Eg));
    try (assert (s < 2 ^ 14 -> false = true) by (apply Es));
    try (assert (t < 2 ^ 14 -> false = true) by (apply Et));
    try reflexivity; try lia; try (exfalso; intuition congruence).
  unfold is_identifier_t, is_unsigned in *.
  rewrite IdentFacts.packed_id_in_range by
    (change N_GID_BITS with 36; change N_SECTION_BITS with 14;
     change N_SEGMENT_BITS with 14; lia).
  reflexivity.
Qed.

(** X4. What the constructor of [MorphPartId] reports, and in which order: the
    gid is judged first, then the section id, then the segment id; a refusal
    logs one line, a success none. *)
Theorem MorphPartId_new_error_precedence (g s t : Z) :
  is_identifier_t g -> is_unsigned s -> is_unsigned t ->
  (2 ^ 36 <= g ->
   MorphPartId_new g s t
   = ([too_large_message], inl (runtime_error "Invalid gid."))) /\
  (g < 2 ^ 36 -> 2 ^ 14 <= s ->
   MorphPartId_new g s t
   = ([too_large_message], inl (runtime_error "Invalid section_id."))) /\
  (g < 2 ^ 36 -> s < 2 ^ 14 -> 2 ^ 14 <= t ->
   MorphPartId_new g s t
   = ([too_large_message], inl (runtime_error "Invalid segment_id."))) /\
  (g < 2 ^ 36 -> s < 2 ^ 14 -> t < 2 ^ 14 ->
   MorphPartId_new g s t
   = ([], inr (mkMorphPartId (mkShapeId (g * 2 ^ 28 + s * 2 ^ 14 + t))))).
Proof. exact (MorphPartId_new_cases g s t). Qed.

Lemma MorphPartId_new_error_precedence_witness :
  MorphPartId_new 5 (2 ^ 14) (2 ^ 20)
  = ([too_large_message], inl (runtime_error "Invalid section_id.")).
Proof.
  apply (MorphPartId_new_error_precedence 5 (2 ^ 14) (2 ^ 20));
    unfold is_identifier_t, is_unsigned; vm_compute; intuition congruence.
Defined.

Section Constructors.
Context {C : Type} {coord : CoordType C}.
Import Constructors.

(** X5. [Segment(gid, section_id, segment_id, center1, center2, r)] is declared
    [noexcept] and builds its ids with the throwing constructor of
    [MorphPartId]: with the ids within their widths it returns the segment
    carrying them and the cylinder; with an id out of range the exception
    cannot leave the constructor and the program is terminated.  [Soma],
    whose inherited constructor is not [noexcept], throws instead. *)
Theorem Segment_new_terminates_on_invalid_id
    (g s t : Z) (center1 center2 : Point3D C) (r : C) :
  is_identifier_t g -> is_unsigned s -> is_unsigned t ->
  (g < 2 ^ 36 /\ s < 2 ^ 14 /\ t < 2 ^ 14 ->
   exists seg, snd (Segment_new g s t center1 center2 r) = Returned seg /\
               gid (Segment.ids seg) = g /\
               section_id (Segment.ids seg) = s /\
               segment_id (Segment.ids seg) = t /\
               Segment.shape seg = Cylinder.mk center1 center2 r)
  /\
  (2 ^ 36 <= g \/ 2 ^ 14 <= s \/ 2 ^ 14 <= t ->
   snd (Segment_new g s t center1 center2 r) = Terminated)
  /\
  (2 ^ 36 <= g ->
   snd (Soma_new g center1 r) = Thrown (runtime_error "Invalid gid.")).
Proof.
  intros Hg Hs Ht.
  destruct (MorphPartId_new_cases g s t Hg Hs Ht) as (Cg & Cs & Ct & Cok).
  unfold is_identifier_t, is_unsigned in *.
  split; [|split].
  - intros (Bg & Bs & Bt). unfold Segment_new.
    rewrite (Cok Bg Bs Bt). cbn [snd noexcept].
    eexists. split; [reflexivity|]. cbn [Segment.ids Segment.shape].
    rewrite <- (IdentFacts.packed_id_in_range g s t) by
      (change N_GID_BITS with 36; change N_SECTION_BITS with 14;
       change N_SEGMENT_BITS with 14; lia).
    repeat split;
      [ apply IdentFacts.gid_packed | apply IdentFacts.section_id_packed
      | apply IdentFacts.segment_id_packed ];
      change N_GID_BITS with 36; change N_SECTION_BITS with 14;
      change N_SEGMENT_BITS with 14; lia.
  - intros Hbad. unfold Segment_new.
    destruct (Z.lt_ge_cases g (2 ^ 36)) as [Bg|Bg]; [|now rewrite (Cg Bg)].
    destruct (Z.lt_ge_cases s (2 ^ 14)) as [Bs|Bs]; [|now rewrite (Cs Bg Bs)].
    destruct (Z.lt_ge_cases t (2 ^ 14)) as [Bt|Bt]; [|now rewrite (Ct Bg Bs Bt)].
    lia.
  - intros Bg. unfold Soma_new.
    destruct (MorphPartId_new_cases g 0 0 Hg) as (Cg0 & _);
      [unfold is_unsigned; cbv; intuition congruence ..|].
    now rewrite (Cg0 Bg).
Qed.

End Constructors.

Lemma Segment_new_terminates_on_invalid_id_witness :
  snd (Constructors.Segment_new (2 ^ 36) 0 0
         (mkPoint3D 0%R 0%R 0%R) (mkPoint3D 0%R 5%R 0%R) 2%R)
  = Terminated.
Proof.
  apply (Segment_new_terminates_on_invalid_id (2 ^ 36) 0 0);
    unfold is_identifier_t, is_unsigned; vm_compute; intuition congruence.
Defined.

End IdentMore.

(** ** Points *)

Module PointMore.
Import Point3Dx.
Local Open Scope R_scope.

Lemma bool_eq_iff (b1 b2 : bool) : (b1 = true <-> b2 = true) -> b1 = b2.
Proof. destruct b1, b2; intuition congruence. Qed.

Lemma Point3D_ext (p q : Point3D R) :
  get0 p = get0 q -> get1 p = get1 q -> get2 p = get2 q -> p = q.
Proof. destruct p, q. cbn. intros -> -> ->. reflexivity. Qed.

Lemma eq_iff (p q : Point3D R) :
  eq p q = true <-> dist_sq p q = 0 \/ dist_sq p q < norm_sq p * / 100000000.
Proof.
  unfold eq. cbn [ceqb cltb cmul of_Z Rcoord lit_1e_8f].
  destruct (Reqb (dist_sq p q) 0) eqn:E.
  - apply RFacts.Reqb_iff in E. tauto.
  - rewrite RFacts.Rltb_iff. split; [tauto|]. intros [H|H]; [|exact H].
    apply RFacts.Reqb_iff in H. congruence.
Qed.

Lemma dist_sq_nonneg (p q : Point3D R) : 0 <= dist_sq p q.
Proof.
  unfold dist_sq, dot, sub, subtract_point. cbn.
  generalize (get0 p - get0 q) (get1 p - get1 q) (get2 p - get2 q).
  intros a b c. nra.
Qed.

Lemma dist_sq_zero_iff (p q : Point3D R) : dist_sq p q = 0 <-> p = q.
Proof.
  split.
  - unfold dist_sq, dot, sub, subtract_point. cbn. intros H.
    assert (Ha : get0 p - get0 q = 0 /\ get1 p - get1 q = 0 /\ get2 p - get2 q = 0).
    { revert H.
      generalize (get0 p - get0 q) (get1 p - get1 q) (get2 p - get2 q).
      intros a b c H. repeat split; nra. }
    apply Point3D_ext; lra.
  - intros ->. unfold dist_sq, dot, sub, subtract_point. cbn. ring.
Qed.

(** X6. The squared distance is a squared distance: never negative, the same in
    both directions, and zero exactly between a point and itself. *)
Theorem dist_sq_is_a_squared_metric (p q : Point3D R) :
  0 <= dist_sq p q /\ dist_sq p q = dist_sq q p /\ (dist_sq p q = 0 <-> p = q).
Proof.
  split; [apply dist_sq_nonneg|]. split; [apply PointFacts.dist_sq_sym|].
  apply dist_sq_zero_iff.
Qed.

(** X7. The tolerance of [operator==] is relative: scaling both points by the
    same non-zero factor does not change the answer.  At the origin the
    tolerance is zero, and the origin equals no other point. *)
Theorem Point3D_eq_scale_invariant (p q : Point3D R) (k : R) :
  k <> 0 ->
  Point3D_eq (mul_val p k) (mul_val q k) = Point3D_eq p q
  /\ (Point3D_eq (mkPoint3D 0 0 0) q = true <-> q = mkPoint3D 0 0 0).
Proof.
  intros Hk. split.
  - unfold Point3D_eq. apply bool_eq_iff. rewrite !eq_iff.
    assert (Hd : dist_sq (mul_val p k) (mul_val q k) = k * k * dist_sq p q).
    { unfold dist_sq, dot, sub, mul_val, subtract_point, multiply_value. cbn. ring. }
    assert (Hn : norm_sq (mul_val p k) = k * k * norm_sq p).
    { unfold norm_sq, mul_val, multiply_value. cbn. ring. }
    rewrite Hd, Hn.
    assert (Hkk : 0 < k * k) by nra.
    split; (intros [H|H]; [left | right]); nra.
  - unfold Point3D_eq. rewrite eq_iff.
    replace (norm_sq (mkPoint3D 0 0 0)) with 0
      by (unfold norm_sq; cbn; ring).
    pose proof (dist_sq_nonneg (mkPoint3D 0 0 0) q) as Hnn.
    rewrite Rmult_0_l. split.
    + intros [H|H]; [|lra]. symmetry. now apply dist_sq_zero_iff.
    + intros ->. left. now apply dist_sq_zero_iff.
Qed.

Lemma Point3D_eq_scale_invariant_witness :
  Point3D_eq (mul_val (mkPoint3D 1 2 3) 1000) (mul_val (mkPoint3D 1 2 4) 1000)
  = Point3D_eq (mkPoint3D 1 2 3) (mkPoint3D 1 2 4).
Proof.
  apply (Point3D_eq_scale_invariant (mkPoint3D 1 2 3) (mkPoint3D 1 2 4) 1000).
  lra.
Defined.

(** X8. The free operators for a left operand that is not a [Point3Dx] give
    what their names say: [v - point], written [(point * -1.) + v], is the
    difference coordinate by coordinate, for a point and for a scalar, and
    [v + point] and [v * point] are the sum and the product. *)
Theorem free_operators_agree_with_members (v point : Point3D R) (x : R) :
  pt_sub v point = sub v point /\
  pt_add v point = add v point /\
  val_sub x point
  = mkPoint3D (x - get0 point) (x - get1 point) (x - get2 point) /\
  val_add x point
  = mkPoint3D (x + get0 point) (x + get1 point) (x + get2 point) /\
  val_mul x point
  = mkPoint3D (x * get0 point) (x * get1 point) (x * get2 point).
Proof.
  unfold pt_sub, pt_add, val_sub, val_add, val_mul, sub, add, add_val, mul_val,
    add_point, subtract_point, add_value, multiply_value.
  cbn. repeat split; f_equal; ring.
Qed.

Lemma std_min_max_spec (a b : R) :
  std_min a b <= a /\ std_min a b <= b /\ a <= std_max a b /\ b <= std_max a b /\
  (std_min a b = a \/ std_min a b = b) /\ (std_max a b = a \/ std_max a b = b) /\
  std_min a b + std_max a b = a + b.
Proof.
  unfold std_min, std_max. cbn [cltb Rcoord]. unfold Rltb.
  destruct (Rlt_dec b a), (Rlt_dec a b);
    repeat split; first [ lra | left; lra | right; lra ].
Qed.

(** X9. [min] and [max] take, coordinate by coordinate, the smaller and the
    larger of the two coordinates: [min(p, q)] is below both points,
    [max(p, q)] above both, so [min(p, q)] and [max(p, q)] are the corners
    of a box that is not inverted, and each of their coordinates is that of
    one of the two points. *)
Theorem min_max_are_box_corners (p q : Point3D R) :
  coordinatewise_le (min p q) p /\ coordinatewise_le (min p q) q /\
  coordinatewise_le p (max p q) /\ coordinatewise_le q (max p q) /\
  coordinatewise_le (min p q) (max p q) /\
  add (min p q) (max p q) = add p q.
Proof.
  pose proof (std_min_max_spec (get0 p) (get0 q)) as H0.
  pose proof (std_min_max_spec (get1 p) (get1 q)) as H1.
  pose proof (std_min_max_spec (get2 p) (get2 q)) as H2.
  unfold coordinatewise_le, min, max, add, add_point.
  cbn [get0 get1 get2 cadd Rcoord].
  repeat split; try lra.
  f_equal; lra.
Qed.

End PointMore.

(** ** Projections *)

Module ProjectionMore.
Import Point3Dx Geometry.
Local Open Scope R_scope.

(** The three cases of [std::min(std::max(x, low), high)]. *)
Lemma clamp_cases (x low high : R) :
  low <= high ->
  low <= clamp x low high <= high /\
  (low <= x <= high -> clamp x low high = x) /\
  (x < low -> clamp x low high = low) /\
  (high < x -> clamp x low high = high).
Proof.
  intros Hlh. unfold clamp, std_min, std_max. cbn [cltb Rcoord]. unfold Rltb.
  destruct (Rlt_dec x low); destruct (Rlt_dec high low);
    destruct (Rlt_dec high x); repeat split; intros; lra.
Qed.

(** X10. [clamp(x, low, high)] with [low <= high] lies in [[low, high]]: it is
    [x] inside the interval, [low] below it and [high] above it. *)
Theorem clamp_into_interval (x low high : R) :
  low <= high ->
  low <= clamp x low high <= high /\
  (low <= x <= high -> clamp x low high = x) /\
  (x < low -> clamp x low high = low) /\
  (high < x -> clamp x low high = high).
Proof. exact (clamp_cases x low high). Qed.

Lemma clamp_into_interval_witness :
  0 <= clamp (7 / 2) 0 1 <= 1 /\
  (0 <= 7 / 2 <= 1 -> clamp (7 / 2) 0 1 = 7 / 2) /\
  (7 / 2 < 0 -> clamp (7 / 2) 0 1 = 0) /\
  (1 < 7 / 2 -> clamp (7 / 2) 0 1 = 1).
Proof. apply (clamp_into_interval (7 / 2) 0 1). lra. Defined.

(** The squared distance from [x] to the point of the line at parameter
    [t], as a polynomial in [t]. *)
Lemma dist_sq_point_at (base dir x : Point3D R) (t : R) :
  dist_sq x (point_at base dir t)
  = norm_sq (sub x base) - 2 * t * dot (sub x base) dir + t * t * dot dir dir.
Proof.
  unfold dist_sq, norm_sq, dot, sub, subtract_point, point_at. cbn. ring.
Qed.

Lemma project_point_onto_line_point_at (base dir x : Point3D R) :
  project_point_onto_line base dir x
  = point_at base dir (dot (sub x base) dir / dot dir dir).
Proof.
  unfold project_point_onto_line, point_at, add, div_val, val_mul, mul_val,
    add_point, divide_value, multiply_value.
  cbn [get0 get1 get2 cadd cdiv cmul Rcoord].
  f_equal; unfold Rdiv; ring.
Qed.

Lemma project_point_onto_segment_point_at (base dir x : Point3D R) :
  project_point_onto_segment base dir x
  = point_at base dir (clamp (dot (sub x base) dir / norm_sq dir) 0 1).
Proof.
  unfold project_point_onto_segment, point_at, add, val_mul, mul_val,
    add_point, multiply_value.
  cbn [get0 get1 get2 cadd cdiv cmul of_Z Rcoord].
  f_equal; ring.
Qed.

Lemma norm_sq_dot (p : Point3D R) : norm_sq p = dot p p.
Proof. reflexivity. Qed.

(** X11. [project_point_onto_line] returns the foot of the perpendicular from
    [x] to the line through [base] with direction [dir]: a point of the
    line, with [x] minus it orthogonal to [dir], and no point of the line is
    closer to [x]. *)
Theorem project_point_onto_line_is_the_foot (base dir x : Point3D R) :
  0 < dot dir dir ->
  let foot := project_point_onto_line base dir x in
  (exists t, foot = point_at base dir t) /\
  dot (sub x foot) dir = 0 /\
  (forall t, dist_sq x foot <= dist_sq x (point_at base dir t)).
Proof.
  intros Hn foot. unfold foot. rewrite project_point_onto_line_point_at.
  set (q := dot (sub x base) dir). set (n := dot dir dir) in *.
  assert (Hs : q / n * n = q) by (field; lra).
  split; [eexists; reflexivity|]. split.
  - transitivity (q - q / n * n).
    + unfold q, n, dot, sub, subtract_point, point_at. cbn. ring.
    + lra.
  - intros t. rewrite !dist_sq_point_at. fold q n.
    generalize dependent (q / n). intros s0 Hs.
    generalize (norm_sq (sub x base)). intros m.
    clearbody q n. clear foot.
    assert (0 <= n * ((t - s0) * (t - s0))) by
      (apply Rmult_le_pos; [lra | apply Rle_0_sqr]).
    nra.
Qed.

Lemma project_point_onto_line_is_the_foot_witness :
  let foot :=
    project_point_onto_line (mkPoint3D 0 0 0) (mkPoint3D 2 0 0) (mkPoint3D 3 4 0) in
  (exists t, foot = point_at (mkPoint3D 0 0 0) (mkPoint3D 2 0 0) t) /\
  dot (sub (mkPoint3D 3 4 0) foot) (mkPoint3D 2 0 0) = 0 /\
  (forall t, dist_sq (mkPoint3D 3 4 0) foot
             <= dist_sq (mkPoint3D 3 4 0)
                        (point_at (mkPoint3D 0 0 0) (mkPoint3D 2 0 0) t)).
Proof.
  apply (project_point_onto_line_is_the_foot
           (mkPoint3D 0 0 0) (mkPoint3D 2 0 0) (mkPoint3D 3 4 0)).
  unfold dot. cbn. lra.
Defined.

(** X12. [project_point_onto_segment] returns the point of the segment from
    [base] to [base + dir] that is closest to [x]: its parameter lies in
    [[0, 1]], and no point of the segment is closer to [x]. *)
Theorem project_point_onto_segment_is_closest (base dir x : Point3D R) :
  0 < norm_sq dir ->
  let proj := project_point_onto_segment base dir x in
  (exists c, 0 <= c <= 1 /\ proj = point_at base dir c) /\
  (forall t, 0 <= t <= 1 ->
             dist_sq x proj <= dist_sq x (point_at base dir t)).
Proof.
  intros Hn proj. unfold proj. rewrite project_point_onto_segment_point_at.
  rewrite norm_sq_dot in *.
  set (q := dot (sub x base) dir). set (n := dot dir dir) in *.
  assert (Hs : q / n * n = q) by (field; lra).
  generalize dependent (q / n). intros s0 Hs.
  destruct (clamp_cases s0 0 1 ltac:(lra)) as (Hin & Hmid & Hlow & Hhigh).
  split.
  - exists (clamp s0 0 1). split; [exact Hin | reflexivity].
  - intros t Ht. rewrite !dist_sq_point_at. fold q n.
    generalize (norm_sq (sub x base)). intros m.
    clearbody q n. clear proj.
    destruct (Rlt_dec s0 0) as [L|L].
    + rewrite (Hlow L).
      assert (0 <= n * (t * (t - 2 * s0))) by
        (apply Rmult_le_pos; [lra | apply Rmult_le_pos; lra]).
      nra.
    + destruct (Rlt_dec 1 s0) as [U|U].
      * rewrite (Hhigh U).
        assert (0 <= n * ((1 - t) * (2 * s0 - 1 - t))) by
          (apply Rmult_le_pos; [lra | apply Rmult_le_pos; lra]).
        nra.
      * rewrite (Hmid ltac:(lra)).
        assert (0 <= n * ((t - s0) * (t - s0))) by
          (apply Rmult_le_pos; [lra | apply Rle_0_sqr]).
        nra.
Qed.

Lemma project_point_onto_segment_is_closest_witness :
  let proj :=
    project_point_onto_segment (mkPoint3D 0 0 0) (mkPoint3D 2 0 0) (mkPoint3D 3 4 0) in
  (exists c, 0 <= c <= 1 /\ proj = point_at (mkPoint3D 0 0 0) (mkPoint3D 2 0 0) c) /\
  (forall t, 0 <= t <= 1 ->
             dist_sq (mkPoint3D 3 4 0) proj
             <= dist_sq (mkPoint3D 3 4 0)
                        (point_at (mkPoint3D 0 0 0) (mkPoint3D 2 0 0) t)).
Proof.
  apply (project_point_onto_segment_is_closest
           (mkPoint3D 0 0 0) (mkPoint3D 2 0 0) (mkPoint3D 3 4 0)).
  unfold norm_sq. cbn. lra.
Defined.

End ProjectionMore.

(** ** The distance of two segments *)

Module SegmentDistanceMore.
Import Point3Dx Geometry.
Local Open Scope R_scope.

(** [distance_segment_segment] is the norm of [w + sc * u - tc * v] at the
    parameters of [closest_parameters]. *)
Lemma distance_segment_segment_parameters (s1_0 s1_1 s2_0 s2_1 : Point3D R) :
  let u := sub s1_1 s1_0 in
  let v := sub s2_1 s2_0 in
  let w := sub s1_0 s2_0 in
  let st := closest_parameters (dot u u) (dot u v) (dot v v) (dot u w) (dot v w) in
  distance_segment_segment s1_0 s1_1 s2_0 s2_1
  = norm (sub (add w (val_mul (fst st) u)) (val_mul (snd st) v)).
Proof.
  intros u v w st. unfold st, distance_segment_segment, closest_parameters.
  fold u v w.
  generalize (dot u u) (dot u v) (dot v v) (dot u w) (dot v w).
  intros a b c d e.
  cbn [cltb cleb csub cmul cdiv cadd copp cabs of_Z lit_1e_6 Rcoord].
  repeat match goal with
         | |- context [Rltb ?x ?y] => destruct (Rltb x y)
         end; reflexivity.
Qed.

Lemma unit_quotient (n d : R) : 0 <= n <= d -> 0 < d -> 0 <= n / d <= 1.
Proof.
  intros Hn Hd. split.
  - apply Rmult_le_pos; [lra | left; now apply Rinv_0_lt_compat].
  - apply (Rmult_le_reg_r d); [exact Hd|].
    replace (n / d * d) with n by (field; lra). lra.
Qed.

(** Both parameters lie in [[0, 1]], for dot products [a] and [c] of a
    vector with itself. *)
Lemma closest_parameters_in_unit_interval (a b c d e : R) :
  0 <= a -> 0 <= c ->
  let st := closest_parameters a b c d e in
  0 <= fst st <= 1 /\ 0 <= snd st <= 1.
Proof.
  intros Ha Hc. unfold closest_parameters.
  cbn [cltb cleb csub cmul cdiv cadd copp cabs of_Z lit_1e_6 Rcoord].
  set (D := a * c - b * b).
  set (sN0 := b * e - c * d). set (tN0 := a * e - b * d).
  clearbody D sN0 tN0.
  unfold Rltb.
  repeat match goal with
         | |- context [Rlt_dec ?x ?y] => destruct (Rlt_dec x y)
         end;
    cbn [fst snd];
    repeat match goal with
           | H : Rabs ?x < _ |- _ => revert H
           | H : ~ Rabs ?x < _ |- _ => revert H
           end;
    unfold Rabs;
    repeat match goal with
           | |- context [Rcase_abs ?x] => destruct (Rcase_abs x)
           end;
    intros;
    split; first [ lra | apply unit_quotient; lra ].
Qed.

(** X13. The distance that [distance_segment_segment] returns is the distance
    of two points, one on each segment: it is never below the least
    distance of the two segments. *)
Theorem distance_segment_segment_is_attained (s1_0 s1_1 s2_0 s2_1 : Point3D R) :
  exists sc tc,
    0 <= sc <= 1 /\ 0 <= tc <= 1 /\
    distance_segment_segment s1_0 s1_1 s2_0 s2_1
    = R_sqrt.sqrt (dist_sq (point_at s1_0 (sub s1_1 s1_0) sc)
                           (point_at s2_0 (sub s2_1 s2_0) tc)).
Proof.
  pose proof (distance_segment_segment_parameters s1_0 s1_1 s2_0 s2_1) as E.
  cbv zeta in E.
  set (u := sub s1_1 s1_0) in *. set (v := sub s2_1 s2_0) in *.
  set (w := sub s1_0 s2_0) in *.
  destruct (closest_parameters_in_unit_interval
              (dot u u) (dot u v) (dot v v) (dot u w) (dot v w))
    as [Hs Ht].
  { exact (PointFacts.norm_sq_nonneg u). }
  { exact (PointFacts.norm_sq_nonneg v). }
  cbv zeta in Hs, Ht.
  set (st := closest_parameters (dot u u) (dot u v) (dot v v) (dot u w) (dot v w)) in *.
  exists (fst st), (snd st). split; [exact Hs|]. split; [exact Ht|].
  rewrite E. unfold norm. cbn [csqrt Rcoord]. f_equal.
  generalize (fst st) (snd st). intros sc tc.
  unfold w, u, v, dist_sq, norm_sq, dot, sub, add, val_mul, mul_val, add_point,
    subtract_point, multiply_value, point_at.
  cbn. ring.
Qed.

(** With the first end points of the two segments at the same place
    ([d = e = 0]) both parameters are 0. *)
Lemma closest_parameters_no_offset (a b c : R) :
  0 <= c -> closest_parameters a b c 0 0 = (0, 0).
Proof.
  intros Hc. unfold closest_parameters.
  cbn [cltb cleb csub cmul cdiv cadd copp cabs of_Z lit_1e_6 Rcoord].
  destruct (Rltb (a * c - b * b) (/ 1000000)) eqn:ED.
  - cbv beta iota zeta. Rdecide. cbv beta iota zeta.
    rewrite Rabs_R0. Rdecide. reflexivity.
  - assert (HD : / 1000000 <= a * c - b * b).
    { destruct (Rle_dec (/ 1000000) (a * c - b * b)) as [|N]; [assumption|].
      rewrite RFacts.Rltb_true in ED by lra. discriminate. }
    cbv beta iota zeta.
    rewrite (RFacts.Rltb_false (b * 0 - c * 0) 0) by lra.
    rewrite (RFacts.Rltb_false (a * c - b * b) (b * 0 - c * 0)) by lra.
    cbv beta iota zeta.
    rewrite (RFacts.Rltb_false (a * 0 - b * 0) 0) by lra.
    rewrite (RFacts.Rltb_false (a * c - b * b) (a * 0 - b * 0)) by lra.
    cbv beta iota zeta.
    replace (b * 0 - c * 0) with 0 by ring.
    replace (a * 0 - b * 0) with 0 by ring.
    rewrite Rabs_R0. Rdecide. reflexivity.
Qed.

(** X14. Two cylinders whose axes start at the same point are at distance 0 and
    intersect, whatever the directions and lengths of the axes, as soon as
    the sum of the radii is not negative. *)
Theorem cylinders_with_common_start_intersect (c1 c2 : Cylinder.t R) :
  Cylinder.p1 c1 = Cylinder.p1 c2 ->
  0 <= Cylinder.radius c1 + Cylinder.radius c2 ->
  distance_segment_segment (Cylinder.p1 c1) (Cylinder.p2 c1)
                           (Cylinder.p1 c2) (Cylinder.p2 c2) = 0
  /\ Cylinder_intersects_Cylinder c1 c2 = true.
Proof.
  intros Hp Hr.
  assert (E : distance_segment_segment (Cylinder.p1 c1) (Cylinder.p2 c1)
                (Cylinder.p1 c2) (Cylinder.p2 c2) = 0).
  { rewrite distance_segment_segment_parameters. cbv zeta. rewrite <- Hp.
    set (u := sub (Cylinder.p2 c1) (Cylinder.p1 c1)).
    set (v := sub (Cylinder.p2 c2) (Cylinder.p1 c1)).
    assert (Hw : forall x, dot x (sub (Cylinder.p1 c1) (Cylinder.p1 c1)) = 0).
    { intros x. unfold dot, sub, subtract_point. cbn. ring. }
    rewrite !Hw.
    rewrite closest_parameters_no_offset by exact (PointFacts.norm_sq_nonneg v).
    cbn [fst snd]. unfold norm. cbn [csqrt Rcoord].
    apply RFacts.sqrt_eq_0.
    unfold norm_sq, sub, add, val_mul, mul_val, add_point, subtract_point,
      multiply_value.
    cbn. ring. }
  split; [exact E|].
  unfold Cylinder_intersects_Cylinder. rewrite E.
  cbn [cleb cadd Rcoord]. now apply RFacts.Rleb_true.
Qed.

Lemma cylinders_with_common_start_intersect_witness :
  distance_segment_segment (mkPoint3D 1 1 1) (mkPoint3D 4 1 1)
                           (mkPoint3D 1 1 1) (mkPoint3D 1 6 2) = 0
  /\ Cylinder_intersects_Cylinder
       (Cylinder.mk (mkPoint3D 1 1 1) (mkPoint3D 4 1 1) (1 / 2))
       (Cylinder.mk (mkPoint3D 1 1 1) (mkPoint3D 1 6 2) (1 / 4)) = true.
Proof.
  apply (cylinders_with_common_start_intersect
           (Cylinder.mk (mkPoint3D 1 1 1) (mkPoint3D 4 1 1) (1 / 2))
           (Cylinder.mk (mkPoint3D 1 1 1) (mkPoint3D 1 6 2) (1 / 4))).
  - reflexivity.
  - cbn. lra.
Defined.

(** X15. Two cylinders of length zero are tested as the two spheres they are:
    the distance found is that of the two points, no 0 / 0 being formed, and
    they intersect exactly when the points are no further apart than the
    sum of the radii. *)
Theorem zero_length_cylinders_are_spheres (p q : Point3D R) (r r' : R) :
  0 <= r + r' ->
  distance_segment_segment p p q q = R_sqrt.sqrt (dist_sq p q)
  /\ (Cylinder_intersects_Cylinder (Cylinder.mk p p r) (Cylinder.mk q q r') = true
      <-> dist_sq p q <= (r + r') * (r + r')).
Proof.
  intros Hr.
  assert (E : distance_segment_segment p p q q = R_sqrt.sqrt (dist_sq p q)).
  { rewrite distance_segment_segment_parameters. cbv zeta.
    assert (H0 : forall x, dot (sub p p) x = 0).
    { intros x. unfold dot, sub, subtract_point. cbn. ring. }
    assert (H1 : forall x, dot (sub q q) x = 0).
    { intros x. unfold dot, sub, subtract_point. cbn. ring. }
    rewrite !H0, !H1.
    rewrite closest_parameters_no_offset by lra.
    cbn [fst snd]. unfold norm. cbn [csqrt Rcoord]. f_equal.
    unfold dist_sq, dot, norm_sq, sub, add, val_mul, mul_val, add_point,
      subtract_point, multiply_value.
    cbn. ring. }
  split; [exact E|].
  unfold Cylinder_intersects_Cylinder.
  cbn [Cylinder.p1 Cylinder.p2 Cylinder.radius cleb cadd Rcoord].
  rewrite E, RFacts.Rleb_iff.
  apply RFacts.sqrt_le_iff; [apply PointMore.dist_sq_nonneg | exact Hr].
Qed.

Lemma zero_length_cylinders_are_spheres_witness :
  distance_segment_segment (mkPoint3D 0 0 0) (mkPoint3D 0 0 0)
                           (mkPoint3D 3 4 0) (mkPoint3D 3 4 0)
  = R_sqrt.sqrt (dist_sq (mkPoint3D 0 0 0) (mkPoint3D 3 4 0))
  /\ (Cylinder_intersects_Cylinder
        (Cylinder.mk (mkPoint3D 0 0 0) (mkPoint3D 0 0 0) 2)
        (Cylinder.mk (mkPoint3D 3 4 0) (mkPoint3D 3 4 0) 3) = true
      <-> dist_sq (mkPoint3D 0 0 0) (mkPoint3D 3 4 0) <= (2 + 3) * (2 + 3)).
Proof.
  apply (zero_length_cylinders_are_spheres (mkPoint3D 0 0 0) (mkPoint3D 3 4 0) 2 3).
  lra.
Defined.

Lemma norm_sq_offset_expand (w u v : Point3D R) (s t : R) :
  norm_sq (sub (add w (val_mul s u)) (val_mul t v))
  = norm_sq w + s * s * dot u u + t * t * dot v v
    + 2 * s * dot u w - 2 * t * dot v w - 2 * s * t * dot u v.
Proof.
  unfold norm_sq, dot, sub, add, val_mul, mul_val, add_point, subtract_point,
    multiply_value.
  cbn [get0 get1 get2 cadd csub cmul Rcoord]. ring.
Qed.

Lemma dist_sq_two_lines (p u q v : Point3D R) (s t : R) :
  dist_sq (point_at p u s) (point_at q v t)
  = norm_sq (sub (add (sub p q) (val_mul s u)) (val_mul t v)).
Proof.
  unfold dist_sq, norm_sq, dot, sub, add, val_mul, mul_val, add_point,
    subtract_point, multiply_value, point_at.
  cbn [get0 get1 get2 cadd csub cmul Rcoord]. ring.
Qed.

(** The quadratic that the squared distance of two points of the lines is
    in the two parameters has its least value where both partial
    derivatives vanish, at [sN / D] and [tN / D]. *)
Lemma least_at_critical_point (a b c d e ww s t : R) :
  0 <= a -> 0 < a * c - b * b ->
  let D := a * c - b * b in
  let sc := (b * e - c * d) / D in
  let tc := (a * e - b * d) / D in
  ww + sc * sc * a + tc * tc * c + 2 * sc * d - 2 * tc * e - 2 * sc * tc * b
  <= ww + s * s * a + t * t * c + 2 * s * d - 2 * t * e - 2 * s * t * b.
Proof.
  intros Ha HD D sc tc.
  assert (Hd : d = tc * b - sc * a) by (unfold sc, tc, D; field; lra).
  assert (He : e = tc * c - sc * b) by (unfold sc, tc, D; field; lra).
  assert (Hpos : 0 < a).
  { destruct (Req_dec a 0) as [Z|Z]; [|lra].
    rewrite Z in HD. assert (0 <= b * b) by apply Rle_0_sqr. lra. }
  clearbody sc tc. clear D.
  set (X := s - sc). set (Y := t - tc).
  assert (Hq : 0 <= a * X * X - 2 * b * X * Y + c * Y * Y).
  { apply Rmult_le_reg_l with a; [exact Hpos|].
    replace (a * 0) with 0 by ring.
    replace (a * (a * X * X - 2 * b * X * Y + c * Y * Y))
      with ((a * X - b * Y) * (a * X - b * Y) + (a * c - b * b) * (Y * Y)) by ring.
    assert (0 <= (a * X - b * Y) * (a * X - b * Y)) by apply Rle_0_sqr.
    assert (0 <= Y * Y) by apply Rle_0_sqr.
    assert (0 <= (a * c - b * b) * (Y * Y)) by (apply Rmult_le_pos; lra).
    lra. }
  unfold X, Y in Hq. subst d e. nra.
Qed.

(** X16. When no guard of [distance_segment_segment] fires for two cylinders,
    the distance it finds is the least distance of the two axis lines, taken
    at points inside both axis segments; [Cylinder::intersects(Cylinder)]
    then says exactly whether two points of the axis segments are no
    further apart than the sum of the radii. *)
Theorem Cylinder_intersects_Cylinder_exact_in_interior (c1 c2 : Cylinder.t R) :
  closest_points_interior c1 c2 = true ->
  0 <= Cylinder.radius c1 + Cylinder.radius c2 ->
  let u := sub (Cylinder.p2 c1) (Cylinder.p1 c1) in
  let v := sub (Cylinder.p2 c2) (Cylinder.p1 c2) in
  (forall s t,
      distance_segment_segment (Cylinder.p1 c1) (Cylinder.p2 c1)
                               (Cylinder.p1 c2) (Cylinder.p2 c2)
      <= R_sqrt.sqrt (dist_sq (point_at (Cylinder.p1 c1) u s)
                              (point_at (Cylinder.p1 c2) v t)))
  /\ (Cylinder_intersects_Cylinder c1 c2 = true <->
      exists s t, 0 <= s <= 1 /\ 0 <= t <= 1 /\
        dist_sq (point_at (Cylinder.p1 c1) u s) (point_at (Cylinder.p1 c2) v t)
        <= (Cylinder.radius c1 + Cylinder.radius c2)
           * (Cylinder.radius c1 + Cylinder.radius c2)).
Proof.
  intros Hint Hr u v.
  apply GeometryFacts.closest_points_interior_iff in Hint. cbv zeta in Hint.
  fold u v in Hint. cbn [lit_1e_6 Rcoord] in Hint.
  set (w := sub (Cylinder.p1 c1) (Cylinder.p1 c2)) in *.
  destruct Hint as (LD & LsN & LtN).
  pose proof (GeometryFacts.distance_segment_segment_interior
                (Cylinder.p1 c1) (Cylinder.p2 c1) (Cylinder.p1 c2) (Cylinder.p2 c2)
                _ _ _ eq_refl eq_refl eq_refl LD LsN LtN) as E.
  fold u v w in E.
  set (D := dot u u * dot v v - dot u v * dot u v) in *.
  set (sN := dot u v * dot v w - dot v v * dot u w) in *.
  set (tN := dot u u * dot v w - dot u v * dot u w) in *.
  assert (HD : 0 < D) by lra.
  assert (Hmin : forall s t,
    norm_sq (sub (add w (val_mul (sN / D) u)) (val_mul (tN / D) v))
    <= dist_sq (point_at (Cylinder.p1 c1) u s) (point_at (Cylinder.p1 c2) v t)).
  { intros s t. rewrite dist_sq_two_lines. fold w.
    rewrite !norm_sq_offset_expand.
    apply (least_at_critical_point (dot u u) (dot u v) (dot v v) (dot u w)
             (dot v w) (norm_sq w) s t).
    - exact (PointFacts.norm_sq_nonneg u).
    - exact HD. }
  assert (Hsc : 0 <= sN / D <= 1)
    by (apply unit_quotient; lra).
  assert (Htc : 0 <= tN / D <= 1)
    by (apply unit_quotient; lra).
  split.
  - intros s t. rewrite E. unfold norm. cbn [csqrt Rcoord].
    apply sqrt_le_1_alt, Hmin.
  - unfold Cylinder_intersects_Cylinder. cbv zeta. rewrite E.
    cbn [cleb cadd Rcoord]. rewrite RFacts.Rleb_iff.
    unfold norm. cbn [csqrt Rcoord].
    rewrite RFacts.sqrt_le_iff by (try apply PointFacts.norm_sq_nonneg; exact Hr).
    split.
    + intros H. exists (sN / D), (tN / D). split; [exact Hsc|]. split; [exact Htc|].
      rewrite dist_sq_two_lines. exact H.
    + intros (s & t & _ & _ & H). eapply Rle_trans; [apply Hmin | exact H].
Qed.

(** Two crossing axes at distance 1, with the closest points in the middle
    of both. *)
Lemma Cylinder_intersects_Cylinder_exact_in_interior_witness :
  let c1 := Cylinder.mk (mkPoint3D (-1) 0 0) (mkPoint3D 1 0 0) (1 / 2) in
  let c2 := Cylinder.mk (mkPoint3D 0 (-1) 1) (mkPoint3D 0 1 1) (1 / 2) in
  let u := sub (Cylinder.p2 c1) (Cylinder.p1 c1) in
  let v := sub (Cylinder.p2 c2) (Cylinder.p1 c2) in
  (forall s t,
      distance_segment_segment (Cylinder.p1 c1) (Cylinder.p2 c1)
                               (Cylinder.p1 c2) (Cylinder.p2 c2)
      <= R_sqrt.sqrt (dist_sq (point_at (Cylinder.p1 c1) u s)
                              (point_at (Cylinder.p1 c2) v t)))
  /\ (Cylinder_intersects_Cylinder c1 c2 = true <->
      exists s t, 0 <= s <= 1 /\ 0 <= t <= 1 /\
        dist_sq (point_at (Cylinder.p1 c1) u s) (point_at (Cylinder.p1 c2) v t)
        <= (Cylinder.radius c1 + Cylinder.radius c2)
           * (Cylinder.radius c1 + Cylinder.radius c2)).
Proof.
  intros c1 c2. apply (Cylinder_intersects_Cylinder_exact_in_interior c1 c2).
  - unfold c1, c2, closest_points_interior, dot, sub, subtract_point. cbn.
    Rdecide. reflexivity.
  - unfold c1, c2. cbn. lra.
Defined.

End SegmentDistanceMore.

(** ** The solid cylinder: [Cylinder::contains] and [Sphere::intersects(Cylinder)] *)

Module SolidCylinderMore.
Import Point3Dx Geometry.
Local Open Scope R_scope.

(** Unfolds the point operations down to the coordinates. *)
Ltac vec_unfold :=
  unfold radial, axial, point_at, dist_sq, pt_sub, pt_add, val_mul, norm_sq, dot,
    cross, sub, add, mul_val, add_point, subtract_point, multiply_value;
  cbn [get0 get1 get2 cadd csub cmul cdiv of_Z Rcoord].

(** *** A point seen from the axis *)

Lemma axial_spec (a v y : Point3D R) :
  0 < dot v v -> axial a v y * dot v v = dot (sub y a) v.
Proof. intros H. unfold axial. field. lra. Qed.

Lemma radial_orthogonal (a v y : Point3D R) :
  0 < dot v v -> dot (radial a v y) v = 0.
Proof.
  intros H. pose proof (axial_spec a v y H) as Ht. unfold radial.
  revert Ht. generalize (axial a v y). intros t Ht.
  transitivity (dot (sub y a) v - t * dot v v); [vec_unfold; ring | lra].
Qed.

Lemma norm_sq_radial (a v y : Point3D R) :
  0 < dot v v ->
  norm_sq (radial a v y)
  = norm_sq (sub y a) - dot (sub y a) v * dot (sub y a) v / dot v v.
Proof.
  intros H. pose proof (axial_spec a v y H) as Ht. unfold radial.
  assert (E : axial a v y = dot (sub y a) v / dot v v) by reflexivity.
  revert Ht E. generalize (axial a v y). intros t Ht E.
  transitivity (norm_sq (sub y a) - 2 * t * dot (sub y a) v + t * (t * dot v v));
    [vec_unfold; ring |].
  rewrite Ht, E. field. lra.
Qed.

Lemma dist_sq_axial_radial (a v y1 y2 : Point3D R) :
  0 < dot v v ->
  dist_sq y1 y2
  = (axial a v y1 - axial a v y2) * (axial a v y1 - axial a v y2) * dot v v
    + norm_sq (sub (radial a v y1) (radial a v y2)).
Proof.
  intros H. pose proof (axial_spec a v y1 H) as H1.
  pose proof (axial_spec a v y2 H) as H2. unfold radial.
  revert H1 H2. generalize (axial a v y1) (axial a v y2). intros t1 t2 H1 H2.
  transitivity
    ((t1 - t2) * (t1 - t2) * dot v v
     + norm_sq (sub (sub y1 (point_at a v t1)) (sub y2 (point_at a v t2)))
     - 2 * (t1 - t2) * ((t1 * dot v v - dot (sub y1 a) v)
                        - (t2 * dot v v - dot (sub y2 a) v)));
    [vec_unfold; ring |].
  rewrite H1, H2. ring.
Qed.

Lemma cauchy_schwarz (a b : Point3D R) :
  dot a b * dot a b <= norm_sq a * norm_sq b.
Proof.
  assert (E : norm_sq a * norm_sq b - dot a b * dot a b = norm_sq (cross a b))
    by (vec_unfold; ring).
  pose proof (PointFacts.norm_sq_nonneg (cross a b)). lra.
Qed.

Lemma norm_sq_add (a b : Point3D R) :
  norm_sq (add a b) = norm_sq a + 2 * dot a b + norm_sq b.
Proof. vec_unfold; ring. Qed.

Lemma dot_le_product (a b : Point3D R) (r1 r2 : R) :
  0 <= r1 -> 0 <= r2 -> norm_sq a <= r1 * r1 -> norm_sq b <= r2 * r2 ->
  dot a b <= r1 * r2.
Proof.
  intros H1 H2 Ha Hb. pose proof (cauchy_schwarz a b) as CS.
  pose proof (PointFacts.norm_sq_nonneg a) as Na.
  pose proof (PointFacts.norm_sq_nonneg b) as Nb.
  revert CS Ha Hb Na Nb. generalize (dot a b) (norm_sq a) (norm_sq b).
  intros d na nb CS Ha Hb Na Nb.
  destruct (Rle_dec d (r1 * r2)) as [|N]; [assumption|exfalso].
  assert (0 <= r1 * r2) by (apply Rmult_le_pos; assumption).
  assert (na * nb <= (r1 * r1) * (r2 * r2)) by (apply Rmult_le_compat; assumption).
  assert (r1 * r2 * (r1 * r2) < d * d) by (apply Rmult_le_0_lt_compat; lra).
  lra.
Qed.

Lemma sub_add_cancel (d w : Point3D R) : add (sub d w) w = d.
Proof. apply PointMore.Point3D_ext; vec_unfold; ring. Qed.

Lemma Cylinder_contains_test_axial_radial (c : Cylinder.t R) (y : Point3D R) :
  0 < v_dot_v c ->
  (Cylinder_contains_test (Cylinder.radius c)
                          (sub (Cylinder.p2 c) (Cylinder.p1 c))
                          (sub y (Cylinder.p1 c)) = true <->
   0 <= axial (Cylinder.p1 c) (sub (Cylinder.p2 c) (Cylinder.p1 c)) y <= 1 /\
   norm_sq (radial (Cylinder.p1 c) (sub (Cylinder.p2 c) (Cylinder.p1 c)) y)
   <= Cylinder.radius c * Cylinder.radius c).
Proof.
  unfold v_dot_v. set (a := Cylinder.p1 c). set (v := sub (Cylinder.p2 c) a).
  intros Hn. change (norm_sq v) with (dot v v) in Hn.
  rewrite norm_sq_radial by exact Hn.
  pose proof (axial_spec a v y Hn) as Ht.
  unfold Cylinder_contains_test. fold a v. change (norm_sq v) with (dot v v).
  cbn [cltb cleb csub cmul cdiv of_Z Rcoord].
  revert Ht. generalize (axial a v y). intros t Ht.
  set (q := dot (sub y a) v) in *. set (n := dot v v) in *.
  assert (Hq : 0 <= t <= 1 <-> 0 <= q <= n).
  { clearbody q n. subst q. split; intros [L U]; split; nra. }
  unfold Rltb. destruct (Rlt_dec q 0) as [L|L]; cbn [orb].
  - split; [discriminate | intros [H _]; apply Hq in H; lra].
  - destruct (Rlt_dec n q) as [U|U]; cbn [orb].
    + split; [discriminate | intros [H _]; apply Hq in H; lra].
    + rewrite RFacts.Rleb_iff. split; [intros H; split; [apply Hq; lra | exact H]
                                      | intros [_ H]; exact H].
Qed.

Lemma point_at_0 (p d : Point3D R) : point_at p d 0 = p.
Proof. apply PointMore.Point3D_ext; vec_unfold; ring. Qed.

Lemma pt_add_val_mul (a v : Point3D R) (t : R) :
  pt_add a (val_mul t v) = point_at a v t.
Proof. apply PointMore.Point3D_ext; vec_unfold; ring. Qed.

(** The body of [Sphere::intersects(Cylinder)] with its locals named. *)
Lemma Sphere_intersects_Cylinder_unfold (s : Sphere.t R) (c : Cylinder.t R) :
  Sphere_intersects_Cylinder s c =
  if Rleb 0 (v_dot_u s c) && Rleb (v_dot_u s c) (v_dot_v c) then
    Rleb (norm_sq (sub (Sphere.centroid s) (Cylinder.p1 c))
          - v_dot_u s c * v_dot_u s c / v_dot_v c)
         ((Sphere.radius s + Cylinder.radius c)
          * (Sphere.radius s + Cylinder.radius c))
  else if Rltb ((Sphere.radius s + Cylinder.radius c)
                * (Sphere.radius s + Cylinder.radius c))
               (norm_sq (pt_sub (Sphere.centroid s) (closer_cap s c)))
  then false
  else
    Rleb (norm_sq
            (pt_sub (Sphere.centroid s)
               (if Rltb (norm (axis_offset s c)) (100 * epsilon)
                then closer_cap s c
                else project_point_onto_segment
                       (pt_sub (closer_cap s c)
                          (mul_val (axis_offset s c)
                             (Cylinder.radius c / norm (axis_offset s c))))
                       (mul_val (axis_offset s c)
                          (2 * Cylinder.radius c / norm (axis_offset s c)))
                       (Sphere.centroid s))))
         (Sphere.radius s * Sphere.radius s).
Proof. reflexivity. Qed.

Section Bridge.
Variables (s : Sphere.t R) (c : Cylinder.t R).

Lemma v_dot_u_axial :
  0 < v_dot_v c ->
  v_dot_u s c
  = axial (Cylinder.p1 c) (sub (Cylinder.p2 c) (Cylinder.p1 c)) (Sphere.centroid s)
    * v_dot_v c.
Proof.
  intros H. unfold v_dot_u, v_dot_v in *.
  change (norm_sq (sub (Cylinder.p2 c) (Cylinder.p1 c)))
    with (dot (sub (Cylinder.p2 c) (Cylinder.p1 c)) (sub (Cylinder.p2 c) (Cylinder.p1 c))) in *.
  rewrite axial_spec by exact H. apply GeometryFacts.dot_comm.
Qed.

Lemma axis_foot_point_at :
  axis_foot s c
  = point_at (Cylinder.p1 c) (sub (Cylinder.p2 c) (Cylinder.p1 c))
      (axial (Cylinder.p1 c) (sub (Cylinder.p2 c) (Cylinder.p1 c)) (Sphere.centroid s)).
Proof.
  unfold axis_foot. rewrite pt_add_val_mul. f_equal.
  unfold v_dot_u, v_dot_v, axial. cbn [cdiv Rcoord].
  rewrite (GeometryFacts.dot_comm (sub (Cylinder.p2 c) (Cylinder.p1 c))). reflexivity.
Qed.

Lemma axis_offset_radial :
  axis_offset s c
  = radial (Cylinder.p1 c) (sub (Cylinder.p2 c) (Cylinder.p1 c)) (Sphere.centroid s).
Proof.
  unfold axis_offset. rewrite PointFacts.pt_sub_sub, axis_foot_point_at. reflexivity.
Qed.

Lemma closer_cap_point_at :
  closer_cap s c
  = point_at (Cylinder.p1 c) (sub (Cylinder.p2 c) (Cylinder.p1 c))
      (if Rltb (v_dot_u s c) 0 then 0 else 1).
Proof.
  unfold closer_cap. cbn [cltb of_Z Rcoord].
  destruct (Rltb (v_dot_u s c) 0).
  - apply PointMore.Point3D_ext; vec_unfold; ring.
  - apply PointMore.Point3D_ext; vec_unfold; ring.
Qed.

End Bridge.

(** The point at parameter [t] of the axis, moved off it by [l] times an
    offset [d] orthogonal to the axis. *)
Lemma axial_offset_point (a v d : Point3D R) (t l : R) :
  0 < dot v v -> dot d v = 0 ->
  axial a v (point_at (point_at a v t) d l) = t.
Proof.
  intros Hn Hd. unfold axial.
  replace (dot (sub (point_at (point_at a v t) d l) a) v)
    with (t * dot v v + l * dot d v) by (vec_unfold; ring).
  rewrite Hd. field. lra.
Qed.

Lemma norm_sq_radial_offset_point (a v d : Point3D R) (t l : R) :
  0 < dot v v -> dot d v = 0 ->
  norm_sq (radial a v (point_at (point_at a v t) d l)) = l * l * norm_sq d.
Proof.
  intros Hn Hd. unfold radial. rewrite axial_offset_point by assumption.
  vec_unfold. ring.
Qed.

Lemma dist_sq_offset_point (a v x : Point3D R) (t l : R) :
  0 < dot v v ->
  dist_sq x (point_at (point_at a v t) (radial a v x) l)
  = (axial a v x - t) * (axial a v x - t) * dot v v
    + (1 - l) * (1 - l) * norm_sq (radial a v x).
Proof.
  intros Hn. pose proof (axial_spec a v x Hn) as Ht. unfold radial.
  revert Ht. generalize (axial a v x). intros s0 Ht.
  transitivity
    ((s0 - t) * (s0 - t) * dot v v
     + (1 - l) * (1 - l) * norm_sq (sub x (point_at a v s0))
     + 2 * (s0 - t) * (1 - l) * (dot (sub x a) v - s0 * dot v v));
    [vec_unfold; ring |].
  rewrite Ht. ring.
Qed.

Lemma dot_cap_radial (a v x : Point3D R) (k : R) :
  0 < dot v v ->
  dot (sub x (point_at a v k)) (radial a v x) = norm_sq (radial a v x).
Proof.
  intros Hn. pose proof (axial_spec a v x Hn) as Ht. unfold radial.
  revert Ht. generalize (axial a v x). intros s0 Ht.
  transitivity
    (norm_sq (sub x (point_at a v s0))
     + (s0 - k) * (dot (sub x a) v - s0 * dot v v));
    [vec_unfold; ring |].
  rewrite Ht. ring.
Qed.

(** The projection of the centre onto the diameter of the cap that points
    at it: the cap centre moved by [d], shortened to the radius of the
    cylinder when [d] is longer. *)
Lemma cap_projection (cap d x : Point3D R) (rc dn : R) :
  0 < rc -> 0 < dn -> dn * dn = norm_sq d ->
  dot (sub x cap) d = norm_sq d ->
  project_point_onto_segment
    (pt_sub cap (mul_val d (rc / dn))) (mul_val d (2 * rc / dn)) x
  = point_at cap d (if Rltb rc dn then rc / dn else 1).
Proof.
  intros Hrc Hdn Hn Hx.
  rewrite ProjectionMore.project_point_onto_segment_point_at.
  assert (E1 : norm_sq (mul_val d (2 * rc / dn)) = 4 * rc * rc).
  { transitivity (norm_sq d * ((2 * rc / dn) * (2 * rc / dn)));
      [vec_unfold; ring |].
    rewrite <- Hn. field. lra. }
  assert (E2 : dot (sub x (pt_sub cap (mul_val d (rc / dn)))) (mul_val d (2 * rc / dn))
               = 2 * rc * (dn + rc)).
  { transitivity ((2 * rc / dn) * (dot (sub x cap) d + rc / dn * norm_sq d));
      [vec_unfold; ring |].
    rewrite Hx, <- Hn. field. lra. }
  rewrite E1, E2.
  replace (2 * rc * (dn + rc) / (4 * rc * rc)) with ((dn + rc) / (2 * rc))
    by (field; lra).
  destruct (ProjectionMore.clamp_cases ((dn + rc) / (2 * rc)) 0 1 ltac:(lra))
    as (_ & Hmid & _ & Hhigh).
  assert (Hq : (dn + rc) / (2 * rc) * (2 * rc) = dn + rc) by (field; lra).
  unfold Rltb. destruct (Rlt_dec rc dn) as [L|L].
  - rewrite Hhigh by nra.
    apply PointMore.Point3D_ext; vec_unfold; field; lra.
  - rewrite Hmid by nra.
    apply PointMore.Point3D_ext; vec_unfold; field; lra.
Qed.

Lemma Sphere_contains_iff (s : Sphere.t R) (y : Point3D R) :
  Sphere_contains s y = true
  <-> dist_sq (Sphere.centroid s) y <= Sphere.radius s * Sphere.radius s.
Proof.
  unfold Sphere_contains. cbn [cleb cmul Rcoord]. rewrite RFacts.Rleb_iff.
  change (norm_sq (sub y (Sphere.centroid s))) with (dist_sq y (Sphere.centroid s)).
  rewrite PointFacts.dist_sq_sym. reflexivity.
Qed.

(** Scalar steps. *)
Lemma scaled_square_le (k S D : R) :
  0 <= k -> 0 < S -> 0 <= D -> D <= S * S -> k / S * (k / S) * D <= k * k.
Proof.
  intros Hk HS HD HDS.
  replace (k / S * (k / S) * D) with (k * k * (D / (S * S))) by (field; lra).
  assert (D / (S * S) <= 1).
  { apply Rmult_le_reg_r with (S * S); [nra|].
    replace (D / (S * S) * (S * S)) with D by (field; lra). lra. }
  assert (0 <= k * k) by nra.
  nra.
Qed.

Lemma reverse_triangle (b g delta D dn rc : R) :
  0 <= b -> 0 <= g -> g <= rc * rc -> 0 <= rc ->
  delta <= R_sqrt.sqrt b * rc ->
  D = b + 2 * delta + g -> dn * dn = D -> rc < dn ->
  (dn - rc) * (dn - rc) <= b.
Proof.
  intros Hb Hg Hgrc Hrc Hdelta HD Hdn Hlt.
  pose proof (sqrt_pos b) as Hs. pose proof (sqrt_sqrt b Hb) as Hss.
  revert Hs Hss Hdelta. generalize (R_sqrt.sqrt b). intros sb Hs Hss Hdelta.
  assert (Hle : dn <= sb + rc).
  { destruct (Rle_dec dn (sb + rc)) as [|N]; [assumption | exfalso].
    assert ((sb + rc) * (sb + rc) < dn * dn) by (apply Rmult_le_0_lt_compat; lra).
    nra. }
  assert (0 <= dn - rc <= sb) by lra.
  nra.
Qed.

Lemma dist_sq_axis_point (a v x : Point3D R) (k : R) :
  0 < dot v v ->
  dist_sq x (point_at a v k)
  = (axial a v x - k) * (axial a v x - k) * dot v v + norm_sq (radial a v x).
Proof.
  intros Hn.
  rewrite <- (point_at_0 (point_at a v k) (radial a v x)) at 1.
  rewrite dist_sq_offset_point by exact Hn. ring.
Qed.

(** A point belongs to the solid cylinder exactly when its parameter along
    the axis lies in [[0, 1]] and its offset from the axis is no longer
    than the radius. *)
Lemma solid_cylinder_axial_radial (c : Cylinder.t R) (y : Point3D R) :
  0 < v_dot_v c ->
  (solid_cylinder c y <->
   0 <= axial (Cylinder.p1 c) (sub (Cylinder.p2 c) (Cylinder.p1 c)) y <= 1 /\
   norm_sq (radial (Cylinder.p1 c) (sub (Cylinder.p2 c) (Cylinder.p1 c)) y)
   <= Cylinder.radius c * Cylinder.radius c).
Proof.
  intros Hn. unfold solid_cylinder, v_dot_v in *.
  set (a := Cylinder.p1 c) in *. set (v := sub (Cylinder.p2 c) a) in *.
  change (norm_sq v) with (dot v v) in Hn.
  split.
  - intros (t & Ht & Ho & Hd).
    assert (E : t = axial a v y).
    { unfold axial. apply Rmult_eq_reg_r with (dot v v); [|lra].
      replace (dot (sub y a) v / dot v v * dot v v) with (dot (sub y a) v)
        by (field; lra).
      replace (dot (sub y (point_at a v t)) v)
        with (dot (sub y a) v - t * dot v v) in Ho by (vec_unfold; ring).
      lra. }
    subst t. split; assumption.
  - intros [Ht Hr]. exists (axial a v y). split; [exact Ht|]. split.
    + apply (radial_orthogonal a v y Hn).
    + exact Hr.
Qed.

(** X17. The test that [Cylinder::contains] makes below its two
    declarations, run on the differences [p2 - p1] and [p - p1] themselves,
    is membership in the solid cylinder with flat caps: for an axis of
    positive length, [p] is accepted exactly when some point of the axis
    segment lies straight below it and no further from it than the radius.
    What a call of [Cylinder::contains] returns is another matter, its two
    locals being references to destroyed temporaries. *)
Theorem Cylinder_contains_test_is_the_solid_cylinder
    (c : Cylinder.t R) (y : Point3D R) :
  0 < v_dot_v c ->
  (Cylinder_contains_test (Cylinder.radius c)
                          (sub (Cylinder.p2 c) (Cylinder.p1 c))
                          (sub y (Cylinder.p1 c)) = true
   <-> solid_cylinder c y).
Proof.
  intros Hn.
  rewrite Cylinder_contains_test_axial_radial by exact Hn.
  symmetry. now apply solid_cylinder_axial_radial.
Qed.

Lemma Cylinder_contains_test_is_the_solid_cylinder_witness :
  Cylinder_contains_test 2 (sub (mkPoint3D 4 0 0) (mkPoint3D 0 0 0))
                         (sub (mkPoint3D 1 1 0) (mkPoint3D 0 0 0)) = true
  <-> solid_cylinder (Cylinder.mk (mkPoint3D 0 0 0) (mkPoint3D 4 0 0) 2)
                     (mkPoint3D 1 1 0).
Proof.
  apply (Cylinder_contains_test_is_the_solid_cylinder
           (Cylinder.mk (mkPoint3D 0 0 0) (mkPoint3D 4 0 0) 2) (mkPoint3D 1 1 0)).
  unfold v_dot_v, norm_sq, sub, subtract_point. cbn. lra.
Defined.

(** The same body in the coordinates of the axis: [s0] is the parameter
    of the foot of the centre on the axis line and [d] its offset. *)
Lemma Sphere_intersects_Cylinder_normal_form (s : Sphere.t R) (c : Cylinder.t R) :
  0 < v_dot_v c ->
  let x := Sphere.centroid s in
  let a := Cylinder.p1 c in
  let v := sub (Cylinder.p2 c) (Cylinder.p1 c) in
  let r := Sphere.radius s in
  let rc := Cylinder.radius c in
  let s0 := axial a v x in
  let d := radial a v x in
  let n := dot v v in
  let cap := point_at a v (if Rltb (s0 * n) 0 then 0 else 1) in
  Sphere_intersects_Cylinder s c =
  if Rleb 0 (s0 * n) && Rleb (s0 * n) n then
    Rleb (norm_sq d) ((r + rc) * (r + rc))
  else if Rltb ((r + rc) * (r + rc)) (dist_sq x cap) then false
  else
    Rleb (dist_sq x
            (if Rltb (norm d) (100 * / 8388608) then cap
             else project_point_onto_segment
                    (pt_sub cap (mul_val d (rc / norm d)))
                    (mul_val d (2 * rc / norm d)) x))
         (r * r).
Proof.
  intros Hn x a v r rc s0 d n cap.
  rewrite Sphere_intersects_Cylinder_unfold.
  rewrite closer_cap_point_at, axis_offset_radial.
  rewrite (v_dot_u_axial s c Hn).
  rewrite !PointFacts.pt_sub_sub.
  unfold v_dot_v.
  fold x a v r rc. fold s0 d.
  change (norm_sq v) with n. fold cap.
  replace (norm_sq (sub x a) - s0 * n * (s0 * n) / n) with (norm_sq d).
  2:{ unfold d, s0, n. rewrite norm_sq_radial by exact Hn.
      rewrite (axial_spec a v x Hn). reflexivity. }
  reflexivity.
Qed.

Lemma norm_positive (d : Point3D R) :
  100 * / 8388608 <= norm d -> 0 < norm d /\ norm d * norm d = norm_sq d.
Proof.
  intros H. split; [lra|]. unfold norm. cbn [csqrt Rcoord].
  apply sqrt_sqrt, PointFacts.norm_sq_nonneg.
Qed.

Lemma Sphere_intersects_Cylinder_sound (s : Sphere.t R) (c : Cylinder.t R) :
  0 < v_dot_v c -> 0 <= Sphere.radius s -> 0 < Cylinder.radius c ->
  Sphere_intersects_Cylinder s c = true ->
  exists y, Sphere_contains s y = true /\ solid_cylinder c y.
Proof.
  intros Hn Hr Hrc.
  rewrite (Sphere_intersects_Cylinder_normal_form s c Hn). cbv zeta.
  assert (Hcyl : forall y,
    0 <= axial (Cylinder.p1 c) (sub (Cylinder.p2 c) (Cylinder.p1 c)) y <= 1 /\
    norm_sq (radial (Cylinder.p1 c) (sub (Cylinder.p2 c) (Cylinder.p1 c)) y)
      <= Cylinder.radius c * Cylinder.radius c ->
    solid_cylinder c y).
  { intros y. apply solid_cylinder_axial_radial. exact Hn. }
  assert (Hsph : forall y,
    dist_sq (Sphere.centroid s) y <= Sphere.radius s * Sphere.radius s ->
    Sphere_contains s y = true).
  { intros y. apply Sphere_contains_iff. }
  unfold v_dot_v in Hn.
  set (x := Sphere.centroid s) in *. set (a := Cylinder.p1 c) in *.
  set (v := sub (Cylinder.p2 c) a) in *.
  set (r := Sphere.radius s) in *. set (rc := Cylinder.radius c) in *.
  change (norm_sq v) with (dot v v) in Hn.
  pose proof (radial_orthogonal a v x Hn) as Hov.
  pose proof (PointFacts.norm_sq_nonneg (radial a v x)) as HD.
  pose proof (fun t l => dist_sq_offset_point a v x t l Hn) as Hdist.
  pose proof (fun t l => axial_offset_point a v (radial a v x) t l Hn Hov) as Hax.
  pose proof (fun t l => norm_sq_radial_offset_point a v (radial a v x) t l Hn Hov)
    as Hrad.
  pose proof (fun k => dot_cap_radial a v x k Hn) as Hcapdot.
  set (s0 := axial a v x) in *. set (d := radial a v x) in *.
  set (n := dot v v) in *.
  destruct (Rleb 0 (s0 * n) && Rleb (s0 * n) n) eqn:Ebody.
  - apply andb_true_iff in Ebody. destruct Ebody as [E1 E2].
    apply RFacts.Rleb_iff in E1, E2. rewrite RFacts.Rleb_iff. intros H.
    assert (Hs0 : 0 <= s0 <= 1) by (clearbody s0 n; split; nra).
    exists (point_at (point_at a v s0) d (rc / (r + rc))). split.
    + apply Hsph. rewrite Hdist.
      replace (1 - rc / (r + rc)) with (r / (r + rc)) by (field; lra).
      pose proof (scaled_square_le r (r + rc) (norm_sq d) Hr ltac:(lra) HD H).
      lra.
    + apply Hcyl. rewrite Hax, Hrad. split; [exact Hs0|].
      apply (scaled_square_le rc (r + rc) (norm_sq d)); lra.
  - set (k := if Rltb (s0 * n) 0 then 0 else 1) in *.
    assert (Hk : 0 <= k <= 1) by (unfold k; destruct (Rltb (s0 * n) 0); lra).
    set (cap := point_at a v k) in *.
    destruct (Rltb ((r + rc) * (r + rc)) (dist_sq x cap)); [discriminate|].
    destruct (Rltb (norm d) (100 * / 8388608)) eqn:Eeps.
    + rewrite RFacts.Rleb_iff. intros H. exists cap. split; [apply Hsph; exact H|].
      apply Hcyl. unfold cap. rewrite <- (point_at_0 (point_at a v k) d).
      rewrite Hax, Hrad. split; [exact Hk | nra].
    + assert (Hdn : 100 * / 8388608 <= norm d).
      { destruct (Rle_dec (100 * / 8388608) (norm d)) as [|N]; [assumption|].
        rewrite RFacts.Rltb_true in Eeps by lra. discriminate. }
      destruct (norm_positive d Hdn) as [Hpos Hsq].
      rewrite (cap_projection cap d x rc (norm d) Hrc Hpos Hsq (Hcapdot k)).
      rewrite RFacts.Rleb_iff. intros H.
      exists (point_at cap d (if Rltb rc (norm d) then rc / norm d else 1)).
      split; [apply Hsph; exact H|].
      apply Hcyl. unfold cap. rewrite Hax, Hrad. split; [exact Hk|].
      unfold Rltb. destruct (Rlt_dec rc (norm d)) as [L|L].
      * rewrite <- Hsq. apply Req_le. field. lra.
      * rewrite <- Hsq. nra.
Qed.

Lemma Sphere_intersects_Cylinder_complete (s : Sphere.t R) (c : Cylinder.t R) :
  0 < v_dot_v c -> 0 <= Sphere.radius s -> 0 < Cylinder.radius c ->
  (norm (axis_offset s c) < 100 * epsilon -> norm (axis_offset s c) = 0) ->
  (exists y, Sphere_contains s y = true /\ solid_cylinder c y) ->
  Sphere_intersects_Cylinder s c = true.
Proof.
  intros Hn Hr Hrc Heps (y & Hs & Hc).
  rewrite (Sphere_intersects_Cylinder_normal_form s c Hn). cbv zeta.
  apply Sphere_contains_iff in Hs.
  apply (solid_cylinder_axial_radial c y Hn) in Hc. destruct Hc as [Hty Hw].
  rewrite axis_offset_radial in Heps. cbn [epsilon cmul of_Z Rcoord] in Heps.
  unfold v_dot_v in Hn.
  set (x := Sphere.centroid s) in *. set (a := Cylinder.p1 c) in *.
  set (v := sub (Cylinder.p2 c) a) in *.
  set (r := Sphere.radius s) in *. set (rc := Cylinder.radius c) in *.
  change (norm_sq v) with (dot v v) in Hn.
  rewrite (dist_sq_axial_radial a v x y Hn) in Hs.
  pose proof (PointFacts.norm_sq_nonneg (radial a v x)) as HD.
  pose proof (fun t l => dist_sq_offset_point a v x t l Hn) as Hdist.
  pose proof (fun k => dist_sq_axis_point a v x k Hn) as Hcapdist.
  pose proof (fun k => dot_cap_radial a v x k Hn) as Hcapdot.
  set (s0 := axial a v x) in *. set (d := radial a v x) in *.
  set (ty := axial a v y) in *. set (w := radial a v y) in *.
  set (n := dot v v) in *.
  pose proof (PointFacts.norm_sq_nonneg (sub d w)) as Hb.
  pose proof (PointFacts.norm_sq_nonneg w) as Hg.
  assert (HDsum : norm_sq d = norm_sq (sub d w) + 2 * dot (sub d w) w + norm_sq w).
  { rewrite <- norm_sq_add, sub_add_cancel. reflexivity. }
  assert (Hax0 : 0 <= (s0 - ty) * (s0 - ty) * n).
  { apply Rmult_le_pos; [apply Rle_0_sqr | lra]. }
  assert (Hdelta : dot (sub d w) w <= r * rc).
  { apply dot_le_product; lra. }
  assert (Hdelta' : dot (sub d w) w <= R_sqrt.sqrt (norm_sq (sub d w)) * rc).
  { apply dot_le_product; try lra; [apply sqrt_pos|].
    rewrite sqrt_sqrt by exact Hb. lra. }
  revert Hdelta Hdelta' HDsum Hb Hg Hw Hs.
  generalize (dot (sub d w) w) (norm_sq (sub d w)) (norm_sq w).
  intros delta b g Hdelta Hdelta' HDsum Hb Hg Hw Hs.
  destruct (Rleb 0 (s0 * n) && Rleb (s0 * n) n) eqn:Ebody.
  - apply RFacts.Rleb_true. nra.
  - set (k := if Rltb (s0 * n) 0 then 0 else 1) in *.
    assert (Hk : (s0 - k) * (s0 - k) * n <= (s0 - ty) * (s0 - ty) * n).
    { apply Rmult_le_compat_r; [lra|].
      apply andb_false_iff in Ebody. unfold k, Rltb.
      destruct (Rlt_dec (s0 * n) 0) as [L|L].
      - assert (s0 < 0) by (clearbody s0 n; nra).
        assert (0 <= ty * (ty - 2 * s0)) by (apply Rmult_le_pos; lra). nra.
      - assert (1 < s0).
        { destruct Ebody as [E|E].
          - rewrite RFacts.Rleb_true in E by lra. discriminate.
          - destruct (Rle_dec (s0 * n) n) as [U|U].
            + rewrite RFacts.Rleb_true in E by lra. discriminate.
            + clearbody s0 n. nra. }
        assert (0 <= (1 - ty) * (2 * s0 - 1 - ty)) by (apply Rmult_le_pos; lra).
        nra. }
    set (cap := point_at a v k) in *.
    assert (Hcap : dist_sq x cap = (s0 - k) * (s0 - k) * n + norm_sq d)
      by apply Hcapdist.
    assert (Hk0 : 0 <= (s0 - k) * (s0 - k) * n).
    { apply Rmult_le_pos; [apply Rle_0_sqr | lra]. }
    rewrite RFacts.Rltb_false by (rewrite Hcap; nra).
    destruct (Rltb (norm d) (100 * / 8388608)) eqn:Eeps.
    + apply RFacts.Rltb_iff in Eeps. specialize (Heps Eeps).
      assert (norm_sq d = 0) by (apply sqrt_eq_0; [exact HD | exact Heps]).
      apply RFacts.Rleb_true. rewrite Hcap. lra.
    + assert (Hdn : 100 * / 8388608 <= norm d).
      { destruct (Rle_dec (100 * / 8388608) (norm d)) as [|N]; [assumption|].
        rewrite RFacts.Rltb_true in Eeps by lra. discriminate. }
      destruct (norm_positive d Hdn) as [Hpos Hsq].
      rewrite (cap_projection cap d x rc (norm d) Hrc Hpos Hsq (Hcapdot k)).
      apply RFacts.Rleb_true. unfold cap. rewrite Hdist.
      unfold Rltb. destruct (Rlt_dec rc (norm d)) as [L|L].
      * replace ((1 - rc / norm d) * (1 - rc / norm d) * norm_sq d)
          with ((norm d - rc) * (norm d - rc)) by (rewrite <- Hsq; field; lra).
        pose proof (reverse_triangle b g delta (norm_sq d) (norm d) rc
                      Hb Hg Hw ltac:(lra) Hdelta' HDsum Hsq L).
        lra.
      * lra.
Qed.

(** X18. [Sphere::intersects(Cylinder)] is the exact test for a ball, the
    points that [Sphere::contains] accepts, against the solid cylinder with
    flat caps: for an axis of positive length, a sphere radius that is not
    negative and a positive cylinder radius, a [true] answer always comes
    with a point of the solid cylinder that the sphere contains; and when
    there is such a point the answer is [true], provided the offset of the
    centre from the axis is not one of the lengths strictly between 0 and
    100 * epsilon, for which the code takes the cap centre in place of the
    closest point of the cap. *)
Theorem Sphere_intersects_Cylinder_iff_common_point (s : Sphere.t R) (c : Cylinder.t R) :
  0 < v_dot_v c -> 0 <= Sphere.radius s -> 0 < Cylinder.radius c ->
  (Sphere_intersects_Cylinder s c = true ->
   exists y, Sphere_contains s y = true /\ solid_cylinder c y)
  /\
  ((norm (axis_offset s c) < 100 * epsilon -> norm (axis_offset s c) = 0) ->
   (exists y, Sphere_contains s y = true /\ solid_cylinder c y) ->
   Sphere_intersects_Cylinder s c = true).
Proof.
  intros Hn Hr Hrc. split.
  - apply Sphere_intersects_Cylinder_sound; assumption.
  - apply Sphere_intersects_Cylinder_complete; assumption.
Qed.

(** A unit ball centred at (5, 2, 0), beside the second cap of the cylinder
    of radius 2 about the segment from the origin to (4, 0, 0). *)
Lemma Sphere_intersects_Cylinder_iff_common_point_witness :
  let s := Sphere.mk (mkPoint3D 5 2 0) 1 in
  let c := Cylinder.mk (mkPoint3D 0 0 0) (mkPoint3D 4 0 0) 2 in
  (Sphere_intersects_Cylinder s c = true ->
   exists y, Sphere_contains s y = true /\ solid_cylinder c y)
  /\
  ((norm (axis_offset s c) < 100 * epsilon -> norm (axis_offset s c) = 0) ->
   (exists y, Sphere_contains s y = true /\ solid_cylinder c y) ->
   Sphere_intersects_Cylinder s c = true).
Proof.
  apply (Sphere_intersects_Cylinder_iff_common_point
           (Sphere.mk (mkPoint3D 5 2 0) 1)
           (Cylinder.mk (mkPoint3D 0 0 0) (mkPoint3D 4 0 0) 2)).
  - unfold v_dot_v, norm_sq, sub, subtract_point. cbn. lra.
  - cbn. lra.
  - cbn. lra.
Defined.

Lemma point_sphere_contains (point p : Point3D R) :
  Sphere_contains (Sphere.mk point 0%coord) p = true <-> p = point.
Proof.
  rewrite Sphere_contains_iff. cbn [Sphere.centroid Sphere.radius of_Z Rcoord].
  pose proof (PointMore.dist_sq_nonneg point p) as Hn.
  pose proof (PointMore.dist_sq_zero_iff point p) as Hz.
  split.
  - intros H. symmetry. apply Hz. lra.
  - intros ->. replace (dist_sq point point) with 0; [lra|].
    symmetry. now apply PointMore.dist_sq_zero_iff.
Qed.

(** X27. [Synapse(id, post_gid, pre_gid, point)] checks no id and always returns:
    the three ids are kept as they are given, whatever their size, and the
    shape is the sphere of radius 0 at [point].  As a shape the synapse is
    that one point: it contains [point] and nothing else, and it intersects a
    cylinder, of positive length and radius, exactly when [point] belongs
    to the solid cylinder with flat caps. *)
Theorem Synapse_is_a_point (id post_gid pre_gid : Z) (point : Point3D R) :
  exists syn,
    Constructors.Synapse_new id post_gid pre_gid point = Returned syn
    /\ Ident.id (Ident.syn_shape (Synapse.ids syn)) = id
    /\ Ident.post_gid (Synapse.ids syn) = post_gid
    /\ Ident.pre_gid (Synapse.ids syn) = pre_gid
    /\ (forall p, Sphere_contains (Synapse.shape syn) p = true <-> p = point)
    /\ (forall c, 0 < v_dot_v c -> 0 < Cylinder.radius c ->
          (Sphere_intersects_Cylinder (Synapse.shape syn) c = true
           <-> solid_cylinder c point)).
Proof.
  eexists. split; [reflexivity|]. cbn [Synapse.ids Synapse.shape].
  split; [reflexivity|]. split; [reflexivity|]. split; [reflexivity|].
  split; [intros p; apply point_sphere_contains|].
  intros c Hn Hrc. split.
  - intros H.
    destruct (Sphere_intersects_Cylinder_sound (Sphere.mk point 0%coord) c)
      as (y & Hs & Hc); try assumption.
    + cbn. lra.
    + apply point_sphere_contains in Hs. now subst y.
  - intros H. apply GeometryFacts.Cylinder_contains_test_intersects.
    apply (Cylinder_contains_test_axial_radial c point Hn).
    now apply (solid_cylinder_axial_radial c point Hn).
Qed.

End SolidCylinderMore.

(** ** The voxel grid: [point2voxel], [size], [voxels] and [operator+=] *)

Module GridMore.
Import Grid.

Section WithCoord.
Context {C : Type} {coord : CoordType C}.
Variable VoxelLen : Z.
Variable segment_ids : Z -> Z -> Ident.MorphPartId.

Local Abbreviation grid := (gmap (Z * Z * Z) (list (MorphoEntry C))).

(** *** [size()] under the updates of the map *)

Lemma size_empty : size (∅ : grid) = 0%Z.
Proof. unfold size. apply map_fold_empty. Qed.

Lemma size_insert_fresh (g : grid) (k : Z * Z * Z) (v : list (MorphoEntry C)) :
  g !! k = None -> size (<[k := v]> g) = (size g + Z.of_nat (length v))%Z.
Proof.
  intros H. unfold size. rewrite map_fold_insert_L; [reflexivity | | exact H].
  intros. lia.
Qed.

Lemma size_set_key (g : grid) (k : Z * Z * Z) (v : list (MorphoEntry C)) :
  size (<[k := v]> g)
  = (size g - Z.of_nat (length (at_key g k)) + Z.of_nat (length v))%Z.
Proof.
  unfold at_key. destruct (g !! k) as [old|] eqn:E; cbn [default].
  - rewrite <- (insert_delete_eq g k v).
    rewrite size_insert_fresh by apply lookup_delete_eq.
    unfold size at 2. rewrite (map_fold_delete_L _ _ k old g); [| intros; lia | exact E].
    fold (size (delete k g)). unfold Datatypes.id. lia.
  - rewrite size_insert_fresh by exact E. cbn. lia.
Qed.

Lemma size_push_back (g : grid) (k : Z * Z * Z) (value : MorphoEntry C) :
  size (push_back k value g) = (size g + 1)%Z.
Proof.
  unfold push_back. rewrite size_set_key, length_app. cbn [length]. lia.
Qed.


Lemma size_insert (value : MorphoEntry C) (g : grid) :
  size (insert VoxelLen value g)
  = (size g
     + if decide (point2voxel VoxelLen (min_corner (bounding_box value))
                  = point2voxel VoxelLen (max_corner (bounding_box value)))
       then 1 else 2)%Z.
Proof.
  unfold insert. cbv zeta.
  destruct (decide (point2voxel VoxelLen (min_corner (bounding_box value))
                    = point2voxel VoxelLen (max_corner (bounding_box value))))
    as [E|E].
  - rewrite bool_decide_eq_false_2 by (intros H; now apply H).
    apply size_push_back.
  - rewrite bool_decide_eq_true_2 by exact E.
    rewrite !size_push_back. lia.
Qed.

Lemma size_insert_segment (gid segment_i : Z) (p1 p2 : Point3D C) (radius : C)
    (g : grid) :
  size (insert_segment VoxelLen segment_ids gid segment_i p1 p2 radius g)
  = (size g
     + if decide (point2voxel VoxelLen p1 = point2voxel VoxelLen p2)
       then 1 else 2)%Z.
Proof.
  unfold insert_segment. cbv zeta.
  rewrite GridFacts.at_key_push_back_eq, last_snoc.
  destruct (decide (point2voxel VoxelLen p1 = point2voxel VoxelLen p2)) as [E|E].
  - rewrite bool_decide_eq_false_2 by (intros H; now apply H).
    apply size_push_back.
  - rewrite bool_decide_eq_true_2 by exact E.
    rewrite !size_push_back. lia.
Qed.

(** What [operator+=] has done after the items of [m] have been visited. *)
Lemma add_assign_lookup (lhs rhs : grid) (k : Z * Z * Z) :
  add_assign lhs rhs !! k
  = union_with (fun a b => Some (a ++ b)) (lhs !! k) (rhs !! k).
Proof.
  unfold add_assign.
  apply (map_fold_weak_ind
           (fun (r : grid) (m : grid) =>
              r !! k = union_with (fun a b => Some (a ++ b)) (lhs !! k) (m !! k))).
  - rewrite lookup_empty. destruct (lhs !! k); reflexivity.
  - intros i x m r Hi IH. destruct (decide (k = i)) as [->|Hne].
    + rewrite !lookup_insert_eq. unfold at_key. rewrite IH, Hi.
      destruct (lhs !! i); reflexivity.
    + rewrite !lookup_insert_ne by congruence. exact IH.
Qed.

Lemma size_add_assign (lhs rhs : grid) :
  size (add_assign lhs rhs) = (size lhs + size rhs)%Z.
Proof.
  unfold add_assign.
  apply (map_fold_weak_ind
           (fun (r : grid) (m : grid) => size r = (size lhs + size m)%Z)).
  - rewrite size_empty. lia.
  - intros i x m r Hi IH.
    rewrite size_set_key, length_app, size_insert_fresh by exact Hi. lia.
Qed.

Lemma elem_of_voxels (g : grid) (k : Z * Z * Z) :
  k ∈ voxels g <-> is_Some (g !! k).
Proof.
  unfold voxels. rewrite list_elem_of_fmap. split.
  - intros ([k' v] & -> & H). apply elem_of_map_to_list in H. now exists v.
  - intros [v H]. exists (k, v). split; [reflexivity|].
    now apply elem_of_map_to_list.
Qed.

(** X21. [voxels()] lists every key of the grid once.  After an insertion the
    keys are those of before and the one or two keys of the entry. *)
Theorem voxels_lists_every_key_once (g : grid) :
  NoDup (voxels g)
  /\ (forall k, k ∈ voxels g <-> is_Some (g !! k))
  /\ (forall (value : MorphoEntry C) k,
        k ∈ voxels (insert VoxelLen value g)
        <-> k ∈ voxels g
            \/ k = point2voxel VoxelLen (min_corner (bounding_box value))
            \/ k = point2voxel VoxelLen (max_corner (bounding_box value)))
  /\ (forall gid segment_i (p1 p2 : Point3D C) radius k,
        k ∈ voxels (insert_segment VoxelLen segment_ids gid segment_i p1 p2 radius g)
        <-> k ∈ voxels g
            \/ k = point2voxel VoxelLen p1 \/ k = point2voxel VoxelLen p2).
Proof.
  split; [apply NoDup_fst_map_to_list|].
  split; [apply elem_of_voxels|].
  split.
  - intros value k. rewrite !elem_of_voxels.
    pose proof (GridFacts.insert_lookup VoxelLen value g k) as H. cbv zeta in H.
    rewrite H. clear H.
    destruct (decide (k = point2voxel VoxelLen (min_corner (bounding_box value)) \/
                      k = point2voxel VoxelLen (max_corner (bounding_box value))))
      as [Hk|Hk].
    + split; [tauto | intros _; eexists; reflexivity].
    + tauto.
  - intros gid segment_i p1 p2 radius k. rewrite !elem_of_voxels.
    pose proof (GridFacts.insert_segment_lookup VoxelLen segment_ids gid segment_i
                  p1 p2 radius g k) as H. cbv zeta in H.
    rewrite H. clear H.
    destruct (decide (k = point2voxel VoxelLen p1 \/ k = point2voxel VoxelLen p2))
      as [Hk|Hk].
    + split; [tauto | intros _; eexists; reflexivity].
    + tauto.
Qed.

(** X20. [size()] counts every stored copy: an entry whose two keys differ is
    counted twice.  Each insertion adds 1 to the size when the two keys of
    the entry are the same voxel and 2 when they are not. *)
Theorem size_counts_every_stored_copy (g : grid) :
  (forall value : MorphoEntry C,
      size (insert VoxelLen value g)
      = (size g
         + if decide (point2voxel VoxelLen (min_corner (bounding_box value))
                      = point2voxel VoxelLen (max_corner (bounding_box value)))
           then 1 else 2)%Z)
  /\
  (forall (gid segment_i : Z) (p1 p2 : Point3D C) (radius : C),
      size (insert_segment VoxelLen segment_ids gid segment_i p1 p2 radius g)
      = (size g
         + if decide (point2voxel VoxelLen p1 = point2voxel VoxelLen p2)
           then 1 else 2)%Z).
Proof.
  split.
  - intros value. apply size_insert.
  - intros. apply size_insert_segment.
Qed.

(** X22. [grid += rhs] appends, voxel by voxel, the entries of [rhs] behind those
    of the grid: a key of either grid is a key of the result, the vector
    under it is the one of the grid followed by the one of [rhs], and the
    sizes add up. *)
Theorem add_assign_concatenates_voxelwise (lhs rhs : grid) :
  (forall k, add_assign lhs rhs !! k
             = union_with (fun a b => Some (a ++ b)) (lhs !! k) (rhs !! k))
  /\ (forall k, at_key (add_assign lhs rhs) k = at_key lhs k ++ at_key rhs k)
  /\ (forall k, k ∈ voxels (add_assign lhs rhs) <-> k ∈ voxels lhs \/ k ∈ voxels rhs)
  /\ size (add_assign lhs rhs) = (size lhs + size rhs)%Z.
Proof.
  split; [apply add_assign_lookup|].
  split.
  { intros k. unfold at_key. rewrite add_assign_lookup.
    destruct (lhs !! k), (rhs !! k); cbn; rewrite ?app_nil_r; reflexivity. }
  split; [|apply size_add_assign].
  intros k. rewrite !elem_of_voxels, add_assign_lookup.
  destruct (lhs !! k), (rhs !! k); cbn; split; intros H;
    first [ left; eexists; reflexivity | right; eexists; reflexivity
          | eexists; reflexivity
          | destruct H as [[? H]|[? H]]; discriminate H
          | destruct H as [? H]; discriminate H ].
Qed.

End WithCoord.

Local Open Scope R_scope.

Lemma Int_part_quotient (x : R) (L i : Z) :
  (0 < L)%Z ->
  (Int_part (x / IZR L) = i <-> IZR i * IZR L <= x < (IZR i + 1) * IZR L).
Proof.
  intros HL. assert (HLR : 0 < IZR L) by (now apply IZR_lt).
  assert (Hq : x / IZR L * IZR L = x) by (field; lra).
  revert Hq. generalize (x / IZR L). intros q Hq. subst x.
  split.
  - intros <-. destruct (base_Int_part q) as [Hlo Hhi]. split; nra.
  - intros [Hlo Hhi]. apply RFacts.Int_part_between. split; nra.
Qed.

(** X19. [point2voxel] names the cube of side [VoxelLen] that holds the point:
    the key is [(i, j, k)] exactly when every coordinate lies in the
    half-open interval from the index times [VoxelLen] to the next index
    times [VoxelLen].  Coordinates below zero get indices below zero. *)
Theorem point2voxel_is_the_cube_of_the_point (VoxelLen : Z) (p : Point3D R)
    (i j k : Z) :
  (0 < VoxelLen)%Z ->
  (point2voxel VoxelLen p = (i, j, k) <->
   IZR i * IZR VoxelLen <= get0 p < (IZR i + 1) * IZR VoxelLen /\
   IZR j * IZR VoxelLen <= get1 p < (IZR j + 1) * IZR VoxelLen /\
   IZR k * IZR VoxelLen <= get2 p < (IZR k + 1) * IZR VoxelLen).
Proof.
  intros HL. unfold point2voxel. cbn [cfloor cdiv of_Z Rcoord].
  rewrite <- !(Int_part_quotient _ VoxelLen) by exact HL.
  split.
  - intros H. injection H as <- <- <-. repeat split.
  - intros (-> & -> & ->). reflexivity.
Qed.

Lemma point2voxel_is_the_cube_of_the_point_witness :
  point2voxel 5 (mkPoint3D (-1) 7 (25 / 2)) = ((-1)%Z, 1%Z, 2%Z) <->
  IZR (-1) * IZR 5 <= get0 (mkPoint3D (-1) 7 (25 / 2)) < (IZR (-1) + 1) * IZR 5 /\
  IZR 1 * IZR 5 <= get1 (mkPoint3D (-1) 7 (25 / 2)) < (IZR 1 + 1) * IZR 5 /\
  IZR 2 * IZR 5 <= get2 (mkPoint3D (-1) 7 (25 / 2)) < (IZR 2 + 1) * IZR 5.
Proof.
  apply (point2voxel_is_the_cube_of_the_point 5 (mkPoint3D (-1) 7 (25 / 2))
           (-1) 1 2).
  lia.
Defined.

End GridMore.

(** ** The loader: the grid of ranks and the ids of the parts *)

Module STRMore.
Import STR.
Local Open Scope Z_scope.

(** X23. The grid of ranks that [rank_distribution] returns for a power of two
    is balanced: the three factors do not increase from x to z, and the
    largest is at most twice the smallest. *)
Theorem rank_distribution_is_balanced (q : nat) :
  exists dx dy dz,
    rank_distribution (2 ^ Z.of_nat q) = Some [dx; dy; dz]
    /\ 1 <= dz /\ dz <= dy /\ dy <= dx /\ dx <= 2 * dz.
Proof.
  destruct (STRFacts.rank_distribution_counts q) as [E _].
  eexists _, _, _. split; [exact E|].
  assert (Hq : 0 <= Z.of_nat q) by lia.
  pose proof (STRFacts.ceil_div_thirds_nonneg (Z.of_nat q) 2 Hq ltac:(lia)) as N2.
  assert (Hc : ceil_div (Z.of_nat q - 2) 3 <= ceil_div (Z.of_nat q - 1) 3
               /\ ceil_div (Z.of_nat q - 1) 3 <= ceil_div (Z.of_nat q) 3
               /\ ceil_div (Z.of_nat q) 3 <= ceil_div (Z.of_nat q - 2) 3 + 1).
  { unfold ceil_div. Z.div_mod_to_equations. lia. }
  destruct Hc as (H1 & H2 & H3).
  split; [pose proof (Z.pow_pos_nonneg 2 _ ltac:(lia) N2); lia|].
  split; [apply Z.pow_le_mono_r; lia|].
  split; [apply Z.pow_le_mono_r; lia|].
  replace (2 * 2 ^ ceil_div (Z.of_nat q - 2) 3)
    with (2 ^ (ceil_div (Z.of_nat q - 2) 3 + 1))
    by (rewrite Z.pow_add_r by lia; lia).
  apply Z.pow_le_mono_r; lia.
Qed.

Section Loader.
Variable S : Substrate.

(** What the storage holds, read off the world: the subtrees saved so far,
    each with the key it was saved under.  [save_subtree] adds one entry,
    and the two other calls of the loop leave the storage alone. *)
Variable saved : World S -> list (Subtree S * Z).
Hypothesis save_subtree_adds :
  forall subtree k_part w w',
    save_subtree S subtree k_part w = (w', inr tt) ->
    saved w' = saved w ++ [(subtree, k_part)].
Hypothesis check_signals_keeps :
  forall w w' r, check_signals S w = (w', r) -> saved w' = saved w.
Hypothesis subtree_new_keeps :
  forall values w w' r, subtree_new S values w = (w', r) -> saved w' = saved w.

(** The loop over the serial parts, for any boxes [acc] collected
    before. *)
Lemma save_parts_saved (ks : list Z) :
  forall (values : list (Value S)) (mpi_rank_ n_serial_parts : Z)
         (local_boundaries : list Z) (acc : list (IndexedSubtreeBox (Box S)))
         (w w' : World S) (boxes : list (IndexedSubtreeBox (Box S))),
    save_parts S ks values mpi_rank_ n_serial_parts local_boundaries acc w
    = (w', inr boxes) ->
    exists new : list (Subtree S * Z),
      saved w' = saved w ++ new /\
      map snd new
      = map (fun k => size_t_add (size_t_mul mpi_rank_ n_serial_parts) k) ks /\
      boxes = acc ++ map (box_of S) new.
Proof.
  induction ks as [|k ks IH]; intros values r n bounds acc w w' boxes H.
  - cbn in H. unfold ret in H. injection H as <- <-. exists [].
    cbn. now rewrite !app_nil_r.
  - cbn [save_parts] in H. unfold bind in H.
    destruct (check_signals S w) as [w1 [e|[]]] eqn:E1; [discriminate|].
    destruct (subtree_new S _ w1) as [w2 [e|subtree]] eqn:E2; [discriminate|].
    destruct (save_subtree S subtree _ w2) as [w3 [e|[]]] eqn:E3; [discriminate|].
    apply IH in H. destruct H as (new & Hsaved & Hkeys & Hboxes).
    exists ((subtree, size_t_add (size_t_mul r n) k) :: new).
    split; [|split].
    + rewrite Hsaved, (save_subtree_adds _ _ _ _ E3).
      rewrite (subtree_new_keeps _ _ _ _ E2), (check_signals_keeps _ _ _ E1).
      now rewrite <- app_assoc.
    + cbn [map snd]. now rewrite Hkeys.
    + rewrite Hboxes, <- app_assoc. reflexivity.
Qed.

(** X24. The loop over the serial parts of [distributed_partition], when it
    comes to its end, has saved one subtree for every part [k], in order,
    under the key [size_t(mpi_rank) * n_serial_parts + k], and returns for
    each of them the box made of that key and of the size and the bounds of
    the subtree saved under it. *)
Theorem save_parts_numbers_the_parts (ks : list Z) (values : list (Value S))
    (mpi_rank_ n_serial_parts : Z) (local_boundaries : list Z)
    (w w' : World S) (boxes : list (IndexedSubtreeBox (Box S))) :
  save_parts S ks values mpi_rank_ n_serial_parts local_boundaries [] w
  = (w', inr boxes) ->
  exists new : list (Subtree S * Z),
    saved w' = saved w ++ new /\
    map snd new
    = map (fun k => size_t_add (size_t_mul mpi_rank_ n_serial_parts) k) ks /\
    boxes = map (box_of S) new.
Proof. intros H. apply save_parts_saved in H. exact H. Qed.

End Loader.

(** Rank 3 with two parts: the subtrees [10; 20] and [30] are saved under
    the keys 6 and 7. *)
Lemma save_parts_numbers_the_parts_witness :
  exists new : list (list Z * Z),
    [([10; 20], 6); ([30], 7)] = [] ++ new /\
    map snd new = map (fun k => size_t_add (size_t_mul 3 2) k) [0; 1] /\
    [mkIndexedSubtreeBox 6 2 tt; mkIndexedSubtreeBox 7 1 tt]
    = map (box_of (storing_substrate 3 4)) new.
Proof.
  apply (save_parts_numbers_the_parts (storing_substrate 3 4) (fun w => w)
           (fun subtree k_part w w' H =>
              f_equal fst (eq_sym H))
           (fun w w' r H => f_equal fst (eq_sym H))
           (fun values w w' r H => f_equal fst (eq_sym H))
           [0; 1] [10; 20; 30] 3 2 [0; 2; 3] []).
  reflexivity.
Defined.

(** X25. The subtree ids [size_t(mpi_rank) * n_serial_parts + k] of two parts
    are the same only for the same part of the same rank, as long as the
    number of ranks times the number of parts of a rank fits a [size_t]. *)
Theorem part_ids_do_not_collide (R n r1 r2 k1 k2 : Z) :
  0 <= r1 < R -> 0 <= r2 < R -> 0 <= k1 < n -> 0 <= k2 < n ->
  R * n <= 2 ^ 64 ->
  size_t_add (size_t_mul r1 n) k1 = size_t_add (size_t_mul r2 n) k2 ->
  r1 = r2 /\ k1 = k2.
Proof.
  intros Hr1 Hr2 Hk1 Hk2 HR.
  assert (Hb : forall r k, 0 <= r < R -> 0 <= k < n ->
            size_t_add (size_t_mul r n) k = r * n + k).
  { intros r k Hr Hk. unfold size_t_add, size_t_mul, Ident.wrap.
    assert (0 <= r * n + k < 2 ^ 64) by nia.
    assert (0 <= r * n < 2 ^ 64) by nia.
    rewrite (Z.mod_small (r * n)) by lia. now rewrite Z.mod_small by lia. }
  rewrite !Hb by assumption. intros H.
  destruct (Z.lt_trichotomy r1 r2) as [L|[E|G]].
  - assert ((r1 + 1) * n <= r2 * n) by (apply Z.mul_le_mono_nonneg_r; lia). lia.
  - subst r2. lia.
  - assert ((r2 + 1) * n <= r1 * n) by (apply Z.mul_le_mono_nonneg_r; lia). lia.
Qed.

Lemma part_ids_do_not_collide_witness : 3 = 3 /\ 1 = 1.
Proof.
  apply (part_ids_do_not_collide 4 2 3 3 1 1); first [lia | reflexivity].
Defined.

(** X26. [distributed_partition] throws nothing of its own but the error of its
    guard: an exception that no call into the substrate (MPI, the sorters,
    the storage, the signal check) can raise, and that leaves
    [distributed_partition], is "Too few elements.". *)
Theorem distributed_partition_raises_only_what_it_is_given (S : Substrate)
    (values : list (Value S)) (str_params : TwoLevelSTRParams) (comm : Comm S)
    (e : exception) :
  substrate_never_raises S e ->
  raises (distributed_partition S values str_params comm) e ->
  e = too_few_elements.
Proof.
  intros Hquiet (w & w' & H). unfold distributed_partition in H.
  destruct (Z.of_nat (length values) <? size_t_mul 10 (mpi_size S comm)).
  - unfold throw in H. now injection H as _ <-.
  - exfalso.
    apply (STRFacts.distributed_partition_load_quiet S e Hquiet values str_params comm).
    now exists w, w'.
Qed.

Lemma distributed_partition_raises_only_what_it_is_given_witness :
  too_few_elements = too_few_elements.
Proof.
  apply (distributed_partition_raises_only_what_it_is_given
           single_rank_substrate [] (mkTwoLevelSTRParams
                                       (mkDistributedSTRParams 0 [1; 1; 1])
                                       (mkLocalSTRParams [1; 1; 1])) tt).
  - apply STRFacts.single_rank_substrate_quiet.
  - exists [], []. reflexivity.
Defined.

End STRMore.
